(** * markdowndiff: a shallow embedding and its verified properties

    The development follows the Python package [markdowndiff]:
    - [utils.py]       text utilities, traversals, Myers LCS;
    - [diff.py]        the matcher and the edit-script generator ([Differ]);
    - [placeholder.py] the placeholder codec ([PlaceholderMaker]);
    - [formatting.py]  XPath resolution and the rich-text renderer.

    Conventions of the embedding.
    - A Python [str] is a list of code points ([pystr := list N]); tags,
      attribute names and attribute values are [string]s.
    - An lxml element is a [tree] node carrying the identity of the Python
      object ([nid], what [id(node)] returns), so that the identity-keyed
      dictionaries of [Differ] can be modelled as [gmap nat _].
    - Python floats are idealised as rationals ([Q]).
    - Functions that may raise return [option] or a sum with the exception. *)

From Stdlib Require Import ZArith NArith QArith Lia Lqa List Bool Ascii String.
From stdpp Require Import gmap strings list fin_maps sorting pretty.

Set Default Proof Using "Type".
Set Warnings "-register-all".
Local Open Scope nat_scope.

(** ** Strings *)

Definition pystr := list N.

(** Literal helper: the code points of an ASCII literal. *)
Fixpoint of_string (s : string) : pystr :=
  match s with
  | EmptyString => []
  | String a s' => N_of_ascii a :: of_string s'
  end.

(** [str.isspace()] / regex [\s] on code points. *)
Definition is_space (c : N) : bool :=
  ((9 <=? c) && (c <=? 13) || (28 <=? c) && (c <=? 32) || (c =? 133) || (c =? 160)
   || (c =? 5760) || (8192 <=? c) && (c <=? 8202) || (c =? 8232) || (c =? 8233)
   || (c =? 8239) || (c =? 8287) || (c =? 12288))%N.

(** [utils.cleanup_whitespace]: [WHITESPACE.sub(" ", text)] with
    [WHITESPACE = re.compile("\\s+")]; every maximal run of whitespace is
    replaced by one space. *)
Fixpoint cleanup_whitespace (text : pystr) : pystr :=
  match text with
  | [] => []
  | c :: rest =>
      if is_space c then
        match rest with
        | c' :: _ => if is_space c' then cleanup_whitespace rest
                     else 32%N :: cleanup_whitespace rest
        | [] => [32%N]
        end
      else c :: cleanup_whitespace rest
  end.

Fixpoint lstrip (s : pystr) : pystr :=
  match s with
  | c :: rest => if is_space c then lstrip rest else s
  | [] => []
  end.

(** [str.strip()] *)
Definition strip (s : pystr) : pystr := rev (lstrip (rev (lstrip s))).

(** [" ".join(texts)] *)
Fixpoint join_space (texts : list pystr) : pystr :=
  match texts with
  | [] => []
  | [t] => t
  | t :: rest => t ++ 32%N :: join_space rest
  end.

(** [utils.splitString(text, placeholderList)]: the loop keeps the start
    of the current token ([stringStart]); here the pending token is the
    reversed accumulator [cur], empty exactly when [i = stringStart]. *)
Fixpoint splitString_loop (brk : N -> bool) (text : pystr) (cur : pystr)
  : list pystr :=
  match text with
  | [] => match cur with [] => [] | _ => [rev cur] end
  | c :: rest =>
      if brk c then
        match cur with
        | [] => [c] :: splitString_loop brk rest []
        | _ => rev cur :: [c] :: splitString_loop brk rest []
        end
      else if (c =? 32)%N then
        match cur with
        | [] => splitString_loop brk rest []
        | _ => rev cur :: splitString_loop brk rest []
        end
      else splitString_loop brk rest (c :: cur)
  end.

Definition listCharsSplit (placeholderList : list N) (c : N) : bool :=
  bool_decide (c ∈ [59; 33; 63]%N ++ placeholderList).

Definition splitString (text : pystr) (placeholderList : list N) : list pystr :=
  splitString_loop (listCharsSplit placeholderList) text [].

(** ** Elements *)

Inductive tree : Type :=
  Node { nid : nat;
         tag : string;
         attrib : gmap string string;
         text : option pystr;
         tail : option pystr;
         kids : list tree }.

(** [x or ""] on an optional string. *)
Definition or_empty (s : option pystr) : pystr := default [] s.

(** [node.xpath("text()")]: the text children of a node, i.e. its leading
    text and the tails of its children (empty ones carry no text node). *)
Definition text_nodes (n : tree) : list pystr :=
  filter (fun s => s <> []) (or_empty (text n) :: map (fun c => or_empty (tail c)) (kids n)).

(** ** Similarity scoring ([Differ.node_text] ... [Differ.node_ratio]) *)

(** [Differ.node_text]; the memo table [_text_cache] only serves calls made
    while matching, before any text is changed, and is left out. *)
Definition node_text (node : tree) : pystr :=
  cleanup_whitespace (strip (join_space (text_nodes node))).

Definition node_weight (node : tree) : nat := 1 + length (node_text node).

(** [utils.diff_wordsToChars]: tokens are interned in order of first
    appearance, those of the second list first; index 0 is reserved. *)
Fixpoint diff_wordsToCharsMunge (tokens : list pystr)
    (wordsArray : list pystr) (wordsHash : gmap pystr nat)
  : pystr * (list pystr * gmap pystr nat) :=
  match tokens with
  | [] => ([], (wordsArray, wordsHash))
  | token :: rest =>
      match wordsHash !! token with
      | Some i =>
          let '(chars, st) := diff_wordsToCharsMunge rest wordsArray wordsHash in
          (N.of_nat i :: chars, st)
      | None =>
          let wordsArray' := wordsArray ++ [token] in
          let i := length wordsArray' - 1 in
          let '(chars, st) :=
            diff_wordsToCharsMunge rest wordsArray' (<[token := i]> wordsHash) in
          (N.of_nat i :: chars, st)
      end
  end.

Definition diff_wordsToChars (tokenList1 tokenList2 : list pystr)
  : pystr * pystr * list pystr :=
  let '(chars2, (wa, wh)) := diff_wordsToCharsMunge tokenList2 [[]] ∅ in
  let '(chars1, (wa', _)) := diff_wordsToCharsMunge tokenList1 wa wh in
  (chars1, chars2, wa').

(** An entry of [uniqueattrs]: an attribute name or a [(tag, attr)] pair. *)
Inductive uattr := UAttr (attr : string) | UTagAttr (tg attr : string).

Record Differ_config := {
  F : Q;
  uniqueattrs : list uattr;
  fast_match : bool }.

Section Ratios.

(** [diff_match_patch] is not part of the sources at hand: the edit
    distance [dmp.diff_levenshtein(dmp.diff_main(a, b))] of two interned
    token strings is a parameter of the development. *)
Variable dmp_levenshtein : pystr -> pystr -> nat.

Definition leaf_ratio (left right : tree) : nat * Q :=
  let ltext := node_text left in
  let rtext := node_text right in
  if (length ltext =? 0) && (length rtext =? 0) then
    if bool_decide (tag left = tag right) then (1, 1%Q) else (0, 0%Q)
  else if (length ltext =? 0) || (length rtext =? 0) then
    (max (length ltext) (length rtext), 0%Q)
  else
    let tokenListLeft := splitString ltext [] in
    let tokenListRight := splitString rtext [] in
    let '(char1, char2, _) := diff_wordsToChars tokenListLeft tokenListRight in
    let total_weight := max (length char1) (length char2) in
    (max (length rtext) (length ltext),
     1 - inject_Z (Z.of_nat (dmp_levenshtein char1 char2))
         / inject_Z (Z.of_nat total_weight))%Q.

(** The inner loop of [child_ratio]: the first remaining right child that
    is the partner of [lchild]; it is removed from the working list. *)
Fixpoint take_partner (r : nat) (right_children : list tree)
  : option (tree * list tree) :=
  match right_children with
  | [] => None
  | rchild :: rest =>
      if bool_decide (nid rchild = r) then Some (rchild, rest)
      else match take_partner r rest with
           | Some (c, rest') => Some (c, rchild :: rest')
           | None => None
           end
  end.

Fixpoint equal_weight (l2rmap : gmap nat nat) (left_children right_children : list tree)
  : nat :=
  match left_children with
  | [] => 0
  | lchild :: rest =>
      match l2rmap !! nid lchild with
      | Some r =>
          match take_partner r right_children with
          | Some (rchild, right_children') =>
              node_weight lchild + node_weight rchild
              + equal_weight l2rmap rest right_children'
          | None => equal_weight l2rmap rest right_children
          end
      | None => equal_weight l2rmap rest right_children
      end
  end.

Definition sum_weights (l : list tree) : nat :=
  foldr (fun c acc => node_weight c + acc) 0 l.

Definition of_nat_Q (n : nat) : Q := inject_Z (Z.of_nat n).

Definition child_ratio (l2rmap : gmap nat nat) (left right : tree) : Q * option Q :=
  match kids left, kids right with
  | [], [] => (0%Q, None)
  | left_children, right_children =>
      let total_weight := sum_weights left_children + sum_weights right_children in
      ((of_nat_Q total_weight / 2)%Q,
       Some (of_nat_Q (equal_weight l2rmap left_children right_children)
             / of_nat_Q total_weight)%Q)
  end.

(** [int(left.attrib.get(attr) == right.attrib.get(attr))] *)
Definition attr_equal (attr : string) (left right : tree) : Q :=
  if bool_decide (attrib left !! attr = attrib right !! attr) then 1%Q else 0%Q.

(** The loop over [self.uniqueattrs]: [Some] is the early return. *)
Fixpoint unique_ratio (attrs : list uattr) (left right : tree) : option Q :=
  match attrs with
  | [] => None
  | UTagAttr tg attr :: rest =>
      if bool_decide (tg <> tag left) || bool_decide (tg <> tag right) then
        unique_ratio rest left right
      else if bool_decide (is_Some (attrib left !! attr))
              || bool_decide (is_Some (attrib right !! attr))
      then Some (attr_equal attr left right)
      else unique_ratio rest left right
  | UAttr attr :: rest =>
      if bool_decide (is_Some (attrib left !! attr))
         || bool_decide (is_Some (attrib right !! attr))
      then Some (attr_equal attr left right)
      else unique_ratio rest left right
  end.

Definition node_ratio (cfg : Differ_config) (l2rmap : gmap nat nat)
    (left right : tree) : Q :=
  match unique_ratio (uniqueattrs cfg) left right with
  | Some r => r
  | None =>
      let '(leaf_weight, mtch) := leaf_ratio left right in
      let '(child_weight, child_r) := child_ratio l2rmap left right in
      match child_r with
      | Some cr =>
          ((of_nat_Q leaf_weight * mtch + child_weight * cr)
           / (of_nat_Q leaf_weight + child_weight))%Q
      | None => mtch
      end
  end.

End Ratios.

(** ** Properties of the similarity scores *)

Definition leaf (i : nat) (tg : string) (attrs : list (string * string)) : tree :=
  Node i tg (list_to_map attrs) None None [].

(** Stand-in for the text-diff distance in closed examples. *)
Definition dmp_example (a b : pystr) : nat :=
  if bool_decide (a = b) then 0 else max (length a) (length b).

Definition both_empty_same_tag (l r : tree) : Prop :=
  node_text l = [] /\ node_text r = [] /\ tag l = tag r.

(** C6, as stated, fails: for two text-less nodes with the same tag the
    weight is 1, not max(|ltext|, |rtext|) = 0. *)
Lemma leaf_ratio_weight_counterexample :
  fst (leaf_ratio dmp_example (leaf 0 "p" []) (leaf 1 "p" [])) = 1
  /\ max (length (node_text (leaf 0 "p" []))) (length (node_text (leaf 1 "p" []))) = 0.
Proof. split; reflexivity. Qed.

(** C6 (amended): the weight of [leaf_ratio] is max(|ltext|, |rtext|)
    except when both texts are empty and the tags are equal, where it is
    1; the score is 1 when both texts are empty and the tags are equal, 0
    when both are empty and the tags differ, and 0 when exactly one text
    is empty. *)
Theorem leaf_ratio_weight_score (dmp : pystr -> pystr -> nat) (l r : tree) :
  fst (leaf_ratio dmp l r) =
    (if bool_decide (both_empty_same_tag l r) then 1
     else max (length (node_text l)) (length (node_text r)))
  /\ (bool_decide (node_text l = [] \/ node_text r = []) = true ->
      snd (leaf_ratio dmp l r) =
        if bool_decide (both_empty_same_tag l r) then 1%Q else 0%Q).
Proof.
  unfold leaf_ratio, both_empty_same_tag.
  destruct (node_text l) as [|a lt] eqn:El, (node_text r) as [|b rt] eqn:Er;
    cbn [length Nat.eqb andb orb].
  - destruct (decide (tag l = tag r)) as [Ht|Ht].
    + rewrite !bool_decide_eq_true_2 by auto. split; auto.
    + rewrite (bool_decide_eq_false_2 (tag l = tag r)) by auto.
      rewrite (bool_decide_eq_false_2 (_ /\ _ /\ _)) by tauto. split; auto.
  - rewrite (bool_decide_eq_false_2 (_ /\ _ /\ _)) by (intros (_ & ? & _); discriminate).
    split; auto.
  - rewrite (bool_decide_eq_false_2 (_ /\ _ /\ _)) by (intros (? & _); discriminate).
    split; auto.
  - rewrite (bool_decide_eq_false_2 (_ /\ _ /\ _)) by (intros (? & _); discriminate).
    rewrite (bool_decide_eq_false_2 (_ \/ _)) by (intros [?|?]; discriminate).
    destruct (diff_wordsToChars _ _) as [[c1 c2] wa]. cbn [fst snd].
    split; [lia | discriminate].
Qed.

Lemma leaf_ratio_weight_score_witness :
  bool_decide (node_text (leaf 0 "p" []) = [] \/ node_text (leaf 1 "q" []) = []) = true
  /\ snd (leaf_ratio dmp_example (leaf 0 "p" []) (leaf 1 "q" [])) = 0%Q.
Proof.
  split; [reflexivity|].
  apply (proj2 (leaf_ratio_weight_score dmp_example (leaf 0 "p" []) (leaf 1 "q" []))).
  reflexivity.
Defined.

(** *** The unique-attribute short-circuit *)

Definition entry_attr (e : uattr) : string :=
  match e with UAttr a => a | UTagAttr _ a => a end.

(** The tag check of the pair form. *)
Definition entry_applies (e : uattr) (l r : tree) : Prop :=
  match e with
  | UAttr _ => True
  | UTagAttr tg _ => tg = tag l /\ tg = tag r
  end.

Definition carried (a : string) (l r : tree) : Prop :=
  is_Some (attrib l !! a) \/ is_Some (attrib r !! a).

(** An entry decides the ratio when it applies and one node carries it. *)
Definition decides (e : uattr) (l r : tree) : Prop :=
  entry_applies e l r /\ carried (entry_attr e) l r.

Definition same_value (a : string) (l r : tree) : Prop :=
  exists v, attrib l !! a = Some v /\ attrib r !! a = Some v.

#[local] Instance entry_applies_dec e l r : Decision (entry_applies e l r).
Proof. destruct e; simpl; apply _. Defined.

#[local] Instance same_value_dec a l r : Decision (same_value a l r).
Proof.
  unfold same_value.
  destruct (attrib l !! a) as [v|] eqn:El, (attrib r !! a) as [w|] eqn:Er.
  - destruct (decide (v = w)) as [->|Hne].
    + left. eauto.
    + right. intros (x & [= <-] & [= <-]). congruence.
  - right. intros (x & _ & ?). discriminate.
  - right. intros (x & ? & _). discriminate.
  - right. intros (x & ? & _). discriminate.
Defined.

Definition cfg_id_name : Differ_config :=
  {| F := 1 # 2; uniqueattrs := [UAttr "id"; UAttr "name"]; fast_match := false |}.

(** C7, as stated, fails for an entry that is not the first to decide:
    with [uniqueattrs = ["id"; "name"]] and two nodes that agree on [id]
    and differ on [name], the entry [name] applies and is carried with
    different values, yet the ratio is 1 (decided by [id]). *)
Lemma node_ratio_unique_counterexample :
  let l := leaf 0 "p" [("id", "1"); ("name", "a")] in
  let r := leaf 1 "p" [("id", "1"); ("name", "b")] in
  UAttr "name" ∈ uniqueattrs cfg_id_name
  /\ decides (UAttr "name") l r
  /\ ~ same_value "name" l r
  /\ node_ratio dmp_example cfg_id_name ∅ l r = 1%Q.
Proof.
  cbn zeta. split; [repeat constructor|].
  split; [split; [exact I | left; vm_compute; eauto]|].
  split; [|reflexivity].
  intros (v & H1 & H2). vm_compute in H1, H2. congruence.
Qed.

Lemma attr_equal_same_value a l r :
  carried a l r ->
  attr_equal a l r = if bool_decide (same_value a l r) then 1%Q else 0%Q.
Proof.
  intros Hc. unfold attr_equal.
  destruct (decide (same_value a l r)) as [(v & Hl & Hr)|Hn].
  - rewrite !bool_decide_eq_true_2; [done| exists v; done | congruence].
  - rewrite !bool_decide_eq_false_2; [done | done |].
    intros Heq. apply Hn. destruct Hc as [[v Hv]|[v Hv]]; exists v; split; congruence.
Qed.

Lemma unique_ratio_skip pre rest l r :
  Forall (fun e => ~ decides e l r) pre ->
  unique_ratio (pre ++ rest) l r = unique_ratio rest l r.
Proof.
  induction 1 as [|e pre He _ IH]; [done|].
  cbn [app unique_ratio]. unfold decides, carried in He.
  destruct e as [a|tg a]; cbn [entry_applies entry_attr] in He.
  - destruct (bool_decide (is_Some (attrib l !! a))) eqn:E1;
      [apply bool_decide_eq_true_1 in E1; tauto|].
    destruct (bool_decide (is_Some (attrib r !! a))) eqn:E2;
      [apply bool_decide_eq_true_1 in E2; tauto|].
    exact IH.
  - destruct (bool_decide (tg <> tag l)) eqn:T1; [exact IH|].
    destruct (bool_decide (tg <> tag r)) eqn:T2; [exact IH|].
    apply bool_decide_eq_false_1 in T1, T2.
    assert (tg = tag l) by (destruct (decide (tg = tag l)); tauto).
    assert (tg = tag r) by (destruct (decide (tg = tag r)); tauto).
    cbn [orb].
    destruct (bool_decide (is_Some (attrib l !! a))) eqn:E1;
      [apply bool_decide_eq_true_1 in E1; tauto|].
    destruct (bool_decide (is_Some (attrib r !! a))) eqn:E2;
      [apply bool_decide_eq_true_1 in E2; tauto|].
    exact IH.
Qed.

Lemma unique_ratio_decides e rest l r :
  decides e l r ->
  unique_ratio (e :: rest) l r = Some (attr_equal (entry_attr e) l r).
Proof.
  intros [Ha Hc]. cbn [unique_ratio].
  assert (bool_decide (is_Some (attrib l !! entry_attr e))
          || bool_decide (is_Some (attrib r !! entry_attr e)) = true) as Hor.
  { apply orb_true_iff. destruct Hc; [left|right]; by apply bool_decide_eq_true_2. }
  destruct e as [a|tg a]; cbn [entry_attr entry_applies] in *.
  - by rewrite Hor.
  - destruct Ha as [H1 H2].
    rewrite (bool_decide_eq_false_2 (tg <> tag l)) by tauto.
    rewrite (bool_decide_eq_false_2 (tg <> tag r)) by tauto.
    cbn [orb]. by rewrite Hor.
Qed.

(** C7 (amended): the first entry of [uniqueattrs], in list order, that
    applies (tag check of the pair form) and whose attribute is carried by
    at least one of the two nodes decides the ratio: [node_ratio] is
    exactly 1 when both nodes carry the attribute with the same value and
    exactly 0 otherwise, whatever the texts and children; entries with a
    tag mismatch, or carried by neither node, are skipped. *)
Theorem node_ratio_unique_first (dmp : pystr -> pystr -> nat) (cfg : Differ_config)
    (l2rmap : gmap nat nat) (l r : tree) (pre post : list uattr) (e : uattr) :
  uniqueattrs cfg = pre ++ e :: post ->
  Forall (fun e' => ~ decides e' l r) pre ->
  decides e l r ->
  node_ratio dmp cfg l2rmap l r =
    if bool_decide (same_value (entry_attr e) l r) then 1%Q else 0%Q.
Proof.
  intros Hcfg Hpre He. unfold node_ratio.
  rewrite Hcfg, (unique_ratio_skip _ _ _ _ Hpre), (unique_ratio_decides _ _ _ _ He).
  apply attr_equal_same_value, He.
Qed.

Lemma node_ratio_unique_first_witness :
  let l := leaf 0 "p" [("id", "1"); ("name", "a")] in
  let r := leaf 1 "p" [("id", "1"); ("name", "b")] in
  node_ratio dmp_example cfg_id_name ∅ l r =
    if bool_decide (same_value "id" l r) then 1%Q else 0%Q.
Proof.
  cbn zeta.
  apply (node_ratio_unique_first dmp_example cfg_id_name ∅ _ _ [] [UAttr "name"] (UAttr "id")).
  - reflexivity.
  - constructor.
  - split; [exact I | left; vm_compute; eauto].
Defined.

(** ** Exceptions *)

(** The Python exceptions the modelled code can raise.  [OutOfModel] marks
    the one behaviour left out of the embedding: with a threshold [F <= 0]
    the matcher registers a pair whose partner is [None]. *)
Inductive exn :=
  IndexError | KeyError | ValueError | TypeError | AttributeError | OutOfModel.

Inductive res (A : Type) : Type :=
| Ok (a : A)
| Raise (e : exn).
Arguments Ok {A} a.
Arguments Raise {A} e.

#[global] Instance res_ret : MRet res := fun _ a => Ok a.
#[global] Instance res_bind : MBind res := fun _ _ f m =>
  match m with Ok a => f a | Raise e => Raise e end.

#[global] Instance res_fmap : FMap res := fun _ _ f m =>
  match m with Ok a => Ok (f a) | Raise e => Raise e end.

Definition is_Ok {A} (m : res A) : Prop := exists a, m = Ok a.

(** [d[k]] on a dictionary. *)
Definition subscript `{Countable K} {V} (d : gmap K V) (k : K) : res V :=
  match d !! k with Some v => Ok v | None => Raise KeyError end.

(** [l[i]] on a list with a Python integer index. *)
Definition py_index {X} (l : list X) (i : Z) : res X :=
  let j := if (i <? 0)%Z then (Z.of_nat (length l) + i)%Z else i in
  if (j <? 0)%Z then Raise IndexError
  else match l !! Z.to_nat j with Some x => Ok x | None => Raise IndexError end.

(** [l.pop(i)]: the list without its [i]-th element. *)
Definition py_pop {X} (l : list X) (i : Z) : res (list X) :=
  let j := if (i <? 0)%Z then (Z.of_nat (length l) + i)%Z else i in
  if (j <? 0)%Z then Raise IndexError
  else if (Z.to_nat j <? length l) then Ok (delete (Z.to_nat j) l)
  else Raise IndexError.

(** [l.insert(pos, x)] for [pos >= 0]: appends when [pos] is too large. *)
Definition py_insert {X} (pos : nat) (x : X) (l : list X) : list X :=
  take pos l ++ x :: drop pos l.

(** ** Trees with identity *)

Fixpoint subtrees (t : tree) : list tree :=
  t :: flat_map subtrees (kids t).

Definition ids (t : tree) : list nat := map nid (subtrees t).

Fixpoint tree_size (t : tree) : nat :=
  S (foldr (fun c acc => tree_size c + acc) 0 (kids t)).

(** The node with identity [i]. *)
Definition find_node (i : nat) (t : tree) : option tree :=
  List.find (fun n => nid n =? i) (subtrees t).

(** [node.getparent()] inside [t]. *)
Definition getparent (i : nat) (t : tree) : option tree :=
  List.find (fun p => existsb (fun c => nid c =? i) (kids p)) (subtrees t).

(** [parent.index(node)] *)
Fixpoint index_of (i : nat) (l : list tree) : option nat :=
  match l with
  | [] => None
  | c :: rest => if nid c =? i then Some 0 else S <$> index_of i rest
  end.

(** [l.remove(node)]: drops the first element that is [node]. *)
Fixpoint remove_first (i : nat) (l : list tree) : list tree :=
  match l with
  | [] => []
  | c :: rest => if nid c =? i then rest else c :: remove_first i rest
  end.

(** [parent.remove(node)]: detaches the node (with its tail) from the tree. *)
Fixpoint remove_node (i : nat) (t : tree) : tree :=
  Node (nid t) (tag t) (attrib t) (text t) (tail t)
       (remove_first i (map (remove_node i) (kids t))).

(** [target.insert(pos, node)] for a detached [node]. *)
Fixpoint insert_node (p pos : nat) (new : tree) (t : tree) : tree :=
  let ks := map (insert_node p pos new) (kids t) in
  Node (nid t) (tag t) (attrib t) (text t) (tail t)
       (if nid t =? p then py_insert pos new ks else ks).

(** In-place update of the node [i]. *)
Fixpoint update_node (i : nat) (f : tree -> tree) (t : tree) : tree :=
  let t' := Node (nid t) (tag t) (attrib t) (text t) (tail t)
                 (map (update_node i f) (kids t)) in
  if nid t =? i then f t' else t'.

Definition set_tag (v : string) (n : tree) : tree :=
  Node (nid n) v (attrib n) (text n) (tail n) (kids n).
Definition set_attrib (a : gmap string string) (n : tree) : tree :=
  Node (nid n) (tag n) a (text n) (tail n) (kids n).
Definition set_text (v : option pystr) (n : tree) : tree :=
  Node (nid n) (tag n) (attrib n) v (tail n) (kids n).
Definition set_tail (v : option pystr) (n : tree) : tree :=
  Node (nid n) (tag n) (attrib n) (text n) v (kids n).

(** [utils.post_order_traverse] *)
Fixpoint post_order_traverse (node : tree) : list tree :=
  flat_map post_order_traverse (kids node) ++ [node].

(** [utils.reverse_post_order_traverse] *)
Fixpoint reverse_post_order_traverse (node : tree) : list tree :=
  concat (rev (map reverse_post_order_traverse (kids node))) ++ [node].

(** [utils.breadth_first_traverse]: the queue loop; every iteration pops
    one node, so a tree of [n] nodes needs [n] iterations. *)
Fixpoint breadth_first_loop (fuel : nat) (queue : list tree) : list tree :=
  match fuel, queue with
  | S fuel', item :: queue' => item :: breadth_first_loop fuel' (queue' ++ kids item)
  | _, _ => []
  end.

Definition breadth_first_traverse (node : tree) : list tree :=
  breadth_first_loop (tree_size node) [node].

(** ** [utils.longest_common_subsequence] (Myers, per-diagonal history) *)

Section LCS.
Context {A B : Type} (eqfn : A -> B -> bool).

(** Both trimming loops advance while the two current items are equal. *)
Fixpoint common_prefix (l : list A) (r : list B) : nat :=
  match l, r with
  | x :: l', y :: r' => if eqfn x y then S (common_prefix l' r') else 0
  | _, _ => 0
  end.

Definition history := list (Z * Z).

(** The inner [while] loop: [ls] is [left[x:]], so that [ls = []] is
    [x >= lmax]; [y = x - k] is a Python integer. *)
Fixpoint snake (start : nat) (right : list B) (k : Z) (ls : list A) (x : nat)
    (h : history) : res (nat * history) :=
  match ls with
  | [] => Ok (x, h)
  | a :: ls' =>
      let y := (Z.of_nat x - k)%Z in
      if (y <? Z.of_nat (length right))%Z then
        b ← py_index right y;
        if eqfn a b
        then snake start right k ls' (S x)
                   (h ++ [(Z.of_nat x + Z.of_nat start, y + Z.of_nat start)%Z])
        else Ok (x, h)
      else Ok (x, h)
  end.

(** One iteration of the loop over [k]: [inl] is the [return]. *)
Definition lcs_step (start : nat) (left : list A) (right : list B) (d : nat)
    (furthest : gmap Z (nat * history)) (k : Z)
  : res (history + gmap Z (nat * history)) :=
  '(x, h) ← (if (k =? - Z.of_nat d)%Z then subscript furthest (k + 1)%Z
             else if negb (k =? Z.of_nat d)%Z then
               a ← subscript furthest (k - 1)%Z;
               b ← subscript furthest (k + 1)%Z;
               if a.1 <? b.1 then Ok b else Ok (S a.1, a.2)
             else
               a ← subscript furthest (k - 1)%Z;
               Ok (S a.1, a.2));
  '(x', h') ← snake start right k (drop x left) x h;
  let y' := (Z.of_nat x' - k)%Z in
  if (length left <=? x') && (Z.of_nat (length right) <=? y')%Z
  then Ok (inl h')
  else Ok (inr (<[k := (x', h')]> furthest)).

Fixpoint lcs_k_loop (start : nat) (left : list A) (right : list B) (d : nat)
    (ks : list Z) (furthest : gmap Z (nat * history))
  : res (history + gmap Z (nat * history)) :=
  match ks with
  | [] => Ok (inr furthest)
  | k :: ks' =>
      r ← lcs_step start left right d furthest k;
      match r with
      | inl h => Ok (inl h)
      | inr furthest' => lcs_k_loop start left right d ks' furthest'
      end
  end.

(** [range(-d, d + 1, 2)] *)
Definition k_range (d : nat) : list Z :=
  map (fun j => (- Z.of_nat d + 2 * Z.of_nat j)%Z) (seq 0 (S d)).

(** The loop over [d]; falling out of it the Python function returns
    [None] implicitly. *)
Fixpoint lcs_d_loop (start : nat) (left : list A) (right : list B)
    (ds : list nat) (furthest : gmap Z (nat * history)) : res (option history) :=
  match ds with
  | [] => Ok None
  | d :: ds' =>
      r ← lcs_k_loop start left right d (k_range d) furthest;
      match r with
      | inl h => Ok (Some h)
      | inr furthest' => lcs_d_loop start left right ds' furthest'
      end
  end.

Definition zrange (a b : nat) : list Z := map Z.of_nat (seq a (b - a)).

Definition longest_common_subsequence (left_sequence : list A)
    (right_sequence : list B) : res (option (list (Z * Z))) :=
  let lslen := length left_sequence in
  let rslen := length right_sequence in
  let start := common_prefix left_sequence right_sequence in
  let trimmed := common_prefix (rev (drop start left_sequence))
                               (rev (drop start right_sequence)) in
  let lend := lslen - trimmed in
  let rend := rslen - trimmed in
  let left := take (lend - start) (drop start left_sequence) in
  let right := take (rend - start) (drop start right_sequence) in
  let lmax := length left in
  let rmax := length right in
  if lmax + rmax =? 0 then
    Ok (Some (map (fun e => (e, e)) (zrange 0 lslen)))
  else
    r ← lcs_d_loop start left right (seq 0 (lmax + rmax + 1)) {[ 1%Z := (0, []) ]};
    match r with
    | Some h => Ok (Some (map (fun e => (e, e)) (zrange 0 start) ++ h
                          ++ zip (zrange lend lslen) (zrange rend rslen)))
    | None => Ok None
    end.

End LCS.

(** A generator result that is [None] cannot be iterated. *)
Definition iterate {X} (r : res (option X)) : res X :=
  o ← r; match o with Some x => Ok x | None => Raise TypeError end.

Example lcs_example :
  longest_common_subsequence Nat.eqb [3; 2; 1] [1; 2; 3] = Ok (Some [(2, 0)%Z]).
Proof. vm_compute. reflexivity. Qed.

Example lcs_example2 :
  longest_common_subsequence Nat.eqb [1; 2; 3; 4; 5] [1; 3; 9; 4; 5]
  = Ok (Some [(0, 0); (2, 1); (3, 3); (4, 4)]%Z).
Proof. vm_compute. reflexivity. Qed.

(** ** [Differ]: state and matching *)

(** The per-run state of a [Differ].  The two dictionaries are keyed by
    [id(node)]; [inorder] holds nodes of both trees, [inl] for the (copied)
    left tree and [inr] for the right tree.  [next_id] is the identity the
    next created element will get. *)
Record Differ := mkDiffer {
  left_tree : tree;
  right_tree : tree;
  matches : list (nat * nat);
  l2rmap : gmap nat nat;
  r2lmap : gmap nat nat;
  inorder : gset (nat + nat);
  next_id : nat }.

(** [set_trees] and the cache initialisation at the start of [match]. *)
Definition set_trees (left right : tree) : Differ :=
  {| left_tree := left; right_tree := right; matches := [];
     l2rmap := ∅; r2lmap := ∅; inorder := ∅;
     next_id := S (list_max (ids left)) |}.

Definition append_match (lnode rnode : nat) (st : Differ) : Differ :=
  {| left_tree := left_tree st; right_tree := right_tree st;
     matches := matches st ++ [(lnode, rnode)];
     l2rmap := <[lnode := rnode]> (l2rmap st);
     r2lmap := <[rnode := lnode]> (r2lmap st);
     inorder := inorder st; next_id := next_id st |}.

(** [list.remove(x)] on the list of pairs. *)
Fixpoint remove_pair (p : nat * nat) (l : list (nat * nat)) : res (list (nat * nat)) :=
  match l with
  | [] => Raise ValueError
  | q :: rest => if bool_decide (q = p) then Ok rest
                 else rest' ← remove_pair p rest; Ok (q :: rest')
  end.

Definition remove_match (lnode rnode : nat) (st : Differ) : res Differ :=
  _ ← subscript (l2rmap st) lnode;
  _ ← subscript (r2lmap st) rnode;
  ms ← remove_pair (lnode, rnode) (matches st);
  Ok {| left_tree := left_tree st; right_tree := right_tree st;
        matches := ms;
        l2rmap := delete lnode (l2rmap st);
        r2lmap := delete rnode (r2lmap st);
        inorder := inorder st; next_id := next_id st |}.

(** The object behind a reference into the left tree. *)
Definition left_node (st : Differ) (i : nat) : res tree :=
  match find_node i (left_tree st) with
  | Some n => Ok n
  | None => Raise OutOfModel
  end.

Definition right_node (st : Differ) (i : nat) : res tree :=
  match find_node i (right_tree st) with
  | Some n => Ok n
  | None => Raise OutOfModel
  end.

Definition Qlt_bool (a b : Q) : bool := negb (Qle_bool b a).

(** The scan for the best candidate, shared by the greedy pass and the
    top-down pass: [max_match] and [match_node] are the loop variables,
    and a ratio of exactly 1 breaks out of the loop. *)
Fixpoint best_match (ratio : tree -> Q) (candidates : list tree)
    (max_match : Q) (match_node : option tree) : Q * option tree :=
  match candidates with
  | [] => (max_match, match_node)
  | node :: rest =>
      let m := ratio node in
      let best := if Qlt_bool max_match m then (m, Some node)
                  else (max_match, match_node) in
      if Qeq_bool m 1 then best else best_match ratio rest best.1 best.2
  end.

Section Matching.

Variable dmp_levenshtein : pystr -> pystr -> nat.
Variable cfg : Differ_config.

Definition ratio_of (st : Differ) (l r : tree) : Q :=
  node_ratio dmp_levenshtein cfg (l2rmap st) l r.

(** [for left_match, right_match in matches: self.append_match(...)] *)
Fixpoint register_matches (lnodes rnodes : list tree) (ms : list (Z * Z))
    (st : Differ) : res Differ :=
  match ms with
  | [] => Ok st
  | (left_match, right_match) :: rest =>
      l ← py_index lnodes left_match;
      r ← py_index rnodes right_match;
      register_matches lnodes rnodes rest (append_match (nid l) (nid r) st)
  end.

(** [for left_match, right_match in reversed(matches): pop, pop] *)
Fixpoint pop_matches (rev_ms : list (Z * Z)) (lnodes rnodes : list tree)
  : res (list tree * list tree) :=
  match rev_ms with
  | [] => Ok (lnodes, rnodes)
  | (left_match, right_match) :: rest =>
      lnodes' ← py_pop lnodes left_match;
      rnodes' ← py_pop rnodes right_match;
      pop_matches rest lnodes' rnodes'
  end.

Definition fast_match_pass (lnodes rnodes : list tree) (st : Differ)
  : res (Differ * list tree * list tree) :=
  ms ← iterate (longest_common_subsequence
                  (fun x y => Qle_bool (F cfg) (ratio_of st x y)) lnodes rnodes);
  st' ← register_matches lnodes rnodes ms st;
  '(lnodes', rnodes') ← pop_matches (rev ms) lnodes rnodes;
  Ok (st', lnodes', rnodes').

(** [for lnode in lnodes: ...] of [match]. *)
Fixpoint greedy_pass (lnodes rnodes : list tree) (st : Differ) : res Differ :=
  match lnodes with
  | [] => Ok st
  | lnode :: rest =>
      let '(max_match, match_node) :=
        best_match (ratio_of st lnode) rnodes 0%Q None in
      if Qle_bool (F cfg) max_match then
        match match_node with
        | Some m =>
            greedy_pass rest (remove_first (nid m) rnodes)
                        (append_match (nid lnode) (nid m) st)
        | None => Raise OutOfModel
        end
      else greedy_pass rest rnodes st
  end.

(** The pruning loop of the top-down pass over [list(rchilds)]. *)
Fixpoint prune_matched (st : Differ) (snapshot : list tree)
    (lchilds rchilds : list tree) : list tree * list tree :=
  match snapshot with
  | [] => (lchilds, rchilds)
  | rchild :: rest =>
      match r2lmap st !! nid rchild with
      | Some l =>
          if existsb (fun c => nid c =? l) lchilds
          then prune_matched st rest (remove_first l lchilds)
                             (remove_first (nid rchild) rchilds)
          else prune_matched st rest lchilds rchilds
      | None => prune_matched st rest lchilds rchilds
      end
  end.

(** [for rchild in rchilds: ...] of the top-down pass. *)
Fixpoint rematch_children (lchilds rchilds : list tree) (st : Differ) : res Differ :=
  match rchilds with
  | [] => Ok st
  | rchild :: rest =>
      let '(max_match, match_node) :=
        best_match (fun lchild => ratio_of st lchild rchild) lchilds 0%Q None in
      if Qle_bool (F cfg) max_match then
        match match_node with
        | Some m =>
            st1 ← match r2lmap st !! nid rchild with
                  | Some l => remove_match l (nid rchild) st
                  | None => Ok st
                  end;
            st2 ← match l2rmap st1 !! nid m with
                  | Some r => remove_match (nid m) r st1
                  | None => Ok st1
                  end;
            rematch_children lchilds rest (append_match (nid m) (nid rchild) st2)
        | None => Raise OutOfModel
        end
      else rematch_children lchilds rest st
  end.

(** [for rnode in utils.breadth_first_traverse(self.right): ...] *)
Fixpoint top_down_pass (r_nodes : list tree) (st : Differ) : res Differ :=
  match r_nodes with
  | [] => Ok st
  | r_node :: rest =>
      match r2lmap st !! nid r_node, kids r_node with
      | Some l, _ :: _ =>
          lnode ← left_node st l;
          let '(lchilds, rchilds) :=
            prune_matched st (kids r_node) (kids lnode) (kids r_node) in
          st' ← rematch_children lchilds rchilds st;
          top_down_pass rest st'
      | _, _ => top_down_pass rest st
      end
  end.

(** [Differ.match] on freshly set trees. *)
Definition match_ (left right : tree) : res Differ :=
  let st := set_trees left right in
  let lnodes := remove_first (nid left) (post_order_traverse left) in
  let rnodes := remove_first (nid right) (post_order_traverse right) in
  '(st, lnodes, rnodes) ←
     (if fast_match cfg then fast_match_pass lnodes rnodes st
      else Ok (st, lnodes, rnodes));
  st ← greedy_pass lnodes rnodes st;
  st ← top_down_pass (breadth_first_traverse right) st;
  Ok (append_match (nid left) (nid right) st).

End Matching.

(** ** [Differ]: the edit-script generator *)

(** Modelled from the spec: the module [actions] is not among the sources;
    the spec (data model, "Edit action") lists the kinds and their fields. *)
Inductive action :=
| InsertNode (target tg : string) (position : nat)
| DeleteNode (node : string)
| MoveNode (node target : string) (position : nat)
| RenameNode (node tg : string)
| UpdateTextIn (node : string) (txt : option pystr)
| UpdateTextAfter (node : string) (txt : option pystr)
| InsertAttrib (node name value : string)
| DeleteAttrib (node name : string)
| UpdateAttrib (node name value : string).

(** The positional predicate libxml2 prints for a step: none when no
    sibling has the same name, else the 1-based rank among them. *)
Definition step_index (before after : list tree) (n : tree) : string :=
  let same := fun c => String.eqb (tag c) (tag n) in
  let occur := length (filter (fun c => same c = true) before) in
  if (0 <? occur) || existsb same after
  then "[" +:+ pretty (S occur) +:+ "]"
  else "".

(** [tree.getpath(element)] of lxml. *)
Fixpoint lxml_getpath (i : nat) (before after : list tree) (t : tree)
  : option string :=
  let step := "/" +:+ tag t +:+ step_index before after t in
  if nid t =? i then Some step
  else
    (fix go (before ks : list tree) : option string :=
       match ks with
       | [] => None
       | c :: rest =>
           match lxml_getpath i before rest c with
           | Some p => Some (step +:+ p)
           | None => go (before ++ [c]) rest
           end
       end) [] (kids t).

Definition ends_with_bracket (s : string) : bool :=
  match rev (list_ascii_of_string s) with
  | c :: _ => Ascii.eqb c "]"
  | [] => false
  end.

(** [utils.getpath(element, tree)] *)
Definition getpath (i : nat) (t : tree) : res string :=
  match lxml_getpath i [] [] t with
  | Some xpath => Ok (if ends_with_bracket xpath then xpath else xpath +:+ "[1]")
  | None => Raise ValueError
  end.

(** [child not in self._l2rmap] inside [find_pos]: the dictionary is keyed
    by the integers [id(node)], while [child] is an element object, which
    never equals an integer key; the membership test is always false. *)
Definition element_in_idmap (child : tree) (m : gmap nat nat) : bool := false.

(** The counting loop of [find_pos]. *)
Fixpoint count_position (st : Differ) (node_match : option nat)
    (sibling_match : nat) (children : list tree) (i : nat) : nat :=
  match children with
  | [] => i
  | child :: rest =>
      if bool_decide (Some (nid child) = node_match)
      then count_position st node_match sibling_match rest i
      else
        let i' := if bool_decide (inl (nid child) ∈ inorder st)
                     || negb (element_in_idmap child (l2rmap st))
                  then S i else i in
        if nid child =? sibling_match then i'
        else count_position st node_match sibling_match rest i'
  end.

Definition raise_if_none {X} (e : exn) (o : option X) : res X :=
  match o with Some x => Ok x | None => Raise e end.

(** [Differ.find_pos(node)] for a node of the right tree. *)
Definition find_pos (st : Differ) (node : tree) : res nat :=
  parent ← raise_if_none AttributeError (getparent (nid node) (right_tree st));
  i ← raise_if_none ValueError (index_of (nid node) (kids parent));
  match List.find (fun s => bool_decide (inr (nid s) ∈ inorder st))
                  (rev (take i (kids parent))) with
  | None => Ok 0
  | Some sibling =>
      sibling_match ← subscript (r2lmap st) (nid sibling);
      let node_match := r2lmap st !! nid node in
      lparent ← raise_if_none AttributeError (getparent sibling_match (left_tree st));
      Ok (count_position st node_match sibling_match (kids lparent) 0)
  end.

Definition with_left (t : tree) (st : Differ) : Differ :=
  {| left_tree := t; right_tree := right_tree st; matches := matches st;
     l2rmap := l2rmap st; r2lmap := r2lmap st; inorder := inorder st;
     next_id := next_id st |}.

Definition mark_inorder (l r : nat) (st : Differ) : Differ :=
  {| left_tree := left_tree st; right_tree := right_tree st; matches := matches st;
     l2rmap := l2rmap st; r2lmap := r2lmap st;
     inorder := {[inl l; inr r]} ∪ inorder st;
     next_id := next_id st |}.

(** [parent.remove(node); target.insert(pos, node)] *)
Definition move_node (i target pos : nat) (t : tree) : res tree :=
  node ← raise_if_none ValueError (find_node i t);
  _ ← raise_if_none AttributeError (getparent i t);
  let t' := remove_node i t in
  _ ← raise_if_none ValueError (find_node target t');
  Ok (insert_node target pos node t').

(** [sorted(keys)] *)
Definition string_le (a b : string) : Prop := String.leb a b = true.
#[global] Instance string_le_dec a b : Decision (string_le a b).
Proof. unfold string_le. apply _. Defined.
Definition sorted_keys (s : gset string) : list string :=
  merge_sort string_le (elements s).

Definition update_node_tag (l : nat) (right : tree) (st : Differ)
  : res (list action * Differ) :=
  left ← left_node st l;
  if bool_decide (tag left <> tag right) then
    left_xpath ← getpath l (left_tree st);
    Ok ([RenameNode left_xpath (tag right)],
        with_left (update_node l (set_tag (tag right)) (left_tree st)) st)
  else Ok ([], st).

(** The three loops of [update_node_attr], on the attribute dictionary. *)
Fixpoint update_common (xp : string) (keys : list string)
    (la ra : gmap string string) : list action * gmap string string :=
  match keys with
  | [] => ([], la)
  | key :: rest =>
      match ra !! key with
      | Some v =>
          if bool_decide (la !! key <> Some v) then
            let '(acts, la') := update_common xp rest (<[key := v]> la) ra in
            (UpdateAttrib xp key v :: acts, la')
          else update_common xp rest la ra
      | None => update_common xp rest la ra
      end
  end.

Fixpoint insert_new (xp : string) (keys : list string)
    (la ra : gmap string string) : list action * gmap string string :=
  match keys with
  | [] => ([], la)
  | key :: rest =>
      match ra !! key with
      | Some v =>
          let '(acts, la') := insert_new xp rest (<[key := v]> la) ra in
          (InsertAttrib xp key v :: acts, la')
      | None => insert_new xp rest la ra
      end
  end.

Fixpoint delete_removed (xp : string) (keys : list string)
    (la : gmap string string) : list action * gmap string string :=
  match keys with
  | [] => ([], la)
  | key :: rest =>
      match la !! key with
      | Some _ =>
          let '(acts, la') := delete_removed xp rest (delete key la) in
          (DeleteAttrib xp key :: acts, la')
      | None => delete_removed xp rest la
      end
  end.

Definition update_node_attr (l : nat) (right : tree) (st : Differ)
  : res (list action * Differ) :=
  left ← left_node st l;
  left_xpath ← getpath l (left_tree st);
  let left_keys := dom (attrib left) in
  let right_keys := dom (attrib right) in
  let new_keys := right_keys ∖ left_keys in
  let removed_keys := left_keys ∖ right_keys in
  let common_keys := left_keys ∩ right_keys in
  let '(a1, la1) := update_common left_xpath (sorted_keys common_keys)
                                  (attrib left) (attrib right) in
  let '(a2, la2) := insert_new left_xpath (sorted_keys new_keys) la1 (attrib right) in
  let '(a3, la3) := delete_removed left_xpath (sorted_keys removed_keys) la2 in
  Ok (a1 ++ a2 ++ a3,
      with_left (update_node l (set_attrib la3) (left_tree st)) st).

Definition update_node_text (l : nat) (right : tree) (st : Differ)
  : res (list action * Differ) :=
  left ← left_node st l;
  left_xpath ← getpath l (left_tree st);
  let '(a1, st1) :=
    if bool_decide (text left <> text right)
    then ([UpdateTextIn left_xpath (text right)],
          with_left (update_node l (set_text (text right)) (left_tree st)) st)
    else ([], st) in
  let '(a2, st2) :=
    if bool_decide (tail left <> tail right)
    then ([UpdateTextAfter left_xpath (tail right)],
          with_left (update_node l (set_tail (tail right)) (left_tree st1)) st1)
    else ([], st1) in
  Ok (a1 ++ a2, st2).

(** [x.getparent() is y] for an optional parent [x.getparent()]. *)
Definition parent_is (i : nat) (t : tree) (p : nat) : bool :=
  match getparent i t with
  | Some q => nid q =? p
  | None => false
  end.

(** [for x, y in lcs: self._inorder.add(...)] *)
Fixpoint mark_lcs (lchildren rchildren : list tree) (lcs : list (Z * Z))
    (st : Differ) : res Differ :=
  match lcs with
  | [] => Ok st
  | (x, y) :: rest =>
      lc ← py_index lchildren x;
      rc ← py_index rchildren y;
      mark_lcs lchildren rchildren rest (mark_inorder (nid lc) (nid rc) st)
  end.

(** [for lchild in lchildren: ...] of [align_children]. *)
Fixpoint move_unaligned (l : nat) (lchildren : list tree) (st : Differ)
  : res (list action * Differ) :=
  match lchildren with
  | [] => Ok ([], st)
  | lchild :: rest =>
      if bool_decide (inl (nid lchild) ∈ inorder st) then move_unaligned l rest st
      else
        r ← subscript (l2rmap st) (nid lchild);
        rchild ← right_node st r;
        right_pos ← find_pos st rchild;
        rtarget ← raise_if_none KeyError (getparent r (right_tree st));
        ltarget ← subscript (r2lmap st) (nid rtarget);
        p1 ← getpath (nid lchild) (left_tree st);
        p2 ← getpath ltarget (left_tree st);
        _ ← (if parent_is (nid lchild) (left_tree st) l then Ok ()
             else Raise ValueError);
        t ← move_node (nid lchild) ltarget right_pos (left_tree st);
        let st' := mark_inorder (nid lchild) r (with_left t st) in
        '(acts, st'') ← move_unaligned l rest st';
        Ok (MoveNode p1 p2 right_pos :: acts, st'')
  end.

(** [Differ.align_children(left, right)]; the children kept in
    [lchildren] are keys of [_l2rmap], so the subscript in the equality
    passed to the LCS cannot fail. *)
Definition align_children (l : nat) (right : tree) (st : Differ)
  : res (list action * Differ) :=
  left ← left_node st l;
  let lchildren :=
    List.filter (fun c => match l2rmap st !! nid c with
                          | Some r => parent_is r (right_tree st) (nid right)
                          | None => false
                          end) (kids left) in
  let rchildren :=
    List.filter (fun c => match r2lmap st !! nid c with
                          | Some l' => parent_is l' (left_tree st) l
                          | None => false
                          end) (kids right) in
  match lchildren, rchildren with
  | [], _ | _, [] => Ok ([], st)
  | _, _ =>
      lcs ← iterate (longest_common_subsequence
                       (fun x y => bool_decide (l2rmap st !! nid x = Some (nid y)))
                       lchildren rchildren);
      st' ← mark_lcs lchildren rchildren lcs st;
      move_unaligned l lchildren st'
  end.

Definition makeelement (i : nat) (tg : string) : tree := Node i tg ∅ None None [].

Definition bump_id (st : Differ) : Differ :=
  {| left_tree := left_tree st; right_tree := right_tree st; matches := matches st;
     l2rmap := l2rmap st; r2lmap := r2lmap st; inorder := inorder st;
     next_id := S (next_id st) |}.

(** The body of the loop of [diff] over the right tree. *)
Definition diff_step (r_node : tree) (st : Differ) : res (list action * Differ) :=
  let rparent := getparent (nid r_node) (right_tree st) in
  let ltarget := rparent ≫= fun p => r2lmap st !! nid p in
  '(a1, l, st) ←
    match r2lmap st !! nid r_node with
    | None =>
        pos ← find_pos st r_node;
        lt ← raise_if_none TypeError ltarget;
        xp ← getpath lt (left_tree st);
        let l := next_id st in
        let st := append_match l (nid r_node) (bump_id st) in
        let st := with_left (insert_node lt pos (makeelement l (tag r_node))
                                         (left_tree st)) st in
        let st := mark_inorder l (nid r_node) st in
        '(a, st) ← update_node_attr l r_node st;
        Ok (InsertNode xp (tag r_node) pos :: a, l, st)
    | Some l =>
        let lparent := nid <$> getparent l (left_tree st) in
        '(a_move, st) ←
          (if bool_decide (ltarget <> lparent) then
             pos ← find_pos st r_node;
             p1 ← getpath l (left_tree st);
             lt ← raise_if_none TypeError ltarget;
             p2 ← getpath lt (left_tree st);
             t ← move_node l lt pos (left_tree st);
             Ok ([MoveNode p1 p2 pos], mark_inorder l (nid r_node) (with_left t st))
           else Ok ([], st));
        '(a_tag, st) ← update_node_tag l r_node st;
        '(a_attr, st) ← update_node_attr l r_node st;
        Ok (a_move ++ a_tag ++ a_attr, l, st)
    end;
  '(a2, st) ← align_children l r_node st;
  l ← subscript (r2lmap st) (nid r_node);
  '(a3, st) ← update_node_text l r_node st;
  Ok (a1 ++ a2 ++ a3, st).

Fixpoint diff_loop (r_nodes : list tree) (st : Differ) : res (list action * Differ) :=
  match r_nodes with
  | [] => Ok ([], st)
  | r_node :: rest =>
      '(a, st') ← diff_step r_node st;
      '(b, st'') ← diff_loop rest st';
      Ok (a ++ b, st'')
  end.

(** The final loop of [diff]: the generator walks the left tree as it is
    when the loop starts; a node is only detached after its whole subtree
    has been visited, so the visiting order is that of the tree at the
    start, while paths are taken in the tree as mutated so far. *)
Fixpoint delete_loop (lnodes : list nat) (st : Differ) : res (list action * Differ) :=
  match lnodes with
  | [] => Ok ([], st)
  | l :: rest =>
      match l2rmap st !! l with
      | Some _ => delete_loop rest st
      | None =>
          xp ← getpath l (left_tree st);
          _ ← raise_if_none AttributeError (getparent l (left_tree st));
          '(acts, st') ← delete_loop rest (with_left (remove_node l (left_tree st)) st);
          Ok (DeleteNode xp :: acts, st')
      end
  end.

Section Diff.

Variable dmp_levenshtein : pystr -> pystr -> nat.
Variable cfg : Differ_config.

(** [list(Differ.diff(left, right))]: the drained script and the state
    the generator leaves behind ([left_tree] is the mutated copy). *)
Definition diff (left right : tree) : res (list action * Differ) :=
  st ← match_ dmp_levenshtein cfg left right;
  '(a, st) ← diff_loop (breadth_first_traverse (right_tree st)) st;
  '(b, st) ← delete_loop (map nid (reverse_post_order_traverse (left_tree st))) st;
  Ok (a ++ b, st).

End Diff.

(** The script of a run. *)
Definition script (r : res (list action * Differ)) : res (list action) :=
  match r with Ok (a, _) => Ok a | Raise e => Raise e end.

(** The mutated left copy a run leaves behind. *)
Definition result_tree (r : res (list action * Differ)) : res tree :=
  match r with Ok (_, st) => Ok (left_tree st) | Raise e => Raise e end.

Definition empty_elem (i : nat) (tg : string) (ks : list tree) : tree :=
  Node i tg ∅ None None ks.

Definition cfg_default : Differ_config :=
  {| F := 1 # 2; uniqueattrs := []; fast_match := false |}.

Definition cfg_fast : Differ_config :=
  {| F := 1 # 2; uniqueattrs := []; fast_match := true |}.

(** *** [find_pos] *)

(** [find_pos] as the specification and the comment in the source
    describe it: a left sibling is counted when it is in order or
    unmatched. *)
Fixpoint count_position_documented (st : Differ) (node_match : option nat)
    (sibling_match : nat) (children : list tree) (i : nat) : nat :=
  match children with
  | [] => i
  | child :: rest =>
      if bool_decide (Some (nid child) = node_match)
      then count_position_documented st node_match sibling_match rest i
      else
        let i' := if bool_decide (inl (nid child) ∈ inorder st)
                     || bool_decide (l2rmap st !! nid child = None)
                  then S i else i in
        if nid child =? sibling_match then i'
        else count_position_documented st node_match sibling_match rest i'
  end.

Definition find_pos_documented (st : Differ) (node : tree) : res nat :=
  parent ← raise_if_none AttributeError (getparent (nid node) (right_tree st));
  i ← raise_if_none ValueError (index_of (nid node) (kids parent));
  match List.find (fun s => bool_decide (inr (nid s) ∈ inorder st))
                  (rev (take i (kids parent))) with
  | None => Ok 0
  | Some sibling =>
      sibling_match ← subscript (r2lmap st) (nid sibling);
      let node_match := r2lmap st !! nid node in
      lparent ← raise_if_none AttributeError (getparent sibling_match (left_tree st));
      Ok (count_position_documented st node_match sibling_match (kids lparent) 0)
  end.

(** <root><c/><b/><a/></root> against <root><a/><b/><c/></root>. *)
Definition cba : tree :=
  empty_elem 0 "root" [empty_elem 1 "c" []; empty_elem 2 "b" []; empty_elem 3 "a" []].
Definition abc : tree :=
  empty_elem 0 "root" [empty_elem 1 "a" []; empty_elem 2 "b" []; empty_elem 3 "c" []].

(** C5: on the trees [cba] and [abc] the matcher pairs the equal tags and
    the alignment of the root's children marks the pair of [a] in order;
    [find_pos] is then asked for the position of [c].  The left siblings
    are [c] (the partner, skipped), [b] (matched, not in order) and [a]
    (in order): the source answers 2, counting [b], where the documented
    rule answers 1. *)
Lemma find_pos_counts_unaligned_sibling :
  exists st0,
    match_ dmp_example cfg_default cba abc = Ok st0
    /\ l2rmap st0 !! 2 = Some 2
    /\ mark_lcs (kids cba) (kids abc) [(2, 0)%Z] st0 = Ok (mark_inorder 3 1 st0)
    /\ find_pos (mark_inorder 3 1 st0) (empty_elem 3 "c" []) = Ok 2
    /\ find_pos_documented (mark_inorder 3 1 st0) (empty_elem 3 "c" []) = Ok 1.
Proof.
  eexists. split; [vm_compute; reflexivity|].
  repeat split; vm_compute; reflexivity.
Qed.

(** The same run seen from outside: the first move goes to position 2. *)
Lemma diff_cba_abc :
  script (diff dmp_example cfg_default cba abc)
  = Ok [MoveNode "/root/c[1]" "/root[1]" 2; MoveNode "/root/b[1]" "/root[1]" 1].
Proof. vm_compute. reflexivity. Qed.

(** *** [diff(T, T)] with the fast match *)

(** <root><p><a/><b/></p><p/><p><a/><b/></p></root> *)
Definition pap : tree :=
  empty_elem 0 "root"
    [empty_elem 1 "p" [empty_elem 2 "a" []; empty_elem 3 "b" []];
     empty_elem 4 "p" [];
     empty_elem 5 "p" [empty_elem 6 "a" []; empty_elem 7 "b" []]].

(** C3, as stated, fails when the LCS pre-pass is enabled: during the
    pre-pass no pair is registered yet, so a node with children does not
    reach the threshold against its own copy (1/3 here) but does against
    the childless [p] (1/2); the pre-pass pairs the second [p] with the
    first, and the script of [diff(T, T)] has three moves. *)
Lemma diff_same_tree_fast_match_counterexample :
  script (diff dmp_example cfg_fast pap pap)
  = Ok [MoveNode "/root/p[1]" "/root[1]" 1;
        MoveNode "/root/p[2]/a[1]" "/root/p[1]" 0;
        MoveNode "/root/p[2]/b[1]" "/root/p[1]" 1].
Proof. vm_compute. reflexivity. Qed.

(** ** [placeholder.py]: the placeholder codec *)

Definition PLACEHOLDER_START : N := 57344.   (* 0xE000 *)

Inductive ttype := T_OPEN | T_CLOSE | T_SINGLE.
#[global] Instance ttype_eq_dec : EqDecision ttype.
Proof. solve_decision. Defined.

Record PlaceholderEntry := mkEntry {
  element : tree;
  entry_ttype : ttype;
  close_ph : option N }.

(** The exception of a recursion that exceeds the fuel of the embedding. *)
Definition OutOfFuel : exn := OutOfModel.

Section Codec.

(** [etree.canonicalize] belongs to lxml: the canonical serialisation is a
    parameter, with values in any type with decidable equality. *)
Context {K : Type} `{EqDecision K} (canonicalize : tree -> K).

(** A [PlaceholderMaker]; [html] tells the subclass [HTMLPlaceholderMaker],
    whose three tag classes are empty in the base class. *)
Record PlaceholderMaker := mkMaker {
  html : bool;
  text_tags : list string;
  formatting_tags : list string;
  single_formatting_tags : list string;
  dual_formatting_tags : list string;
  complex_formatting_tags : list string;
  placeholder2tag : gmap N PlaceholderEntry;
  tag2placeholder : list (K * ttype * option N * N);
  placeholder : N;
  diff_tags_insert : N * N;
  diff_tags_delete : N * N }.

Definition with_tables (m : PlaceholderMaker) (p2t : gmap N PlaceholderEntry)
    (t2p : list (K * ttype * option N * N)) (counter : N) : PlaceholderMaker :=
  {| html := html m; text_tags := text_tags m; formatting_tags := formatting_tags m;
     single_formatting_tags := single_formatting_tags m;
     dual_formatting_tags := dual_formatting_tags m;
     complex_formatting_tags := complex_formatting_tags m;
     placeholder2tag := p2t; tag2placeholder := t2p; placeholder := counter;
     diff_tags_insert := diff_tags_insert m; diff_tags_delete := diff_tags_delete m |}.

(** [self.tag2placeholder.get(key)] *)
Fixpoint lookup_tag (key : K * ttype * option N)
    (t2p : list (K * ttype * option N * N)) : option N :=
  match t2p with
  | [] => None
  | (k, ph) :: rest => if decide (k = key) then Some ph else lookup_tag key rest
  end.

Definition clear_text_tail (e : tree) : tree :=
  Node (nid e) (tag e) (attrib e) None None (kids e).

(** [chr(i)] raises [ValueError] above U+10FFFF. *)
Definition chr (i : N) : res N :=
  if (i <=? 1114111)%N then Ok i else Raise ValueError.

Definition get_placeholder (elem : tree) (tt : ttype) (close : option N)
    (m : PlaceholderMaker) : res (N * PlaceholderMaker) :=
  let tg := canonicalize elem in
  match lookup_tag (tg, tt, close) (tag2placeholder m) with
  | Some ph => Ok (ph, m)
  | None =>
      let counter := (placeholder m + 1)%N in
      ph ← chr counter;
      Ok (ph, with_tables m
                (<[ph := mkEntry (clear_text_tail elem) tt close]> (placeholder2tag m))
                ((tg, tt, close, ph) :: tag2placeholder m)
                counter)
  end.

(** [get_both_placeholders]; the closing placeholder of a single tag is
    the empty string, hence a string is returned for it. *)
Definition get_both_placeholders (elem : tree) (m : PlaceholderMaker)
  : res (N * pystr * PlaceholderMaker) :=
  if html m && bool_decide (tag elem ∈ single_formatting_tags m) then
    '(ph_single, m) ← get_placeholder elem T_SINGLE None m;
    Ok (ph_single, [], m)
  else if html m && bool_decide (tag elem ∈ dual_formatting_tags m) then
    let e := Node 0 (tag elem) ∅ None None [] in
    '(ph_close, m) ← get_placeholder e T_CLOSE None m;
    '(ph_open, m) ← get_placeholder e T_OPEN (Some ph_close) m;
    Ok (ph_open, [ph_close], m)
  else
    '(ph_close, m) ← get_placeholder elem T_CLOSE None m;
    '(ph_open, m) ← get_placeholder elem T_OPEN (Some ph_close) m;
    Ok (ph_open, [ph_close], m).

Definition DIFF_NS : string := "http://namespaces.shoobx.com/diff".
Definition diff_name (action : string) : string := "{" +:+ DIFF_NS +:+ "}" +:+ action.
Definition INSERT_NAME := diff_name "insert".
Definition DELETE_NAME := diff_name "delete".
Definition RENAME_NAME := diff_name "rename".
Definition MOVE_NAME := diff_name "move".

Definition empty_maker (is_html : bool) (tt ft sft dft cft : list string)
  : PlaceholderMaker :=
  mkMaker is_html tt ft sft dft cft ∅ [] PLACEHOLDER_START (0, 0)%N (0, 0)%N.

(** [PlaceholderMaker.__init__]: the two pairs for inserted and deleted
    text are allocated first and kept in [diff_tags] as (open, close). *)
Definition init_maker (m : PlaceholderMaker) : res PlaceholderMaker :=
  let insert_elem := Node 0 INSERT_NAME ∅ None None [] in
  '(insert_close, m) ← get_placeholder insert_elem T_CLOSE None m;
  '(insert_open, m) ← get_placeholder insert_elem T_OPEN (Some insert_close) m;
  let delete_elem := Node 0 DELETE_NAME ∅ None None [] in
  '(delete_close, m) ← get_placeholder delete_elem T_CLOSE None m;
  '(delete_open, m) ← get_placeholder delete_elem T_OPEN (Some delete_close) m;
  Ok {| html := html m; text_tags := text_tags m; formatting_tags := formatting_tags m;
        single_formatting_tags := single_formatting_tags m;
        dual_formatting_tags := dual_formatting_tags m;
        complex_formatting_tags := complex_formatting_tags m;
        placeholder2tag := placeholder2tag m; tag2placeholder := tag2placeholder m;
        placeholder := placeholder m;
        diff_tags_insert := (insert_open, insert_close);
        diff_tags_delete := (delete_open, delete_close) |}.

Definition new_PlaceholderMaker (tt ft : list string) : res PlaceholderMaker :=
  init_maker (empty_maker false tt ft [] [] []).

(** [for tag in self.dual_formatting_tags: get_both_placeholders(Element(tag))] *)
Fixpoint preallocate (tags : list string) (m : PlaceholderMaker)
  : res PlaceholderMaker :=
  match tags with
  | [] => Ok m
  | tg :: rest =>
      '(_, _, m) ← get_both_placeholders (Node 0 tg ∅ None None []) m;
      preallocate rest m
  end.

(** [HTMLPlaceholderMaker.__init__] *)
Definition new_HTMLPlaceholderMaker (sft dft cft tt : list string)
  : res PlaceholderMaker :=
  m ← init_maker (empty_maker true tt (sft ++ dft ++ cft) sft dft cft);
  preallocate dft m.

(** [get_modified_ph] *)
Definition get_modified_ph (ph : N) (action : string) (m : PlaceholderMaker)
  : res (N * PlaceholderMaker) :=
  entry ← subscript (placeholder2tag m) ph;
  let elem := set_attrib (<[diff_name action := ""%string]> (attrib (element entry)))
                         (element entry) in
  match entry_ttype entry with
  | T_SINGLE => get_placeholder elem T_SINGLE None m
  | T_CLOSE => get_placeholder elem T_CLOSE None m
  | T_OPEN =>
      '(ph_close, m) ← get_placeholder elem T_CLOSE None m;
      get_placeholder elem T_OPEN (Some ph_close) m
  end.

(** [is_placeholder] on a string. *)
Definition is_placeholder (m : PlaceholderMaker) (s : pystr) : bool :=
  match s with
  | [c] => bool_decide (is_Some (placeholder2tag m !! c))
  | _ => false
  end.

Definition is_formatting (m : PlaceholderMaker) (e : tree) : bool :=
  bool_decide (tag e ∈ formatting_tags m).

Definition append_tail (s : pystr) (c : tree) : tree :=
  set_tail (Some (or_empty (tail c) ++ s)) c.

(** The loop of [do_element] over the children: it keeps the element
    text and the children that stay ([kept], most recent first, whose
    head is [previous_child]); [encode] is the recursive call. *)
Fixpoint do_children (encode : PlaceholderMaker -> tree -> res (PlaceholderMaker * tree))
    (m : PlaceholderMaker) (children : list tree)
    (txt : option pystr) (kept : list tree) {struct children}
  : res (PlaceholderMaker * option pystr * list tree) :=
  match children with
  | [] => Ok (m, txt, rev kept)
  | child :: rest =>
      if is_formatting m child then
        '(m, child') ← encode m child;
        let tl := or_empty (tail child') in
        '(ph_open, ph_close, m) ← get_both_placeholders child' m;
        let piece := ph_open :: or_empty (text child') ++ ph_close ++ tl in
        match kept with
        | previous_child :: kept' =>
            do_children encode m rest txt (append_tail piece previous_child :: kept')
        | [] => do_children encode m rest (Some (or_empty txt ++ piece)) []
        end
      else do_children encode m rest txt (child :: kept)
  end.

Fixpoint do_element (m : PlaceholderMaker) (e : tree) {struct e}
  : res (PlaceholderMaker * tree) :=
  '(m, txt, ks) ← do_children do_element m (kids e) (text e) [];
  Ok (m, Node (nid e) (tag e) (attrib e) txt (tail e) ks).

(** [do_tree]: [reversed(tree.xpath("//t1|//t2..."))] lists the elements
    with a text tag in reverse document order, so the children of a node
    are visited from the last to the first, each before the node itself;
    [do_element] is applied in place to every element of the list. *)
Fixpoint do_tree_children (encode : PlaceholderMaker -> tree -> res (PlaceholderMaker * tree))
    (children : list tree) (m : PlaceholderMaker) {struct children}
  : res (PlaceholderMaker * list tree) :=
  match children with
  | [] => Ok (m, [])
  | child :: rest =>
      '(m, rest') ← do_tree_children encode rest m;
      '(m, child') ← encode m child;
      Ok (m, child' :: rest')
  end.

Fixpoint do_tree (m : PlaceholderMaker) (e : tree) {struct e}
  : res (PlaceholderMaker * tree) :=
  '(m, ks) ← do_tree_children do_tree (kids e) m;
  let e' := Node (nid e) (tag e) (attrib e) (text e) (tail e) ks in
  if bool_decide (tag e ∈ text_tags m) then do_element m e' else Ok (m, e').

(** [split_string]: [re.split] with the capturing class of all
    placeholders; text runs (possibly empty) alternate with placeholders. *)
Fixpoint split_loop (isph : N -> bool) (text : pystr) (cur : pystr) : list pystr :=
  match text with
  | [] => [rev cur]
  | c :: rest =>
      if isph c then rev cur :: [c] :: split_loop isph rest []
      else split_loop isph rest (c :: cur)
  end.

Definition split_string (m : PlaceholderMaker) (text : pystr) : list pystr :=
  split_loop (fun c => bool_decide (is_Some (placeholder2tag m !! c))) text [].

(** The state of the sweep of [undo_string]: between elements, or inside
    the inner [while] loop that collects the text of an open element. *)
Inductive sweep_mode :=
| Outside
| Inside (seg : pystr) (entry : PlaceholderEntry) (new_text : pystr) (nested : Z).

Definition set_last_tail (seg : pystr) (children : list tree) : list tree :=
  match rev children with
  | last :: before =>
      rev before ++ [match tail last with
                     | Some (_ :: _) => last
                     | _ => set_tail (Some seg) last
                     end]
  | [] => children
  end.

Section Sweep.

(** The recursive call [self.undo_element(element)] on an element that has
    no parent yet. *)
Variable undo_detached : tree -> res tree.
Variable m : PlaceholderMaker.

(** [result] is the wrapper element: its text and its children so far. *)
Fixpoint sweep (segments : list pystr) (mode : sweep_mode)
    (rtext : option pystr) (children : list tree) : res (option pystr * list tree) :=
  match segments, mode with
  | [], Outside => Ok (rtext, children)
  | [], Inside _ _ _ _ => Raise IndexError
  | seg :: rest, Outside =>
      match seg with
      | [] => sweep rest Outside rtext children
      | _ =>
          if is_placeholder m seg then
            match seg with
            | [c] =>
                entry ← subscript (placeholder2tag m) c;
                match entry_ttype entry with
                | T_OPEN => sweep rest (Inside seg entry [] 0%Z) rtext children
                | T_SINGLE => sweep rest Outside rtext (children ++ [element entry])
                | T_CLOSE => sweep rest Outside rtext children
                end
            | _ => Raise KeyError
            end
          else
            match children with
            | [] =>
                sweep rest Outside
                      (match rtext with Some (_ :: _) => rtext | _ => Some seg end) []
            | _ => sweep rest Outside rtext (set_last_tail seg children)
            end
      end
  | next_seg :: rest, Inside seg entry new_text nested =>
      if bool_decide (Some next_seg = (fun c => [c]) <$> close_ph entry)
         && (nested =? 0)%Z
      then
        elem ← undo_detached (set_text (Some new_text) (element entry));
        sweep rest Outside rtext (children ++ [elem])
      else
        let nested' :=
          if bool_decide (next_seg = seg) then (nested + 1)%Z
          else if bool_decide (Some next_seg = (fun c => [c]) <$> close_ph entry)
               then (nested - 1)%Z else nested in
        sweep rest (Inside seg entry (new_text ++ next_seg) nested') rtext children
  end.

End Sweep.

Definition wrap (txt : option pystr) (children : list tree) : tree :=
  Node 0 "wrap" ∅ txt None children.

(** [for child in content: self.undo_element(child); target.insert(...)];
    what the call inserts after [child] inside [content] is skipped by the
    iterator and stays behind. *)
Fixpoint undo_children (undo : tree -> res (tree * list tree)) (children : list tree)
  : res (list tree) :=
  match children with
  | [] => Ok []
  | child :: rest =>
      '(child', _) ← undo child;
      rest' ← undo_children undo rest;
      Ok (child' :: rest')
  end.

(** [for child in elem: self.undo_element(child)]: what a call inserts
    after [child] is not visited by the loop. *)
Fixpoint undo_each (undo : tree -> res (tree * list tree)) (children : list tree)
  : res (list tree) :=
  match children with
  | [] => Ok []
  | child :: rest =>
      '(child', siblings) ← undo child;
      rest' ← undo_each undo rest;
      Ok (child' :: siblings ++ rest')
  end.

Definition truthy (s : option pystr) : bool :=
  match s with Some (_ :: _) => true | _ => false end.

(** [undo_element(elem)]: the decoded element and the elements inserted
    after it in its parent.  [has_parent] tells whether [elem.getparent()]
    is an element.  The mutual recursion with [undo_string] is bounded by
    [fuel]. *)
Fixpoint undo_element (fuel : nat) (m : PlaceholderMaker) (has_parent : bool)
    (elem : tree) {struct fuel} : res (tree * list tree) :=
  match fuel with
  | 0 => Raise OutOfFuel
  | S fuel' =>
      let undo_string := fun (text : pystr) =>
        sweep (fun e => fst <$> undo_element fuel' m false e) m
              (split_string m text) Outside None [] in
      if bool_decide (placeholder2tag m = ∅) then Ok (elem, [])
      else
        '(txt, front) ←
          (if truthy (text elem) then
             '(ctext, cchildren) ← undo_string (or_empty (text elem));
             if bool_decide (text elem <> ctext) then
               front ← undo_children (undo_element fuel' m true) cchildren;
               Ok (ctext, front)
             else Ok (text elem, [])
           else Ok (text elem, []));
        ks ← undo_each (undo_element fuel' m true) (front ++ kids elem);
        '(tl, siblings) ←
          (if truthy (tail elem) then
             '(ctext, cchildren) ← undo_string (or_empty (tail elem));
             if bool_decide (tail elem <> ctext) then
               if has_parent then
                 siblings ← undo_children (undo_element fuel' m true) cchildren;
                 Ok (ctext, siblings)
               else Raise AttributeError
             else Ok (tail elem, [])
           else Ok (tail elem, []));
        Ok (Node (nid elem) (tag elem) (attrib elem) txt tl ks, siblings)
  end.

(** [undo_string(text)]: the wrapper element. *)
Definition undo_string (fuel : nat) (m : PlaceholderMaker) (text : pystr) : res tree :=
  '(txt, children) ←
    sweep (fun e => fst <$> undo_element fuel m false e) m
          (split_string m text) Outside None [];
  Ok (wrap txt children).

Definition undo_tree (fuel : nat) (m : PlaceholderMaker) (t : tree) : res tree :=
  fst <$> undo_element fuel m false t.

End Codec.

(** ** Structural equality *)

(** Induction over trees with the hypothesis available for every child. *)
Lemma tree_ind_kids (P : tree -> Prop) :
  (forall i tg a tx tl ks, Forall P ks -> P (Node i tg a tx tl ks)) ->
  forall t, P t.
Proof.
  intros H. fix IH 1. intros [i tg a tx tl ks]. apply H.
  induction ks as [|k ks IHks]; constructor; [apply IH | exact IHks].
Qed.

(** Equality of trees is decided by a boolean comparison. *)
Fixpoint tree_eqb (a b : tree) : bool :=
  (nid a =? nid b) && bool_decide (tag a = tag b)
  && bool_decide (attrib a = attrib b)
  && bool_decide (text a = text b) && bool_decide (tail a = tail b)
  && (fix go (l1 l2 : list tree) : bool :=
        match l1, l2 with
        | [], [] => true
        | x :: l1', y :: l2' => tree_eqb x y && go l1' l2'
        | _, _ => false
        end) (kids a) (kids b).

Lemma tree_eqb_spec (a b : tree) : tree_eqb a b = true <-> a = b.
Proof.
  revert b. induction a as [i1 t1 a1 x1 l1 k1 IH] using tree_ind_kids.
  intros [i2 t2 a2 x2 l2 k2]. cbn [tree_eqb nid tag attrib text tail kids].
  rewrite !andb_true_iff, Nat.eqb_eq, !bool_decide_eq_true.
  assert ((fix go (l1 l2 : list tree) : bool :=
             match l1, l2 with
             | [], [] => true
             | x :: l1', y :: l2' => tree_eqb x y && go l1' l2'
             | _, _ => false
             end) k1 k2 = true <-> k1 = k2) as ->.
  { revert k2. induction IH as [|c1 k1 Hc _ IHk]; intros [|c2 k2];
      [tauto | split; discriminate | split; discriminate |].
    rewrite andb_true_iff, Hc, IHk. split; [intros [-> ->]; done | intros [= -> ->]; done]. }
  split; [intros [[[[[-> ->] ->] ->] ->] ->]; done | intros [= -> -> -> -> -> ->]; done].
Qed.

#[global] Instance tree_eq_dec : EqDecision tree := fun a b =>
  match tree_eqb a b as r return tree_eqb a b = r -> {a = b} + {a <> b} with
  | true => fun E => left (proj1 (tree_eqb_spec a b) E)
  | false => fun E => right (fun Heq =>
      eq_ind true (fun r => tree_eqb a b = r -> False)
             (fun E' => Bool.diff_true_false (eq_trans (eq_sym E') E))
             true eq_refl (proj2 (tree_eqb_spec a b) Heq))
  end eq_refl.

Definition norm_text (s : option pystr) : option pystr :=
  match s with Some [] => None | _ => s end.

(** The content of a tree: identities are forgotten and an empty string
    is not told from a missing one (as in the serialised document). *)
Fixpoint erase (t : tree) : tree :=
  Node 0 (tag t) (attrib t) (norm_text (text t)) (norm_text (tail t))
       (map erase (kids t)).

(** The identities alone are forgotten. *)
Fixpoint erase_ids (t : tree) : tree :=
  Node 0 (tag t) (attrib t) (text t) (tail t) (map erase_ids (kids t)).

(** A stand-in for the canonical serialisation in closed examples: the
    content of the element, its own tail left out. *)
Definition canonical_form (e : tree) : tree :=
  erase (set_tail None e).

(** ** Decoding an unbalanced string *)

Section Unbalanced.
Context {K : Type}.
Implicit Types m : PlaceholderMaker (K := K).

Lemma elem_of_rev {X} (x : X) (l : list X) : x ∈ rev l <-> x ∈ l.
Proof. rewrite !list_elem_of_In. symmetry. apply in_rev. Qed.

Lemma split_loop_app isph (plain : pystr) c rest cur :
  Forall (fun x => isph x = false) plain -> isph c = true ->
  split_loop isph (plain ++ c :: rest) cur
  = rev (rev plain ++ cur) :: [c] :: split_loop isph rest [].
Proof.
  intros Hplain Hc. revert cur.
  induction Hplain as [|x plain Hx _ IH]; intros cur; cbn [app split_loop].
  - by rewrite Hc.
  - rewrite Hx, IH. cbn [rev]. by rewrite <- app_assoc.
Qed.

Lemma split_loop_chars isph text cur seg x :
  seg ∈ split_loop isph text cur -> x ∈ seg -> x ∈ text \/ x ∈ cur.
Proof.
  revert cur. induction text as [|c text IH]; intros cur; cbn [split_loop].
  - intros ->%list_elem_of_singleton Hx. right. by apply elem_of_rev.
  - destruct (isph c).
    + rewrite !elem_of_cons. intros [->|[->|Hin]] Hx.
      * right. by apply elem_of_rev.
      * apply list_elem_of_singleton in Hx as ->. left. by left.
      * destruct (IH _ Hin Hx) as [?|Hnil]; [left; by right|].
        by apply elem_of_nil in Hnil.
    + intros Hin Hx. destruct (IH _ Hin Hx) as [?|[->|?]%elem_of_cons]; auto.
      * left; by right.
      * left; by left.
Qed.

Lemma sweep_inside_exhausted undo m segments seg entry new_text nested rtext children :
  (forall c, close_ph entry = Some c -> [c] ∉ segments) ->
  sweep undo m segments (Inside seg entry new_text nested) rtext children
  = Raise IndexError.
Proof.
  revert new_text nested. induction segments as [|s segments IH]; intros new_text nested Hc.
  - reflexivity.
  - cbn [sweep].
    assert (bool_decide (Some s = (fun c => [c]) <$> close_ph entry) = false) as ->.
    { apply bool_decide_eq_false_2. destruct (close_ph entry) as [c|] eqn:E; [|done].
      cbn. intros [= ->]. apply (Hc c eq_refl). by left. }
    cbn [andb]. apply IH. intros c E Hin. apply (Hc c E). by right.
Qed.

(** C10: an [Open] placeholder whose [Close] placeholder does not occur in
    the rest of the string makes [undo_string] raise [IndexError] (the
    [pop] on the exhausted list of segments), whatever text precedes the
    [Open] and whatever follows it; no wrapper element is returned. *)
Theorem undo_string_unbalanced_raises m (fuel : nat) (plain rest : pystr)
    (o : N) (entry : PlaceholderEntry) :
  Forall (fun x => placeholder2tag m !! x = None) plain ->
  placeholder2tag m !! o = Some entry ->
  entry_ttype entry = T_OPEN ->
  (forall c, close_ph entry = Some c -> c ∉ rest) ->
  undo_string fuel m (plain ++ o :: rest) = Raise IndexError.
Proof.
  intros Hplain Ho Hopen Hclose. unfold undo_string, split_string.
  rewrite split_loop_app; cycle 1.
  { eapply Forall_impl; [exact Hplain|]. intros x Hx. cbn.
    apply bool_decide_eq_false_2. rewrite Hx. by intros [? ?]. }
  { apply bool_decide_eq_true_2. by eexists. }
  rewrite app_nil_r, rev_involutive.
  assert (forall rtext,
    sweep (fun e => fst <$> undo_element fuel m false e) m
          ([o] :: split_loop (fun c => bool_decide (is_Some (placeholder2tag m !! c))) rest [])
          Outside rtext [] = Raise IndexError) as Hopen_seg.
  { intros rtext. cbn [sweep is_placeholder].
    rewrite bool_decide_eq_true_2 by (by eexists).
    unfold subscript. rewrite Ho. cbn. rewrite Hopen.
    apply sweep_inside_exhausted. intros c Hc Hin.
    apply (Hclose c Hc).
    destruct (split_loop_chars _ _ _ _ c Hin) as [?|Hnil]; [by left | done |].
    by apply elem_of_nil in Hnil. }
  destruct plain as [|p plain].
  - change (sweep ?u m ([] :: ?r) Outside None []) with (sweep u m r Outside None []).
    rewrite Hopen_seg. reflexivity.
  - assert (is_placeholder m (p :: plain) = false) as Hp.
    { destruct plain; [|reflexivity]. cbn.
      apply bool_decide_eq_false_2. apply Forall_cons in Hplain as [Hp _].
      rewrite Hp. by intros [? ?]. }
    change (sweep ?u m ((p :: plain) :: ?r) Outside None [])
      with (if is_placeholder m (p :: plain)
            then match p :: plain with
                 | [c] =>
                     entry ← subscript (placeholder2tag m) c;
                     match entry_ttype entry with
                     | T_OPEN => sweep u m r (Inside (p :: plain) entry [] 0%Z) None []
                     | T_SINGLE => sweep u m r Outside None ([] ++ [element entry])
                     | T_CLOSE => sweep u m r Outside None []
                     end
                 | _ => Raise KeyError
                 end
            else sweep u m r Outside (Some (p :: plain)) []).
    rewrite Hp, Hopen_seg. reflexivity.
Qed.

End Unbalanced.

(** The string "a", the [Open] placeholder of inserted text (U+E002), "bc";
    the matching [Close] placeholder U+E001 never comes. *)
Lemma undo_string_unbalanced_raises_witness :
  exists m, new_PlaceholderMaker canonical_form ["p"] ["b"] = Ok m
    /\ undo_string 1 m ([97; 57346; 98; 99]%N) = Raise IndexError.
Proof.
  destruct (new_PlaceholderMaker canonical_form ["p"] ["b"]) as [m|] eqn:E;
    [|vm_compute in E; discriminate].
  exists m. split; [reflexivity|].
  assert (placeholder2tag m !! 57346%N
          = Some (mkEntry (Node 0 INSERT_NAME ∅ None None []) T_OPEN (Some 57345%N))) as Ho.
  { vm_compute in E. injection E as <-. reflexivity. }
  assert (placeholder2tag m !! 97%N = None) as Ha.
  { vm_compute in E. injection E as <-. reflexivity. }
  eapply (undo_string_unbalanced_raises m 1 [97%N] [98; 99]%N 57346%N).
  - repeat constructor. exact Ha.
  - exact Ho.
  - reflexivity.
  - intros c [= <-]. intros Hin. apply elem_of_cons in Hin as [?|Hin]; [discriminate|].
    apply elem_of_cons in Hin as [?|Hin]; [discriminate|]. by apply elem_of_nil in Hin.
Defined.

(** ** [formatting.py]: resolving an XPath ([XMLFormatter._xpath]) *)

Local Open Scope string_scope.

(** [s.split(sep, 1)] when [sep] occurs in [s]. *)
Fixpoint split_once (sep : ascii) (s : string) : option (string * string) :=
  match s with
  | EmptyString => None
  | String c s' =>
      if Ascii.eqb c sep then Some ("", s')
      else match split_once sep s' with
           | Some (a, b) => Some (String c a, b)
           | None => None
           end
  end.

(** [s.split(sep)] *)
Fixpoint split_all (sep : ascii) (s : string) : list string :=
  match s with
  | EmptyString => [""]
  | String c s' =>
      if Ascii.eqb c sep then "" :: split_all sep s'
      else match split_all sep s' with
           | a :: rest => String c a :: rest
           | [] => [String c ""]
           end
  end.

(** [s[:-1]] *)
Fixpoint drop_last (s : string) : string :=
  match s with
  | EmptyString => ""
  | String c EmptyString => ""
  | String c s' => String c (drop_last s')
  end.

Definition digit_value (c : ascii) : option Z :=
  let n := nat_of_ascii c in
  if (48 <=? n)%nat && (n <=? 57)%nat then Some (Z.of_nat (n - 48)) else None.

Fixpoint parse_digits (s : string) (acc : Z) : option Z :=
  match s with
  | EmptyString => Some acc
  | String c s' =>
      match digit_value c with
      | Some d => parse_digits s' (10 * acc + d)%Z
      | None => None
      end
  end.

Definition blank_or_underscore (c : ascii) : bool :=
  let n := nat_of_ascii c in
  (n =? 32)%nat || ((9 <=? n)%nat && (n <=? 13)%nat) || (n =? 95)%nat.

Fixpoint string_exists (p : ascii -> bool) (s : string) : bool :=
  match s with
  | EmptyString => false
  | String c s' => p c || string_exists p s'
  end.

(** [int(s)] for a decimal literal with an optional sign.  The literals
    with blanks or underscores, which [int] also reads, are left out of
    the embedding; anything else raises [ValueError]. *)
Definition parse_int (s : string) : res Z :=
  let unsigned := fun (t : string) =>
    match t with
    | EmptyString => None
    | _ => parse_digits t 0
    end in
  let r := match s with
           | String c t =>
               if Ascii.eqb c "-" then Z.opp <$> unsigned t
               else if Ascii.eqb c "+" then unsigned t
               else unsigned s
           | EmptyString => None
           end in
  match r with
  | Some z => Ok z
  | None => if string_exists blank_or_underscore s then Raise OutOfModel
            else Raise ValueError
  end.

(** The element names the embedding resolves: a letter or underscore
    followed by letters, digits, [-], [_] or [.]. *)
Definition name_start (c : ascii) : bool :=
  let n := nat_of_ascii c in
  ((65 <=? n)%nat && (n <=? 90)%nat) || ((97 <=? n)%nat && (n <=? 122)%nat)
  || (n =? 95)%nat.

Definition name_char (c : ascii) : bool :=
  let n := nat_of_ascii c in
  name_start c || ((48 <=? n)%nat && (n <=? 57)%nat) || (n =? 45)%nat || (n =? 46)%nat.

Fixpoint string_forall (p : ascii -> bool) (s : string) : bool :=
  match s with
  | EmptyString => true
  | String c s' => p c && string_forall p s'
  end.

Definition is_name (s : string) : bool :=
  match s with
  | EmptyString => false
  | String c s' => name_start c && string_forall name_char s'
  end.

Definition name_test (name : string) (n : tree) : bool :=
  String.eqb name "*" || String.eqb (tag n) name.

(** [node.xpath(path)] of lxml for the paths [_xpath] builds from a step:
    a name test on the children of [node], or, with a leading slash, on
    the root element of the document.  Other XPath expressions are left
    out of the embedding. *)
Definition lxml_xpath (doc node : tree) (path : string) : res (list tree) :=
  let '(absolute, name) :=
    match path with
    | String c name => if Ascii.eqb c "/" then (true, name) else (false, path)
    | EmptyString => (false, path)
    end in
  if is_name name || String.eqb name "*"
  then Ok (List.filter (name_test name) (if absolute then [doc] else kids node))
  else Raise OutOfModel.

Definition string_contains (c : ascii) (s : string) : bool :=
  string_exists (Ascii.eqb c) s.

(** [if xpath[0] == "/": root = True; xpath = xpath[1:]] *)
Definition strip_root (xpath : string) : res (bool * string) :=
  match xpath with
  | EmptyString => Raise IndexError
  | String c rest => if Ascii.eqb c "/" then Ok (true, rest) else Ok (false, xpath)
  end.

(** [path, rest = xpath.split("/", 1)], or the whole path and [""]. *)
Definition split_path (xpath : string) : string * string :=
  match split_once "/" xpath with
  | Some (path, rest) => (path, rest)
  | None => (xpath, "")
  end.

(** The name, the 0-based index and the flag [multiple] of a step. *)
Definition parse_predicate (path : string) : res (string * Z * bool) :=
  if string_contains "[" path then
    match split_all "[" (drop_last path) with
    | [path; index] =>
        i ← parse_int index;
        Ok (path, (i - 1)%Z, false)
    | _ => Raise ValueError
    end
  else Ok (path, 0%Z, true).

(** [XMLFormatter._xpath(node, xpath)]; [doc] is the root of the tree
    that holds [node].  The recursion is on the rest of the path, which
    gets shorter: [fuel] bounds its length. *)
Fixpoint _xpath (fuel : nat) (doc node : tree) (xpath : string) : res tree :=
  match fuel with
  | 0%nat => Raise OutOfFuel
  | S fuel' =>
      '(root, xpath) ← strip_root xpath;
      let '(path, rest) := split_path xpath in
      '(path, index, multiple) ← parse_predicate path;
      let path := if (root : bool) then "/" +:+ path else path in
      found ← lxml_xpath doc node path;
      let matches :=
        List.filter (fun n => bool_decide (attrib n !! DELETE_NAME = None)) found in
      if (Z.of_nat (length matches) <=? index)%Z then Raise ValueError
      else if (1 <? length matches)%nat && multiple then Raise ValueError
      else
        mtch ← py_index matches index;
        match rest with
        | EmptyString => Ok mtch
        | _ => _xpath fuel' doc mtch rest
        end
  end.

Local Close Scope string_scope.

(** *** Paths and what they address *)

Local Open Scope string_scope.

Inductive digit := D0 | D1 | D2 | D3 | D4 | D5 | D6 | D7 | D8 | D9.

Definition digit_char (d : digit) : ascii :=
  match d with
  | D0 => "0" | D1 => "1" | D2 => "2" | D3 => "3" | D4 => "4"
  | D5 => "5" | D6 => "6" | D7 => "7" | D8 => "8" | D9 => "9"
  end%char.

Definition digit_num (d : digit) : Z :=
  match d with
  | D0 => 0 | D1 => 1 | D2 => 2 | D3 => 3 | D4 => 4
  | D5 => 5 | D6 => 6 | D7 => 7 | D8 => 8 | D9 => 9
  end%Z.

Definition numeral (ds : list digit) : string :=
  foldr (fun d s => String (digit_char d) s) "" ds.

Definition numeral_value (ds : list digit) : Z :=
  foldl (fun acc d => (10 * acc + digit_num d)%Z) 0%Z ds.

(** A step of a path: a name test and an optional 1-based position. *)
Record step := mkStep { step_name : string; step_position : option (list digit) }.

Definition step_wf (s : step) : Prop :=
  (is_name (step_name s) = true \/ step_name s = "*")
  /\ match step_position s with
     | Some ds => ds <> [] /\ (1 <= numeral_value ds)%Z
     | None => True
     end.

Definition step_string (s : step) : string :=
  step_name s +:+ match step_position s with
                  | Some ds => "[" +:+ numeral ds +:+ "]"
                  | None => ""
                  end.

(** The rest of a path after its first step. *)
Fixpoint rest_string (steps : list step) : string :=
  match steps with
  | [] => ""
  | s :: rest => "/" +:+ step_string s +:+ rest_string rest
  end.

Definition path_string (steps : list step) : string := rest_string steps.

(** What the specification says of a path (error handling design):
    [PathNotFound] when a step has no match, [AmbiguousPath] when a step
    without a position has several. *)
Inductive outcome := Found (n : tree) | PathNotFound | AmbiguousPath.

(** The nodes a step can select: those with the name that do not carry
    the [diff:delete] marker. *)
Definition candidates (name : string) (context : list tree) : list tree :=
  filter (fun n => (name = "*" \/ tag n = name) /\ attrib n !! DELETE_NAME = None) context.

Definition select (cands : list tree) (index : option (list digit)) : outcome :=
  match index with
  | Some ds =>
      if (1 <=? numeral_value ds)%Z then
        match cands !! Z.to_nat (numeral_value ds - 1) with
        | Some n => Found n
        | None => PathNotFound
        end
      else PathNotFound
  | None =>
      match cands with
      | [] => PathNotFound
      | [n] => Found n
      | _ => AmbiguousPath
      end
  end.

(** The node a path addresses, step by step from the document. *)
Fixpoint addressed (context : list tree) (steps : list step) : outcome :=
  match steps with
  | [] => PathNotFound
  | s :: rest =>
      match select (candidates (step_name s) context) (step_position s), rest with
      | Found n, _ :: _ => addressed (kids n) rest
      | o, _ => o
      end
  end.

Local Close Scope string_scope.

(** *** [_xpath] resolves exactly the addressed node *)

Section XPath.
Local Open Scope string_scope.

Lemma append_cons c (a b : string) : String c a +:+ b = String c (a +:+ b).
Proof. reflexivity. Qed.

Lemma append_nil (b : string) : "" +:+ b = b.
Proof. reflexivity. Qed.

Lemma string_exists_app p a b :
  string_exists p (a +:+ b) = string_exists p a || string_exists p b.
Proof.
  induction a as [|c a IH]; rewrite ?append_cons, ?append_nil; cbn; [done|].
  by rewrite IH, orb_assoc.
Qed.

Lemma split_once_app sep a b :
  string_contains sep a = false ->
  split_once sep (a +:+ String sep b) = Some (a, b).
Proof.
  unfold string_contains.
  induction a as [|c a IH]; rewrite ?append_cons, ?append_nil; cbn.
  - intros _. by rewrite Ascii.eqb_refl.
  - intros [Hc Ha]%orb_false_iff. rewrite Ascii.eqb_sym, Hc, (IH Ha). done.
Qed.

Lemma split_once_none sep a :
  string_contains sep a = false -> split_once sep a = None.
Proof.
  unfold string_contains. induction a as [|c a IH]; cbn; [done|].
  intros [Hc Ha]%orb_false_iff. by rewrite Ascii.eqb_sym, Hc, (IH Ha).
Qed.

Lemma split_all_none sep a :
  string_contains sep a = false -> split_all sep a = [a].
Proof.
  unfold string_contains. induction a as [|c a IH]; cbn; [done|].
  intros [Hc Ha]%orb_false_iff. by rewrite Ascii.eqb_sym, Hc, (IH Ha).
Qed.

Lemma split_all_app sep a b :
  string_contains sep a = false ->
  split_all sep (a +:+ String sep b) = a :: split_all sep b.
Proof.
  unfold string_contains.
  induction a as [|c a IH]; rewrite ?append_cons, ?append_nil; cbn.
  - intros _. by rewrite Ascii.eqb_refl.
  - intros [Hc Ha]%orb_false_iff. by rewrite Ascii.eqb_sym, Hc, (IH Ha).
Qed.

Lemma drop_last_snoc s c : drop_last (s +:+ String c "") = s.
Proof.
  induction s as [|x s IH]; [done|]. rewrite append_cons.
  change (drop_last (String x (s +:+ String c "")))
    with (match s +:+ String c "" with
          | "" => ""
          | _ => String x (drop_last (s +:+ String c ""))
          end).
  rewrite IH. destruct s; by rewrite ?append_cons, ?append_nil.
Qed.

Lemma append_assoc (a b c : string) : (a +:+ b) +:+ c = a +:+ (b +:+ c).
Proof.
  induction a as [|x a IH]; rewrite ?append_cons, ?append_nil; [done|]. by rewrite IH.
Qed.

Lemma name_chars_clean (c : ascii) (s : string) :
  (forall x, name_char x = true -> Ascii.eqb c x = false) ->
  string_forall name_char s = true -> string_contains c s = false.
Proof.
  intros Hc. unfold string_contains. induction s as [|x s IH]; cbn; [done|].
  intros [Hx Hs]%andb_true_iff. by rewrite (Hc x Hx), (IH Hs).
Qed.

Lemma name_char_not (c : ascii) :
  name_char c = false -> forall x, name_char x = true -> Ascii.eqb c x = false.
Proof.
  intros Hc x Hx. destruct (Ascii.eqb_spec c x) as [->|]; [congruence|done].
Qed.

Lemma name_start_char c : name_start c = true -> name_char c = true.
Proof. unfold name_char. by intros ->. Qed.

Lemma step_name_clean (c : ascii) (name : string) :
  name_char c = false -> c <> "*"%char ->
  is_name name = true \/ name = "*" -> string_contains c name = false.
Proof.
  intros Hc Hstar [Hn| ->].
  - destruct name as [|x name]; [done|]. cbn in Hn.
    apply andb_true_iff in Hn as [Hx Hn].
    apply (name_chars_clean c); [by apply name_char_not|].
    cbn. by rewrite (name_start_char _ Hx), Hn.
  - cbn. destruct (Ascii.eqb_spec c "*"); [done|reflexivity].
Qed.

Lemma numeral_clean (c : ascii) ds :
  digit_value c = None -> string_contains c (numeral ds) = false.
Proof.
  intros Hc. unfold string_contains.
  induction ds as [|d ds IH]; [done|].
  change (numeral (d :: ds)) with (String (digit_char d) (numeral ds)).
  cbn [string_exists]. rewrite IH, orb_false_r.
  destruct (Ascii.eqb_spec c (digit_char d)) as [->|]; [|done].
  by destruct d.
Qed.

Lemma parse_digits_numeral ds acc :
  parse_digits (numeral ds) acc
  = Some (foldl (fun acc d => (10 * acc + digit_num d)%Z) acc ds).
Proof.
  revert acc. induction ds as [|d ds IH]; intros acc.
  - done.
  - change (numeral (d :: ds)) with (String (digit_char d) (numeral ds)).
    cbn [foldl parse_digits].
    assert (digit_value (digit_char d) = Some (digit_num d)) as -> by (by destruct d).
    apply IH.
Qed.

Lemma parse_int_numeral ds :
  ds <> [] -> parse_int (numeral ds) = Ok (numeral_value ds).
Proof.
  intros Hne. destruct ds as [|d ds]; [done|].
  unfold parse_int, numeral_value.
  pose proof (parse_digits_numeral (d :: ds) 0%Z) as Hp.
  change (numeral (d :: ds)) with (String (digit_char d) (numeral ds)) in *.
  cbv beta iota.
  assert (Ascii.eqb (digit_char d) "-" = false) as -> by (by destruct d).
  assert (Ascii.eqb (digit_char d) "+" = false) as -> by (by destruct d).
  by rewrite Hp.
Qed.

Definition to_res (o : outcome) : res tree :=
  match o with Found n => Ok n | _ => Raise ValueError end.

Lemma name_test_spec name n :
  name_test name n = true <-> name = "*" \/ tag n = name.
Proof.
  unfold name_test. rewrite orb_true_iff.
  destruct (String.eqb_spec name "*"), (String.eqb_spec (tag n) name); intuition congruence.
Qed.

Lemma candidates_filter name context :
  List.filter (fun n => bool_decide (attrib n !! DELETE_NAME = None))
              (List.filter (name_test name) context)
  = candidates name context.
Proof.
  unfold candidates. induction context as [|n context IH]; [done|].
  cbn [List.filter]. rewrite filter_cons.
  destruct (name_test name n) eqn:E1.
  - apply name_test_spec in E1. cbn [List.filter].
    destruct (decide (attrib n !! DELETE_NAME = None)) as [Hd|Hd].
    + rewrite (bool_decide_eq_true_2 _ Hd), decide_True by done. by rewrite IH.
    + rewrite (bool_decide_eq_false_2 _ Hd), decide_False by tauto. done.
  - rewrite decide_False; [done|]. intros [Hn _]. apply name_test_spec in Hn. congruence.
Qed.

Lemma py_index_nonneg {X} (l : list X) (i : Z) :
  (0 <= i)%Z ->
  py_index l i = match l !! Z.to_nat i with
                 | Some x => Ok x
                 | None => Raise IndexError
                 end.
Proof.
  intros Hi. unfold py_index.
  destruct (Z.ltb_spec i 0) as [|_]; [lia|].
  destruct (Z.ltb_spec i 0) as [|_]; [lia|]. done.
Qed.

(** The branch of [_xpath] after the path is parsed. *)
Lemma select_index cands ds :
  (1 <= numeral_value ds)%Z ->
  (if (Z.of_nat (length cands) <=? numeral_value ds - 1)%Z then Raise ValueError
   else py_index cands (numeral_value ds - 1)%Z)
  = to_res (select cands (Some ds)).
Proof.
  intros Hk. cbn [select]. rewrite (proj2 (Z.leb_le _ _) Hk).
  rewrite py_index_nonneg by lia.
  destruct (Z.leb_spec (Z.of_nat (length cands)) (numeral_value ds - 1)) as [Hle|Hlt].
  - rewrite (lookup_ge_None_2 cands) by lia. done.
  - destruct (cands !! Z.to_nat (numeral_value ds - 1)) as [n|] eqn:E; [done|].
    apply lookup_ge_None_1 in E. lia.
Qed.

Lemma select_single cands :
  (if (Z.of_nat (length cands) <=? 0)%Z then Raise ValueError
   else if (1 <? length cands)%nat && true then Raise ValueError
        else py_index cands 0%Z)
  = to_res (select cands None).
Proof. by destruct cands as [|n [|n' cands]]. Qed.

Lemma step_string_no_slash s :
  step_wf s -> string_contains "/" (step_string s) = false.
Proof.
  intros [Hn Hi]. unfold step_string, string_contains.
  rewrite string_exists_app.
  fold (string_contains "/" (step_name s)). rewrite (step_name_clean "/"); [|done|done|done].
  destruct (step_position s) as [ds|]; [|done].
  rewrite append_cons, append_nil. cbn [string_exists orb].
  rewrite string_exists_app. fold (string_contains "/" (numeral ds)).
  by rewrite numeral_clean.
Qed.

Lemma step_string_head s t :
  step_wf s ->
  exists c r, step_string s +:+ t = String c r /\ Ascii.eqb c "/" = false.
Proof.
  intros [Hn _]. unfold step_string.
  destruct (step_name s) as [|c name] eqn:E.
  - destruct Hn as [Hn|Hn]; discriminate.
  - exists c. eexists. rewrite !append_cons. split; [reflexivity|].
    destruct Hn as [Hn|[= -> _]]; [|done]. cbn in Hn.
    destruct (Ascii.eqb_spec c "/") as [->|]; [discriminate|done].
Qed.

End XPath.

Section XPathResolution.
Local Open Scope string_scope.

Lemma append_nil_r (a : string) : a +:+ "" = a.
Proof. induction a as [|c a IH]; [done|]. by rewrite append_cons, IH. Qed.

Lemma parse_predicate_step s :
  step_wf s ->
  parse_predicate (step_string s)
  = Ok (step_name s,
        match step_position s with Some ds => (numeral_value ds - 1)%Z | None => 0%Z end,
        match step_position s with Some _ => false | None => true end).
Proof.
  intros [Hn Hi]. unfold parse_predicate, step_string.
  pose proof (step_name_clean "[" (step_name s) eq_refl ltac:(done) Hn) as Hclean.
  destruct (step_position s) as [ds|].
  - destruct Hi as [Hne Hk].
    assert (string_contains "[" (step_name s +:+ "[" +:+ numeral ds +:+ "]") = true) as ->.
    { unfold string_contains. rewrite string_exists_app. apply orb_true_iff. by right. }
    replace (step_name s +:+ "[" +:+ numeral ds +:+ "]")
      with ((step_name s +:+ String "[" (numeral ds)) +:+ String "]" "").
    2:{ rewrite !append_assoc. rewrite !append_cons, !append_nil. done. }
    rewrite drop_last_snoc, split_all_app by done.
    rewrite split_all_none by (by apply numeral_clean).
    rewrite parse_int_numeral by done. done.
  - rewrite append_nil_r, Hclean. done.
Qed.

Lemma lxml_xpath_step doc node (root : bool) name :
  is_name name = true \/ name = "*" ->
  lxml_xpath doc node (if root then "/" +:+ name else name)
  = Ok (List.filter (name_test name) (if root then [doc] else kids node)).
Proof.
  intros Hn. unfold lxml_xpath.
  assert (is_name name || String.eqb name "*" = true) as Hok.
  { apply orb_true_iff. destruct Hn as [?| ->]; [by left | by right]. }
  destruct root.
  - rewrite append_cons, append_nil. cbn. by rewrite Hok.
  - destruct name as [|c name]; [by destruct Hn|].
    assert (Ascii.eqb c "/" = false) as ->.
    { destruct Hn as [Hn|[= -> _]]; [|done]. cbn in Hn.
      destruct (Ascii.eqb_spec c "/") as [->|]; [discriminate|done]. }
    by rewrite Hok.
Qed.

Lemma split_path_step s rest :
  step_wf s ->
  split_path (step_string s +:+ rest_string rest)
  = (step_string s,
     match rest with
     | [] => ""
     | s' :: rest' => step_string s' +:+ rest_string rest'
     end).
Proof.
  intros Hs. unfold split_path. destruct rest as [|s' rest'].
  - cbn [rest_string]. rewrite append_nil_r.
    by rewrite split_once_none by apply step_string_no_slash, Hs.
  - cbn [rest_string]. rewrite append_cons, append_nil.
    by rewrite split_once_app by apply step_string_no_slash, Hs.
Qed.

Lemma strip_root_step (root : bool) s t :
  step_wf s ->
  strip_root ((if root then "/" else "") +:+ step_string s +:+ t)
  = Ok (root, step_string s +:+ t).
Proof.
  intros Hs. destruct root.
  - by rewrite append_cons, append_nil.
  - rewrite append_nil. destruct (step_string_head s t Hs) as (c & r & -> & Hc).
    cbn. by rewrite Hc.
Qed.

Lemma rest_head_nonempty s t : step_wf s -> step_string s +:+ t <> "".
Proof. intros Hs. by destruct (step_string_head s t Hs) as (c & r & -> & _). Qed.

Lemma xpath_level fuel doc node (root : bool) s rest :
  step_wf s -> Forall step_wf rest ->
  _xpath (S fuel) doc node ((if root then "/" else "") +:+ step_string s +:+ rest_string rest)
  = match select (candidates (step_name s) (if root then [doc] else kids node))
                 (step_position s) with
    | Found n =>
        match rest with
        | [] => Ok n
        | s' :: rest' => _xpath fuel doc n (step_string s' +:+ rest_string rest')
        end
    | _ => Raise ValueError
    end.
Proof.
  intros Hs Hrest. cbn [_xpath].
  rewrite (strip_root_step root s _ Hs). cbn [mbind res_bind].
  rewrite (split_path_step s rest Hs).
  rewrite (parse_predicate_step s Hs). cbn [mbind res_bind].
  rewrite (lxml_xpath_step doc node root _ (proj1 Hs)). cbn [mbind res_bind].
  rewrite candidates_filter.
  set (cands := candidates _ _).
  assert (forall n, match (match rest with [] => "" | s' :: rest' => step_string s' +:+ rest_string rest' end) with
                    | "" => Ok n
                    | String _ _ => _xpath fuel doc n (match rest with [] => "" | s' :: rest' => step_string s' +:+ rest_string rest' end)
                    end
                    = match rest with
                      | [] => Ok n
                      | s' :: rest' => _xpath fuel doc n (step_string s' +:+ rest_string rest')
                      end) as Hrec.
  { intros n. destruct rest as [|s' rest']; [done|].
    apply Forall_cons in Hrest as [Hs' _].
    destruct (step_string_head s' (rest_string rest') Hs') as (c & r & -> & _). done. }
  destruct Hs as [Hn Hi].
  destruct (step_position s) as [ds|].
  - destruct Hi as [Hne Hk].
    rewrite andb_false_r.
    pose proof (select_index cands ds Hk) as Hsel.
    destruct (Z.of_nat (length cands) <=? numeral_value ds - 1)%Z.
    + destruct (select cands (Some ds)); [discriminate Hsel | done | done].
    + rewrite Hsel. destruct (select cands (Some ds)) as [n| |]; cbn; try done; try apply Hrec.
  - pose proof (select_single cands) as Hsel.
    destruct (Z.of_nat (length cands) <=? 0)%Z;
      [destruct (select cands None); [discriminate Hsel | done | done]|].
    destruct ((1 <? length cands)%nat && true);
      [destruct (select cands None); [discriminate Hsel | done | done]|].
    rewrite Hsel. destruct (select cands None) as [n| |]; cbn; try done; try apply Hrec.
Qed.

Lemma xpath_steps doc steps : forall fuel node (root : bool) s,
  Forall step_wf (s :: steps) -> (length steps < fuel)%nat ->
  _xpath fuel doc node ((if root then "/" else "") +:+ step_string s +:+ rest_string steps)
  = to_res (addressed (if root then [doc] else kids node) (s :: steps)).
Proof.
  induction steps as [|s' steps IH]; intros fuel node root s Hwf Hfuel;
    (destruct fuel as [|fuel]; [cbn in Hfuel; lia|]);
    apply Forall_cons in Hwf as [Hs Hwf];
    rewrite (xpath_level fuel doc node root s _ Hs Hwf); cbn [addressed].
  - by destruct (select _ _).
  - destruct (select _ _) as [n| |]; [|done|done].
    specialize (IH fuel n false s' Hwf). rewrite append_nil in IH.
    apply IH. cbn in Hfuel. lia.
Qed.

(** Inside the positions from 1 on the source and the specification
    agree: for a path whose steps are name tests with optional positions
    [k >= 1], [_xpath] raises (a [ValueError]) exactly when a step finds
    no node among those not marked [diff:delete] (for a step with a
    position [k]: no [k]-th such node), or when a step without a position
    finds several; otherwise it returns the node the path addresses. *)
Theorem xpath_resolution (doc : tree) (steps : list step) (fuel : nat) :
  steps <> [] -> Forall step_wf steps -> (length steps <= fuel)%nat ->
  _xpath fuel doc doc (path_string steps)
  = match addressed [doc] steps with
    | Found n => Ok n
    | PathNotFound | AmbiguousPath => Raise ValueError
    end.
Proof.
  intros Hne Hwf Hfuel. destruct steps as [|s steps]; [done|].
  unfold path_string. cbn [rest_string].
  rewrite (xpath_steps doc steps fuel doc true s Hwf) by (cbn in Hfuel; lia).
  reflexivity.
Qed.

End XPathResolution.

(** <document><node a="v"/><node>Text</node></document> *)
Definition two_nodes : tree :=
  empty_elem 0 "document"
    [Node 1 "node" {[ "a"%string := "v"%string ]} None None [];
     Node 2 "node" ∅ (Some (of_string "Text")) None []].

Lemma xpath_resolution_witness :
  _xpath 2 two_nodes two_nodes "/document/node[2]"
  = Ok (Node 2 "node" ∅ (Some (of_string "Text")) None []).
Proof.
  apply (xpath_resolution two_nodes
           [mkStep "document" None; mkStep "node" (Some [D2])] 2).
  - discriminate.
  - repeat constructor; cbn; try (left; reflexivity); try discriminate; lia.
  - cbn. lia.
Defined.

(** The two invalid paths of the formatter tests: a step without a
    position that finds two nodes, and a name that finds none. *)
Example xpath_ambiguous :
  _xpath 2 two_nodes two_nodes "/document/node" = Raise ValueError.
Proof. reflexivity. Qed.

Example xpath_not_found :
  _xpath 2 two_nodes two_nodes "/document/ummagumma" = Raise ValueError.
Proof. reflexivity. Qed.

(** C9: [_xpath] does not raise on every invalid path.  The step
    [node[0]] of [/document/node[0]] has no match (positions count from
    1), so the path addresses nothing and the specification asks for
    an error; the source turns the position into the Python index -1,
    which passes the test [index >= len(matches)] and selects the last
    of the two candidates, and the call returns that node, against what
    the comment of [_xpath] promises (one and exactly one element is
    found). *)
Theorem xpath_position_zero_returns_last :
  addressed [two_nodes] [mkStep "document" None; mkStep "node" (Some [D0])]
  = PathNotFound
  /\ _xpath 2 two_nodes two_nodes
       (path_string [mkStep "document" None; mkStep "node" (Some [D0])])
     = Ok (Node 2 "node" ∅ (Some (of_string "Text")) None []).
Proof. split; reflexivity. Qed.

(** ** [formatting.py]: the rich-text renderer *)

(** Python iterates a set in an order of its own; the embedding iterates
    a set in the order of [elements]. *)
Definition N_ge (a b : N) : Prop := (b <= a)%N.
#[global] Instance N_ge_dec a b : Decision (N_ge a b).
Proof. unfold N_ge. apply _. Defined.

(** [sorted(s, reverse=True)] *)
Definition sorted_desc (s : gset N) : list N :=
  merge_sort N_ge (elements s).

Section RichText.
Context {K : Type} `{EqDecision K} (canonicalize : tree -> K).
Implicit Types m : PlaceholderMaker (K := K).

(** [_get_content_and_states]: the words (and single placeholders) of a
    token list, and the counts of open placeholders recorded at the word
    index where they change. *)
Fixpoint content_and_states m (contentArray : list pystr) (result : list pystr)
    (stateByIndex : gmap nat (gmap N Z)) (currentState : gmap N Z)
    (open_close_map : gmap N N)
  : res (list pystr * gmap nat (gmap N Z)) :=
  match contentArray with
  | [] => Ok (result, stateByIndex)
  | char :: rest =>
      if is_placeholder m char then
        match char with
        | [c] =>
            entry ← subscript (placeholder2tag m) c;
            match entry_ttype entry with
            | T_SINGLE =>
                content_and_states m rest (result ++ [char]) stateByIndex
                                   currentState open_close_map
            | T_OPEN =>
                cl ← raise_if_none OutOfModel (close_ph entry);
                let ocm := <[cl := c]> (<[c := cl]> open_close_map) in
                let cs := <[c := (default 0%Z (currentState !! c) + 1)%Z]> currentState in
                content_and_states m rest result
                                   (<[length result := cs]> stateByIndex) cs ocm
            | T_CLOSE =>
                open_char ← subscript open_close_map c;
                n ← subscript currentState open_char;
                let cs := <[open_char := (n - 1)%Z]> currentState in
                content_and_states m rest result
                                   (<[length result := cs]> stateByIndex) cs open_close_map
            end
        | _ => Raise KeyError
        end
      else
        content_and_states m rest (result ++ [char]) stateByIndex
                           currentState open_close_map
  end.

Definition _get_content_and_states m (contentArray : list pystr)
  : res (list pystr * gmap nat (gmap N Z)) :=
  content_and_states m contentArray [] ∅ ∅ ∅.

Definition _update_state (currentState : gset N)
    (stateByIndex : gmap nat (gmap N Z)) (index : nat) : gset N :=
  match stateByIndex !! index with
  | None => currentState
  | Some newState => dom (filter (fun kv => (0 < kv.2)%Z) newState)
  end.

Definition is_link_element m (ph : N) : res bool :=
  entry ← subscript (placeholder2tag m) ph;
  Ok (String.eqb (tag (element entry)) "a").

Fixpoint filter_links m (phs : list N) : res (list N) :=
  match phs with
  | [] => Ok []
  | ph :: rest =>
      b ← is_link_element m ph;
      rest' ← filter_links m rest;
      Ok (if (b : bool) then ph :: rest' else rest')
  end.

Definition href_of m (ph : N) : res string :=
  entry ← subscript (placeholder2tag m) ph;
  subscript (attrib (element entry)) "href"%string.

(** [_merge_link_placeholders]: the three sets after the call. *)
Definition _merge_link_placeholders m (common inserted deleted : gset N)
  : res (PlaceholderMaker (K := K) * gset N * gset N * gset N) :=
  insertedLinks ← filter_links m (elements inserted);
  match last insertedLinks with
  | None => Ok (m, common, inserted, deleted)
  | Some insertedLinkPH =>
      removedLinks ← filter_links m (elements deleted);
      match last removedLinks with
      | None => Ok (m, common, inserted, deleted)
      | Some removedLinkPH =>
          let inserted := inserted ∖ {[insertedLinkPH]} in
          let deleted := deleted ∖ {[removedLinkPH]} in
          oldHref ← href_of m removedLinkPH;
          newHref ← href_of m insertedLinkPH;
          if String.eqb oldHref newHref then
            Ok (m, {[removedLinkPH]} ∪ common, inserted, deleted)
          else
            let newElement :=
              Node 0 "a" {[ diff_name "change-target" := oldHref +:+ " -> " +:+ newHref ]}
                   None None [] in
            '(ph_open, _, m) ← get_both_placeholders canonicalize newElement m;
            Ok (m, {[ph_open]} ∪ common, inserted, deleted)
      end
  end.

Fixpoint modified_all m (phs : list N) (action : string)
  : res (PlaceholderMaker (K := K) * list N) :=
  match phs with
  | [] => Ok (m, [])
  | ph :: rest =>
      '(ph', m) ← get_modified_ph canonicalize ph action m;
      '(m, rest') ← modified_all m rest action;
      Ok (m, ph' :: rest')
  end.

Definition _merge_states m (leftState rightState : gset N)
  : res (PlaceholderMaker (K := K) * gset N) :=
  '(m, common, inserted, deleted) ←
    _merge_link_placeholders m (leftState ∩ rightState)
                             (rightState ∖ leftState) (leftState ∖ rightState);
  '(m, ins) ← modified_all m (elements inserted) "insert-formatting";
  '(m, del) ← modified_all m (elements deleted) "delete-formatting";
  Ok (m, common ∪ list_to_set ins ∪ list_to_set del).

(** The first loop of [_diff_rich_text]: the state of every token of the
    word diff. *)
Fixpoint token_states m (diffWords : list (Z * pystr))
    (leftStateByIndex rightStateByIndex : gmap nat (gmap N Z))
    (leftIndex rightIndex : nat) (currentLeftState currentRightState : gset N)
  : res (PlaceholderMaker (K := K) * list (gset N)) :=
  match diffWords with
  | [] => Ok (m, [])
  | (op, _) :: rest =>
      if (op =? 0)%Z then
        let l := _update_state currentLeftState leftStateByIndex leftIndex in
        let r := _update_state currentRightState rightStateByIndex rightIndex in
        '(m, commonState) ← _merge_states m l r;
        '(m, states) ← token_states m rest leftStateByIndex rightStateByIndex
                                    (S leftIndex) (S rightIndex) l r;
        Ok (m, commonState :: states)
      else if (op =? 1)%Z then
        let r := _update_state currentRightState rightStateByIndex rightIndex in
        let insert_open := (diff_tags_insert m).1 in
        '(m, states) ← token_states m rest leftStateByIndex rightStateByIndex
                                    leftIndex (S rightIndex) currentLeftState r;
        Ok (m, ({[insert_open]} ∪ r) :: states)
      else if (op =? -1)%Z then
        let l := _update_state currentLeftState leftStateByIndex leftIndex in
        let delete_open := (diff_tags_delete m).1 in
        '(m, states) ← token_states m rest leftStateByIndex rightStateByIndex
                                    (S leftIndex) rightIndex l currentRightState;
        Ok (m, ({[delete_open]} ∪ l) :: states)
      else
        token_states m rest leftStateByIndex rightStateByIndex
                     leftIndex rightIndex currentLeftState currentRightState
  end.

(** [while closedPH: ...]: the stack [currentOpenedPH] has its top first;
    the result is the closing placeholders emitted, the remaining stack
    and [phToReopen]. *)
Fixpoint close_until m (closedPH : gset N) (stack : list N) (phToReopen : gset N)
  : res (list pystr * list N * gset N) :=
  if bool_decide (closedPH = ∅) then Ok ([], stack, phToReopen)
  else
    match stack with
    | [] => Raise IndexError
    | last_ph_opened :: stack' =>
        entry ← subscript (placeholder2tag m) last_ph_opened;
        cl ← raise_if_none OutOfModel (close_ph entry);
        '(out, stack'', reopen) ←
          (if bool_decide (last_ph_opened ∈ closedPH)
           then close_until m (closedPH ∖ {[last_ph_opened]}) stack' phToReopen
           else close_until m closedPH stack' ({[last_ph_opened]} ∪ phToReopen));
        Ok ([cl] :: out, stack'', reopen)
    end.

(** One iteration of the second loop of [_diff_rich_text]: the closing
    placeholders, the opening placeholders and the new stack. *)
Definition linearize_step m (oldState newState : gset N) (stack : list N)
  : res (list pystr * list N * list N) :=
  let openedPH := newState ∖ oldState in
  let closedPH := oldState ∖ newState in
  '(closes, stack, phToReopen) ← close_until m closedPH stack ∅;
  let opens := sorted_desc (openedPH ∪ phToReopen) in
  Ok (closes, opens, rev opens ++ stack).

Fixpoint linearize m (states : list (gset N)) (words : list pystr)
    (oldState : gset N) (stack : list N) : res (list pystr) :=
  match states, words with
  | newState :: states', word :: words' =>
      '(closes, opens, stack) ← linearize_step m oldState newState stack;
      rest ← linearize m states' words' newState stack;
      Ok (closes ++ map (fun ph => [ph]) opens ++ word :: rest)
  | _, _ =>
      (fix close_all (stack : list N) : res (list pystr) :=
         match stack with
         | [] => Ok []
         | ph :: stack' =>
             entry ← subscript (placeholder2tag m) ph;
             cl ← raise_if_none OutOfModel (close_ph entry);
             rest ← close_all stack';
             Ok ([cl] :: rest)
         end) stack
  end.

(** [_insert_spacing] *)
Fixpoint _insert_spacing m (tokenList : list pystr) (pendingSpace : bool)
  : res (list pystr) :=
  match tokenList with
  | [] => Ok []
  | token :: rest =>
      if is_placeholder m token then
        match token with
        | [c] =>
            entry ← subscript (placeholder2tag m) c;
            if pendingSpace && bool_decide (entry_ttype entry = T_OPEN) then
              rest' ← _insert_spacing m rest false;
              Ok ([32%N] :: token :: rest')
            else
              rest' ← _insert_spacing m rest pendingSpace;
              Ok (token :: rest')
        | _ => Raise KeyError
        end
      else
        rest' ← _insert_spacing m rest true;
        Ok (if pendingSpace then [32%N] :: token :: rest' else token :: rest')
  end.

(** [utils.diff_charsToWords] *)
Fixpoint diff_charsToWords (diffs : list (Z * pystr)) (lineArray : list pystr)
  : res (list (Z * pystr)) :=
  match diffs with
  | [] => Ok []
  | (op, chars) :: rest =>
      words ← mapM (fun c => raise_if_none IndexError (lineArray !! N.to_nat c)) chars;
      rest' ← diff_charsToWords rest lineArray;
      Ok (map (fun w => (op, w)) words ++ rest')
  end.

(** [dmp.diff_main] is not among the sources: the text diff, a list of
    [(op, segment)] with [op] in [-1, 0, 1], is a parameter. *)
Variable diff_main : pystr -> pystr -> list (Z * pystr).

Definition _diff_rich_text m (leftValueArray rightValueArray : list pystr)
  : res (PlaceholderMaker (K := K) * pystr) :=
  '(leftResult, leftStateByIndex) ← _get_content_and_states m leftValueArray;
  '(rightResult, rightStateByIndex) ← _get_content_and_states m rightValueArray;
  let '(char1, char2, wordsArray) := diff_wordsToChars leftResult rightResult in
  diffWords ← diff_charsToWords (diff_main char1 char2) wordsArray;
  '(m, stateByIndex) ← token_states m diffWords leftStateByIndex rightStateByIndex
                                    0 0 ∅ ∅;
  splitOutput ← linearize m stateByIndex (map snd diffWords) ∅ [];
  spaced ← _insert_spacing m splitOutput false;
  Ok (m, concat spaced).

End RichText.

Section MakeDiffTags.
Context {K : Type} `{EqDecision K} (canonicalize : tree -> K).
Variable diff_main : pystr -> pystr -> list (Z * pystr).

(** [XMLFormatter._make_diff_tags]: the new text of the node;
    [normalize_text] is [bool(self.normalize & WS_TEXT)]. *)
Definition _make_diff_tags (normalize_text : bool) (m : PlaceholderMaker (K := K))
    (left_value right_value : option pystr)
  : res (PlaceholderMaker (K := K) * pystr) :=
  let clean := fun v =>
    if normalize_text then strip (cleanup_whitespace (or_empty v)) else or_empty v in
  let keys := elements (dom (placeholder2tag m)) in
  _diff_rich_text canonicalize diff_main m
                  (splitString (clean left_value) keys)
                  (splitString (clean right_value) keys).

(** [HTMLFormatterTests.get_html_formatted_diff] of the test suite, for
    the default HTML formatter: both paragraphs are encoded, their texts
    are diffed, and the result is decoded in the left paragraph. *)
Definition get_html_formatted_diff (fuel : nat) (left right : tree) : res tree :=
  m ← new_HTMLPlaceholderMaker canonicalize
        ["br"; "hr"]%string
        ["b"; "u"; "i"; "strike"; "em"; "super"; "sup"; "sub"; "span"; "strong"]%string
        ["a"; "link"]%string
        ["p"; "h1"; "h2"; "h3"; "h4"; "h5"; "h6"; "li"; "td"; "para"]%string;
  '(m, tree1) ← do_tree canonicalize m left;
  '(m, tree2) ← do_tree canonicalize m right;
  '(m, result) ← _make_diff_tags true m (text tree1) (text tree2);
  undo_tree fuel m (set_text (Some result) tree1).

End MakeDiffTags.

(** A stand-in for the text diff in closed examples: equal strings give
    one equality, different strings a deletion and an insertion. *)
Definition diff_main_example (a b : pystr) : list (Z * pystr) :=
  if bool_decide (a = b) then (if bool_decide (a = []) then [] else [(0%Z, a)])
  else [((-1)%Z, a); (1%Z, b)].

Definition elem_with (tg : string) (attrs : list (string * string))
    (tx : string) (ks : list tree) : tree :=
  Node 0 tg (list_to_map attrs)
       (if String.eqb tx "" then None else Some (of_string tx)) None ks.

(** The first case of [test_tag_order]: <p><b><a>text</a></b></p> on both
    sides is rendered <p><a><b>text</b></a></p>. *)
Example tag_order_plain :
  let t := elem_with "p" [] "" [elem_with "b" [] "" [elem_with "a" [] "text" []]] in
  erase <$> get_html_formatted_diff canonical_form diff_main_example 20 t t
  = Ok (erase (elem_with "p" [] "" [elem_with "a" [] "" [elem_with "b" [] "text" []]])).
Proof. vm_compute. reflexivity. Qed.

(** C8: the renderer does not always open the complex tag outside the
    dual tag.  For <p><a href="x">text</a></p> against
    <p><a href="x"><b>text</b></a></p> the link and the bold open at the
    same token; the link is common to both sides, the bold is new, and
    its placeholder, derived by [get_modified_ph] with
    [insert-formatting], is allocated after the placeholder of the link:
    it has the higher code point and opens first.  The result is
    <b><a>text</a></b>, not the <a><b>text</b></a> that the claim and the
    comment of [test_tag_order] ask for: the pre-allocation of the dual
    tags in the constructor does not reach the placeholders derived
    later. *)
Theorem derived_dual_opens_outside_complex :
  let left := elem_with "p" [] "" [elem_with "a" [("href", "x")] "text" []] in
  let right :=
    elem_with "p" [] "" [elem_with "a" [("href", "x")] "" [elem_with "b" [] "text" []]] in
  erase <$> get_html_formatted_diff canonical_form diff_main_example 20 left right
  = Ok (erase (elem_with "p" [] ""
                 [elem_with "b" [(diff_name "insert-formatting", "")] ""
                    [elem_with "a" [("href", "x")] "text" []]]))
  /\ erase <$> get_html_formatted_diff canonical_form diff_main_example 20 left right
     <> Ok (erase (elem_with "p" [] ""
                     [elem_with "a" [("href", "x")] ""
                        [elem_with "b" [(diff_name "insert-formatting", "")]
                                   "text" []]])).
Proof.
  intros left right.
  assert (erase <$> get_html_formatted_diff canonical_form diff_main_example 20 left right
          = Ok (erase (elem_with "p" [] ""
                         [elem_with "b" [(diff_name "insert-formatting", "")] ""
                            [elem_with "a" [("href", "x")] "text" []]]))) as Hrun
    by (vm_compute; reflexivity).
  split; [exact Hrun|]. rewrite Hrun. intros Heq. vm_compute in Heq. discriminate Heq.
Qed.

(** ** Code points of placeholders and the order of simultaneous opens *)

Section MakerOrder.
Context {K : Type} `{EqDecision K} (canonicalize : tree -> K).
Implicit Types m : PlaceholderMaker (K := K).

(** Every allocated placeholder is at most the counter. *)
Definition maker_wf m : Prop :=
  forall ph, is_Some (placeholder2tag m !! ph) -> (ph <= placeholder m)%N.

(** [m] is a later state of [m0]: the counter has not decreased and the
    placeholders up to the counter of [m0] are those of [m0]. *)
Definition maker_extends m0 m : Prop :=
  (placeholder m0 <= placeholder m)%N
  /\ forall ph, (ph <= placeholder m0)%N ->
                placeholder2tag m !! ph = placeholder2tag m0 !! ph.

Definition later m0 m : Prop := maker_wf m /\ maker_extends m0 m.

(** The tags of the elements that have a placeholder. *)
Definition tags_in (P : string -> Prop) m : Prop :=
  forall ph en, placeholder2tag m !! ph = Some en -> P (tag (element en)).

Lemma maker_extends_refl m : maker_extends m m.
Proof. split; [lia | done]. Qed.

Lemma maker_extends_trans m0 m1 m2 :
  maker_extends m0 m1 -> maker_extends m1 m2 -> maker_extends m0 m2.
Proof.
  intros [H1 H1'] [H2 H2']. split; [lia|].
  intros ph Hph. rewrite H2' by lia. by apply H1'.
Qed.

Lemma get_placeholder_step m e tt c ph m' :
  maker_wf m -> get_placeholder canonicalize e tt c m = Ok (ph, m') ->
  maker_wf m' /\ maker_extends m m'
  /\ (forall P, P (tag e) -> tags_in P m -> tags_in P m').
Proof.
  intros Hwf. unfold get_placeholder.
  destruct (lookup_tag _ _) as [ph0|].
  - intros [= <- <-]. split; [done|]. split; [apply maker_extends_refl | auto].
  - unfold chr. destruct (placeholder m + 1 <=? 1114111)%N; [|discriminate].
    cbn [mbind res_bind]. intros [= <- <-].
    unfold maker_wf, maker_extends, tags_in in *.
    cbn [with_tables placeholder placeholder2tag].
    split; [|split].
    + intros ph [en Hen]. destruct (decide (ph = (placeholder m + 1)%N)) as [->|Hne]; [lia|].
      rewrite lookup_insert_ne in Hen by done.
      specialize (Hwf ph (ex_intro _ en Hen)). lia.
    + split; [lia|]. intros ph Hph. rewrite lookup_insert_ne by lia. done.
    + intros P HP Hin ph en.
      destruct (decide ((placeholder m + 1)%N = ph)) as [<-|Hne].
      * rewrite lookup_insert_eq. intros [= <-]. exact HP.
      * rewrite lookup_insert_ne by done. apply Hin.
Qed.

Lemma get_placeholder_later m0 m e tt c ph m' :
  later m0 m -> get_placeholder canonicalize e tt c m = Ok (ph, m') -> later m0 m'.
Proof.
  intros [Hwf Hext] Hget.
  destruct (get_placeholder_step _ _ _ _ _ _ Hwf Hget) as (Hwf' & Hext' & _).
  split; [done | by eapply maker_extends_trans].
Qed.

Lemma get_placeholder_tags P m e tt c ph m' :
  maker_wf m -> P (tag e) -> tags_in P m ->
  get_placeholder canonicalize e tt c m = Ok (ph, m') -> maker_wf m' /\ tags_in P m'.
Proof.
  intros Hwf HP Hin Hget.
  destruct (get_placeholder_step _ _ _ _ _ _ Hwf Hget) as (Hwf' & _ & Htags). auto.
Qed.

(** Inversion of a monadic bind. *)
Lemma bind_Ok {A B} (x : res A) (f : A -> res B) (b : B) :
  x ≫= f = Ok b -> exists a, x = Ok a /\ f a = Ok b.
Proof. destruct x as [a|e]; [eauto | discriminate]. Qed.

Lemma get_both_placeholders_later m0 m e r :
  later m0 m -> get_both_placeholders canonicalize e m = Ok r -> later m0 r.2.
Proof.
  intros Hl. unfold get_both_placeholders.
  repeat case_match; intros Hb.
  - apply bind_Ok in Hb as ([? ?] & Hg & Hb).
    apply (get_placeholder_later m0) in Hg; [|done]. by injection Hb as <-.
  - apply bind_Ok in Hb as ([? m1] & Hg & Hb).
    apply (get_placeholder_later m0) in Hg; [|done].
    apply bind_Ok in Hb as ([? m2] & Hg' & Hb).
    apply (get_placeholder_later m0) in Hg'; [|done]. by injection Hb as <-.
  - apply bind_Ok in Hb as ([? m1] & Hg & Hb).
    apply (get_placeholder_later m0) in Hg; [|done].
    apply bind_Ok in Hb as ([? m2] & Hg' & Hb).
    apply (get_placeholder_later m0) in Hg'; [|done]. by injection Hb as <-.
Qed.

Lemma get_both_placeholders_tags P m e r :
  maker_wf m -> P (tag e) -> tags_in P m ->
  get_both_placeholders canonicalize e m = Ok r -> maker_wf r.2 /\ tags_in P r.2.
Proof.
  intros Hwf HP Hin. unfold get_both_placeholders.
  repeat case_match; intros Hb.
  - apply bind_Ok in Hb as ([? ?] & Hg & Hb).
    apply (get_placeholder_tags P) in Hg as [? ?]; [|done..]. by injection Hb as <-.
  - apply bind_Ok in Hb as ([? m1] & Hg & Hb).
    apply (get_placeholder_tags P) in Hg as [? ?]; [|done..].
    apply bind_Ok in Hb as ([? m2] & Hg & Hb).
    apply (get_placeholder_tags P) in Hg as [? ?]; [|done..]. by injection Hb as <-.
  - apply bind_Ok in Hb as ([? m1] & Hg & Hb).
    apply (get_placeholder_tags P) in Hg as [? ?]; [|done..].
    apply bind_Ok in Hb as ([? m2] & Hg & Hb).
    apply (get_placeholder_tags P) in Hg as [? ?]; [|done..]. by injection Hb as <-.
Qed.

Lemma get_modified_ph_later m0 m ph action r :
  later m0 m -> get_modified_ph canonicalize ph action m = Ok r -> later m0 r.2.
Proof.
  intros Hl. unfold get_modified_ph. intros Hb.
  apply bind_Ok in Hb as (entry & _ & Hb).
  destruct (entry_ttype entry).
  - apply bind_Ok in Hb as ([? m1] & Hg & Hb).
    apply (get_placeholder_later m0) in Hg; [|done].
    destruct r as [? m2]. by apply (get_placeholder_later m0) in Hb.
  - destruct r as [? m2]. by apply (get_placeholder_later m0) in Hb.
  - destruct r as [? m2]. by apply (get_placeholder_later m0) in Hb.
Qed.

(** The encoder only moves the maker to later states. *)
Lemma do_children_later m0 encode :
  forall children,
  Forall (fun c => forall m r, later m0 m -> encode m c = Ok r -> later m0 r.1) children ->
  forall m txt kept r,
  later m0 m -> do_children canonicalize encode m children txt kept = Ok r -> later m0 r.1.1.
Proof.
  induction 1 as [|child rest Hc _ IH]; intros m txt kept r Hl; cbn [do_children].
  - by intros [= <-].
  - destruct (is_formatting m child); [|by apply IH].
    intros Hb. apply bind_Ok in Hb as ([m1 child'] & He & Hb).
    apply Hc in He; [|done]. cbn in He.
    apply bind_Ok in Hb as ([[po pc] m2] & Hg & Hb).
    apply (get_both_placeholders_later m0) in Hg; [|done]. cbn in Hg.
    destruct kept; by eapply IH.
Qed.

Lemma do_element_later m0 e : forall m r,
  later m0 m -> do_element canonicalize m e = Ok r -> later m0 r.1.
Proof.
  induction e as [i tg a tx tl ks IH] using tree_ind_kids. intros m r Hl.
  cbn [do_element kids text]. intros Hb.
  apply bind_Ok in Hb as ([[m1 txt] ks'] & Hc & Hb).
  apply (do_children_later m0 _ _ IH) in Hc; [|done]. by injection Hb as <-.
Qed.

Lemma do_tree_children_later m0 encode :
  forall children,
  Forall (fun c => forall m r, later m0 m -> encode m c = Ok r -> later m0 r.1) children ->
  forall m r,
  later m0 m -> do_tree_children encode children m = Ok r -> later m0 r.1.
Proof.
  induction 1 as [|child rest Hc _ IH]; intros m r Hl; cbn [do_tree_children].
  - by intros [= <-].
  - intros Hb. apply bind_Ok in Hb as ([m1 rest'] & Hr & Hb).
    apply IH in Hr; [|done]. cbn in Hr.
    apply bind_Ok in Hb as ([m2 child'] & He & Hb).
    apply Hc in He; [|done]. by injection Hb as <-.
Qed.

Lemma do_tree_later m0 e : forall m r,
  later m0 m -> do_tree canonicalize m e = Ok r -> later m0 r.1.
Proof.
  induction e as [i tg a tx tl ks IH] using tree_ind_kids. intros m r Hl.
  cbn [do_tree kids text tag]. intros Hb.
  apply bind_Ok in Hb as ([m1 ks'] & Hc & Hb).
  apply (do_tree_children_later m0 _ _ IH) in Hc; [|done]. cbn in Hc.
  case_bool_decide.
  - by apply (do_element_later m0) in Hb.
  - by injection Hb as <-.
Qed.

End MakerOrder.

Section OpenOrder.
Context {K : Type} `{EqDecision K} (canonicalize : tree -> K).
Implicit Types m : PlaceholderMaker (K := K).

Lemma init_maker_tags P m m' :
  maker_wf m -> tags_in P m -> P INSERT_NAME -> P DELETE_NAME ->
  init_maker canonicalize m = Ok m' -> maker_wf m' /\ tags_in P m'.
Proof.
  intros Hwf Hin Hi Hd. unfold init_maker. intros Hb.
  apply bind_Ok in Hb as ([? m1] & Hg & Hb).
  apply (get_placeholder_tags _ P) in Hg as [Hwf1 Hin1]; [|done..].
  apply bind_Ok in Hb as ([? m2] & Hg & Hb).
  apply (get_placeholder_tags _ P) in Hg as [Hwf2 Hin2]; [|done..].
  apply bind_Ok in Hb as ([? m3] & Hg & Hb).
  apply (get_placeholder_tags _ P) in Hg as [Hwf3 Hin3]; [|done..].
  apply bind_Ok in Hb as ([? m4] & Hg & Hb).
  apply (get_placeholder_tags _ P) in Hg as [Hwf4 Hin4]; [|done..].
  injection Hb as <-. split; [exact Hwf4 | exact Hin4].
Qed.

Lemma preallocate_tags P tags : forall m m',
  maker_wf m -> tags_in P m -> Forall P tags ->
  preallocate canonicalize tags m = Ok m' -> maker_wf m' /\ tags_in P m'.
Proof.
  induction tags as [|tg tags IH]; intros m m' Hwf Hin Htags; cbn [preallocate].
  - by intros [= <-].
  - apply Forall_cons in Htags as [Htg Htags]. intros Hb.
    apply bind_Ok in Hb as ([[? ?] m1] & Hg & Hb).
    apply (get_both_placeholders_tags _ P) in Hg as [Hwf1 Hin1]; [|done..].
    by eapply IH.
Qed.

(** The placeholders of a fresh HTML maker stand for the two diff
    wrappers and for elements with a dual (or single) tag listed as
    dual. *)
Lemma new_HTMLPlaceholderMaker_tags sft dft cft tt m0 :
  new_HTMLPlaceholderMaker canonicalize sft dft cft tt = Ok m0 ->
  maker_wf m0 /\ tags_in (fun t => t ∈ INSERT_NAME :: DELETE_NAME :: dft) m0.
Proof.
  unfold new_HTMLPlaceholderMaker. intros Hb.
  apply bind_Ok in Hb as (m1 & Hi & Hb).
  apply (init_maker_tags (fun t => t ∈ INSERT_NAME :: DELETE_NAME :: dft)) in Hi
    as [Hwf1 Hin1].
  - eapply preallocate_tags; [exact Hwf1 | exact Hin1 | | exact Hb].
    apply Forall_forall. intros t Ht. by do 2 right.
  - intros ph [en Hen]. cbn in Hen. by rewrite lookup_empty in Hen.
  - intros ph en Hen. cbn in Hen. by rewrite lookup_empty in Hen.
  - by left.
  - right. by left.
Qed.

#[local] Instance N_ge_total : Total N_ge.
Proof. intros a b. unfold N_ge. lia. Qed.

#[local] Instance N_ge_trans : Transitive N_ge.
Proof. intros a b c. unfold N_ge. lia. Qed.

Lemma sorted_desc_sorted s : StronglySorted N_ge (sorted_desc s).
Proof. apply StronglySorted_merge_sort; apply _. Qed.

Lemma sorted_desc_elem s x : x ∈ sorted_desc s <-> x ∈ s.
Proof. unfold sorted_desc. by rewrite merge_sort_Permutation, elem_of_elements. Qed.

Lemma sorted_before (l : list N) a b :
  StronglySorted N_ge l -> a ∈ l -> b ∈ l -> (b < a)%N ->
  exists l1 l2 l3, l = l1 ++ a :: l2 ++ b :: l3.
Proof.
  intros Hs Ha Hb Hlt.
  apply list_elem_of_split in Ha as (l1 & l2 & ->).
  apply elem_of_app in Hb as [Hb|Hb].
  - exfalso.
    assert (N_ge b a) as Hba
      by (eapply StronglySorted_app_1_elem_of; [exact Hs | exact Hb | by left]).
    unfold N_ge in Hba. lia.
  - apply elem_of_cons in Hb as [->|Hb]; [lia|].
    apply list_elem_of_split in Hb as (l2a & l2b & ->). by exists l1, l2a, l2b.
Qed.

(** Where the order does hold: the placeholders that one step of the
    linearisation opens are in descending code-point order; therefore a
    placeholder allocated after the construction of the HTML placeholder
    maker (such as the one of a complex tag, [a]) comes before every
    placeholder pre-allocated by the constructor for a dual tag (such as
    [b]) among the placeholders opened by the same step. *)
Theorem complex_opens_outside_preallocated_dual
    (sft dft cft tt : list string) m0 m (oldState newState : gset N)
    (stack : list N) (closes : list pystr) (opens stack' : list N)
    (a b : N) (ea : PlaceholderEntry) :
  new_HTMLPlaceholderMaker canonicalize sft dft cft tt = Ok m0 ->
  later m0 m ->
  is_Some (placeholder2tag m0 !! b) ->
  placeholder2tag m !! a = Some ea ->
  tag (element ea) ∉ INSERT_NAME :: DELETE_NAME :: dft ->
  linearize_step m oldState newState stack = Ok (closes, opens, stack') ->
  a ∈ opens -> b ∈ opens ->
  StronglySorted N_ge opens /\ (b < a)%N
  /\ exists l1 l2 l3, opens = l1 ++ a :: l2 ++ b :: l3.
Proof.
  intros Hnew [Hwf [Hcnt Hext]] Hb Ha Htag Hstep Hina Hinb.
  destruct (new_HTMLPlaceholderMaker_tags _ _ _ _ _ Hnew) as [Hwf0 Htags0].
  assert (b <= placeholder m0)%N as Hble by (by apply Hwf0).
  assert (placeholder m0 < a)%N as Halt.
  { destruct (N.ltb_spec (placeholder m0) a) as [|Hle]; [done|]. exfalso.
    rewrite (Hext a Hle) in Ha. apply Htag. by apply (Htags0 a ea). }
  unfold linearize_step in Hstep.
  apply bind_Ok in Hstep as ([[cl st] re] & _ & Hstep).
  injection Hstep as <- <- <-.
  pose proof (sorted_desc_sorted ((newState ∖ oldState) ∪ re)) as Hsorted.
  split; [exact Hsorted|]. split; [lia|].
  apply sorted_before; [exact Hsorted | done | done | lia].
Qed.

End OpenOrder.

(** With the dual tags [b] and [i] pre-allocated (U+E005..U+E008), the
    link <a href="x">text</a> gets U+E009 and U+E00A; when it opens
    together with [b] (U+E006), the link comes first. *)
Lemma complex_opens_outside_preallocated_dual_witness :
  exists m0 m,
    new_HTMLPlaceholderMaker canonical_form ["br"; "hr"] ["b"; "i"] ["a"] ["p"]
    = Ok m0
    /\ get_both_placeholders canonical_form
         (elem_with "a" [("href", "x")] "text" []) m0 = Ok (57354%N, [57353%N], m)
    /\ linearize_step m ∅ {[57354%N; 57350%N]} [] = Ok ([], [57354; 57350]%N, [57350; 57354]%N)
    /\ (57350 < 57354)%N
    /\ exists l1 l2 l3, [57354; 57350]%N = l1 ++ 57354%N :: l2 ++ 57350%N :: l3.
Proof.
  destruct (new_HTMLPlaceholderMaker canonical_form ["br"; "hr"] ["b"; "i"] ["a"] ["p"])
    as [m0|] eqn:E0; [|vm_compute in E0; discriminate].
  destruct (get_both_placeholders canonical_form
              (elem_with "a" [("href", "x")] "text" []) m0) as [[[po pc] m]|] eqn:E1;
    [|vm_compute in E0; injection E0 as <-; vm_compute in E1; discriminate].
  assert (po = 57354%N /\ pc = [57353%N]) as [-> ->].
  { vm_compute in E0. injection E0 as <-. vm_compute in E1. by injection E1 as <- <- _. }
  exists m0, m. split; [reflexivity|]. split; [exact E1|].
  assert (linearize_step m ∅ {[57354%N; 57350%N]} []
          = Ok ([], [57354; 57350]%N, [57350; 57354]%N)) as Hstep.
  { vm_compute in E0. injection E0 as <-. vm_compute in E1. injection E1 as <-.
    vm_compute. reflexivity. }
  split; [exact Hstep|].
  assert (exists ea, placeholder2tag m !! 57354%N = Some ea /\ tag (element ea) = "a"%string)
    as (ea & Hea & Htag).
  { vm_compute in E0. injection E0 as <-. vm_compute in E1. injection E1 as <-.
    eexists. split; reflexivity. }
  assert (is_Some (placeholder2tag m0 !! 57350%N)) as Hb.
  { vm_compute in E0. injection E0 as <-. eexists. reflexivity. }
  destruct (new_HTMLPlaceholderMaker_tags canonical_form _ _ _ _ _ E0) as [Hwf0 _].
  assert (later m0 m) as Hlater.
  { apply (get_both_placeholders_later canonical_form m0 m0 _ _
             (conj Hwf0 (maker_extends_refl m0)) E1). }
  assert (tag (element ea) ∉ [INSERT_NAME; DELETE_NAME; "b"; "i"]%string) as Hnot.
  { rewrite Htag. intros Hin.
    repeat (apply elem_of_cons in Hin as [Hin|Hin]; [discriminate Hin|]).
    by apply elem_of_nil in Hin. }
  exact (proj2
           (complex_opens_outside_preallocated_dual canonical_form
              ["br"; "hr"]%string ["b"; "i"]%string ["a"]%string ["p"]%string
              m0 m ∅ {[57354%N; 57350%N]} [] [] [57354; 57350]%N [57350; 57354]%N
              57354%N 57350%N ea E0 Hlater Hb Hea Hnot Hstep
              (list_elem_of_here _ _) (list_elem_of_further _ _ _ (list_elem_of_here _ _)))).
Defined.

(** ** The LCS returns a common subsequence *)

Definition pairs_lt (p q : Z * Z) : Prop := (p.1 < q.1 /\ p.2 < q.2)%Z.

(** A list of index pairs is a common subsequence of [l] and [r]: both
    components increase strictly, and every pair indexes two items that
    the equality accepts. *)
Definition pair_ok {A B} (eqfn : A -> B -> bool) (l : list A) (r : list B)
    (p : Z * Z) : Prop :=
  (0 <= p.1)%Z /\ (0 <= p.2)%Z
  /\ exists a b, l !! Z.to_nat p.1 = Some a /\ r !! Z.to_nat p.2 = Some b
                 /\ eqfn a b = true.

Definition common_subsequence {A B} (eqfn : A -> B -> bool) (l : list A)
    (r : list B) (ms : list (Z * Z)) : Prop :=
  StronglySorted pairs_lt ms /\ Forall (pair_ok eqfn l r) ms.

Section LCSProofs.
Context {A B : Type} (eqfn : A -> B -> bool).
Variables (start : nat) (left : list A) (right : list B).

Let lmax := length left.
Let rmax := length right.

(** The history of a path that has reached [x] on the diagonal [k]. *)
Definition hist_ok (k : Z) (x : nat) (h : history) : Prop :=
  StronglySorted pairs_lt h
  /\ Forall (fun p =>
       (Z.of_nat start <= p.1 < Z.of_nat start + Z.of_nat (min x lmax))%Z
       /\ (Z.of_nat start <= p.2 < Z.of_nat start + Z.min (Z.of_nat x - k) (Z.of_nat rmax))%Z
       /\ exists a b, left !! Z.to_nat (p.1 - Z.of_nat start) = Some a
                      /\ right !! Z.to_nat (p.2 - Z.of_nat start) = Some b
                      /\ eqfn a b = true) h.

Lemma hist_ok_weaken k x h k' x' :
  hist_ok k x h -> x <= x' -> (Z.of_nat x - k <= Z.of_nat x' - k')%Z ->
  hist_ok k' x' h.
Proof.
  intros [Hs Hall] Hx Hy. split; [done|].
  eapply Forall_impl; [exact Hall|]. intros p (H1 & H2 & H3).
  split; [lia|]. split; [lia|]. done.
Qed.

Lemma hist_ok_snoc k x h a b :
  hist_ok k x h -> (0 <= Z.of_nat x - k)%Z ->
  left !! x = Some a -> right !! Z.to_nat (Z.of_nat x - k) = Some b ->
  eqfn a b = true ->
  hist_ok k (S x) (h ++ [(Z.of_nat x + Z.of_nat start, Z.of_nat x - k + Z.of_nat start)%Z]).
Proof.
  intros [Hs Hall] Hy Ha Hb Heq.
  pose proof (lookup_lt_Some _ _ _ Ha) as Hxl.
  pose proof (lookup_lt_Some _ _ _ Hb) as Hyr.
  fold lmax in Hxl. fold rmax in Hyr.
  split.
  - apply StronglySorted_app_2; [|done|repeat constructor].
    intros p q Hp ->%list_elem_of_singleton.
    rewrite Forall_forall in Hall. destruct (Hall p Hp) as (H1 & H2 & _).
    unfold pairs_lt. cbn. lia.
  - apply Forall_app. split.
    + eapply Forall_impl; [exact Hall|]. intros p (H1 & H2 & H3).
      split; [lia|]. split; [lia|]. done.
    + constructor; [|constructor]. cbn [fst snd].
      split; [lia|]. split; [lia|]. exists a, b.
      replace (Z.to_nat (Z.of_nat x + Z.of_nat start - Z.of_nat start)) with x by lia.
      replace (Z.of_nat x - k + Z.of_nat start - Z.of_nat start)%Z
        with (Z.of_nat x - k)%Z by lia.
      done.
Qed.

Lemma snake_spec k : forall ls x h,
  ls = drop x left -> (0 <= Z.of_nat x - k)%Z -> hist_ok k x h ->
  exists x' h', snake eqfn start right k ls x h = Ok (x', h')
                /\ x <= x' /\ hist_ok k x' h'.
Proof.
  induction ls as [|a ls IH]; intros x h Hls Hy Hh; cbn [snake].
  - eauto.
  - assert (left !! x = Some a) as Ha.
    { assert (drop x left !! 0 = Some a) as H0 by (rewrite <- Hls; done).
      rewrite lookup_drop, Nat.add_0_r in H0. done. }
    assert (ls = drop (S x) left) as Hls'.
    { replace (S x) with (x + 1) by lia. rewrite <- drop_drop, <- Hls. done. }
    destruct (Z.ltb_spec (Z.of_nat x - k) (Z.of_nat (length right))) as [Hlt|Hge];
      [|eauto].
    rewrite py_index_nonneg by done.
    destruct (right !! Z.to_nat (Z.of_nat x - k)) as [b|] eqn:Hb.
    2:{ apply lookup_ge_None_1 in Hb. lia. }
    cbn [mbind res_bind]. destruct (eqfn a b) eqn:Heq; [|eauto].
    destruct (IH (S x) _ Hls' ltac:(lia) (hist_ok_snoc k x h a b Hh Hy Ha Hb Heq))
      as (x' & h' & Hs & Hle & Hh').
    exists x', h'. split; [done|]. split; [lia|done].
Qed.

End LCSProofs.

Section LCSRounds.
Context {A B : Type} (eqfn : A -> B -> bool).
Variables (start : nat) (left : list A) (right : list B).

Let lmax := length left.
Let rmax := length right.

(** The diagonal visited at the [j]-th iteration of round [d]. *)
Definition diag (d j : nat) : Z := (- Z.of_nat d + 2 * Z.of_nat j)%Z.

(** What round [d] leaves on diagonal [k]: the path stays in the
    quadrant, it is at least as far as [d] edits can reach, and its
    history is a history of matches. *)
Definition entry_ok (d : nat) (k : Z) (e : nat * history) : Prop :=
  (0 <= Z.of_nat e.1 - k)%Z /\ (Z.of_nat d + k <= 2 * Z.of_nat e.1)%Z
  /\ hist_ok eqfn start left right k e.1 e.2.

(** What round [d] finds in [furthest] when it starts. *)
Definition round_inv (d : nat) (f : gmap Z (nat * history)) : Prop :=
  match d with
  | 0 => f !! 1%Z = Some (0, [])
  | S d' => forall j, j <= d' ->
      exists e, f !! diag d' j = Some e /\ entry_ok d' (diag d' j) e
  end.

Definition final_ok (h : history) : Prop :=
  exists k x, hist_ok eqfn start left right k x h.

Lemma k_range_diag d : k_range d = map (diag d) (seq 0 (S d)).
Proof. reflexivity. Qed.

Lemma subscript_Some `{Countable K} {V} (f : gmap K V) k v :
  f !! k = Some v -> subscript f k = Ok v.
Proof. unfold subscript. intros ->. done. Qed.

Lemma hist_ok_nil k x : hist_ok eqfn start left right k x [].
Proof. split; constructor. Qed.

Lemma lcs_step_spec d f j :
  round_inv d f -> j <= d ->
  exists e, entry_ok d (diag d j) e
    /\ lcs_step eqfn start left right d f (diag d j)
       = Ok (if (lmax <=? e.1) && (Z.of_nat rmax <=? Z.of_nat e.1 - diag d j)%Z
             then inl e.2 else inr (<[diag d j := e]> f)).
Proof.
  intros Hinv Hj. unfold lcs_step.
  assert (exists x h,
    (if (diag d j =? - Z.of_nat d)%Z then subscript f (diag d j + 1)%Z
     else if negb (diag d j =? Z.of_nat d)%Z then
       a ← subscript f (diag d j - 1)%Z;
       b ← subscript f (diag d j + 1)%Z;
       if a.1 <? b.1 then Ok b else Ok (S a.1, a.2)
     else a ← subscript f (diag d j - 1)%Z; Ok (S a.1, a.2)) = Ok (x, h)
    /\ entry_ok d (diag d j) (x, h)) as (x & h & -> & Hy & Hfar & Hh).
  { destruct d as [|d'].
    - assert (j = 0) as -> by lia. cbn in Hinv.
      exists 0, [].
      change (diag 0 0) with 0%Z. change (Z.of_nat 0) with 0%Z.
      change (- 0)%Z with 0%Z. change (0 + 1)%Z with 1%Z. cbn [Z.eqb].
      split; [exact (subscript_Some _ _ _ Hinv)|].
      split; [cbn; lia|]. split; [cbn; lia|]. apply hist_ok_nil.
    - cbn in Hinv.
      destruct (Z.eqb_spec (diag (S d') j) (- Z.of_nat (S d'))) as [Hk|Hk].
      + assert (j = 0) as -> by (unfold diag in Hk; lia).
        destruct (Hinv 0 ltac:(lia)) as ([x h] & Hf & Hy & Hfar & Hh).
        clear Hinv.
        exists x, h.
        replace (diag (S d') 0 + 1)%Z with (diag d' 0) by (unfold diag; lia).
        rewrite (subscript_Some _ _ _ Hf). split; [done|].
        unfold entry_ok, diag in *. cbn [fst snd] in *.
        split; [cbn [fst]; lia|]. split; [cbn [fst]; lia|].
        eapply hist_ok_weaken; [exact Hh|lia|lia].
      + assert (1 <= j) as Hj1 by (unfold diag in Hk; lia).
        destruct (Hinv (j - 1) ltac:(lia)) as ([xa ha] & Hfa & Hya & Hfara & Hha).
        cbn [fst snd] in *.
        destruct (Z.eqb_spec (diag (S d') j) (Z.of_nat (S d'))) as [Hk'|Hk'];
          cbn [negb].
        * clear Hinv. exists (S xa), ha.
          replace (diag (S d') j - 1)%Z with (diag d' (j - 1)) by (unfold diag; lia).
          rewrite (subscript_Some _ _ _ Hfa). cbn [mbind res_bind fst snd].
          split; [done|]. unfold entry_ok, diag in *. cbn [fst snd] in *.
          split; [cbn [fst]; lia|]. split; [cbn [fst]; lia|].
          eapply hist_ok_weaken; [exact Hha|lia|lia].
        * assert (j <= d') as Hjd by (unfold diag in Hk'; lia).
          destruct (Hinv j Hjd) as ([xb hb] & Hfb & Hyb & Hfarb & Hhb).
          clear Hinv.
          cbn [fst snd] in *.
          destruct (xa <? xb) eqn:Hlt.
          -- exists xb, hb.
             replace (diag (S d') j - 1)%Z with (diag d' (j - 1)) by (unfold diag; lia).
             replace (diag (S d') j + 1)%Z with (diag d' j) by (unfold diag; lia).
             rewrite (subscript_Some _ _ _ Hfa), (subscript_Some _ _ _ Hfb).
             cbn [mbind res_bind fst snd]. rewrite Hlt.
             split; [done|]. unfold entry_ok, diag in *. cbn [fst snd] in *.
             split; [cbn [fst]; lia|]. split; [cbn [fst]; lia|].
             eapply hist_ok_weaken; [exact Hhb|lia|lia].
          -- exists (S xa), ha.
             replace (diag (S d') j - 1)%Z with (diag d' (j - 1)) by (unfold diag; lia).
             replace (diag (S d') j + 1)%Z with (diag d' j) by (unfold diag; lia).
             rewrite (subscript_Some _ _ _ Hfa), (subscript_Some _ _ _ Hfb).
             cbn [mbind res_bind fst snd]. rewrite Hlt.
             split; [done|]. unfold entry_ok, diag in *. cbn [fst snd] in *.
             split; [cbn [fst]; lia|]. split; [cbn [fst]; lia|].
             eapply hist_ok_weaken; [exact Hha|lia|lia]. }
  cbn [fst snd] in *. cbn [mbind res_bind].
  destruct (snake_spec eqfn start left right (diag d j) (drop x left) x h
              eq_refl Hy Hh) as (x' & h' & -> & Hle & Hh').
  cbn [mbind res_bind]. exists (x', h'). split.
  - unfold entry_ok. cbn [fst snd]. split; [lia|]. split; [lia|]. done.
  - cbn [fst snd]. subst lmax rmax. destruct (_ && _); done.
Qed.

Lemma round_inv_insert d f j e :
  round_inv d f -> j <= d -> round_inv d (<[diag d j := e]> f).
Proof.
  destruct d as [|d']; cbn [round_inv].
  - intros Hf Hj. rewrite lookup_insert_ne; [done|]. unfold diag. lia.
  - intros Hf Hj i Hi. rewrite lookup_insert_ne; [auto|]. unfold diag. lia.
Qed.

(** The loop over [k] from its [j0]-th iteration on: it returns a history
    of matches or completes the round; in the last round it returns on the
    diagonal [lmax - rmax] at the latest. *)
Lemma lcs_k_loop_spec d : forall n j0 f,
  round_inv d f -> j0 + n = S d ->
  (forall j, j < j0 -> exists e, f !! diag d j = Some e /\ entry_ok d (diag d j) e) ->
  exists r, lcs_k_loop eqfn start left right d (map (diag d) (seq j0 n)) f = Ok r
    /\ match r with
       | inl h => final_ok h
       | inr f' => round_inv (S d) f' /\ ~ (d = lmax + rmax /\ j0 <= lmax)
       end.
Proof.
  induction n as [|n IH]; intros j0 f Hinv Hn Hdone; cbn [seq map lcs_k_loop].
  - exists (inr f). split; [done|]. split; [|lia].
    cbn [round_inv]. intros j Hj. apply Hdone. lia.
  - destruct (lcs_step_spec d f j0 Hinv ltac:(lia)) as ([x h] & He & ->).
    cbn [mbind res_bind fst snd].
    destruct ((lmax <=? x) && (Z.of_nat rmax <=? Z.of_nat x - diag d j0)%Z) eqn:Hret.
    + exists (inl h). split; [done|]. destruct He as (_ & _ & Hh).
      exists (diag d j0), x. exact Hh.
    + destruct (IH (S j0) (<[diag d j0 := (x, h)]> f)) as (r & Hr & Hpost).
      * apply round_inv_insert; [done|lia].
      * lia.
      * intros j Hj. destruct (decide (j = j0)) as [->|Hne].
        -- rewrite lookup_insert_eq. eauto.
        -- rewrite lookup_insert_ne by (unfold diag; lia). apply Hdone. lia.
      * exists r. split; [done|]. destruct r as [h'|f']; [done|].
        destruct Hpost as [Hround Hlast]. split; [done|].
        intros [Hd Hj0]. apply Hlast. split; [done|].
        destruct (decide (j0 = lmax)) as [->|]; [|lia].
        exfalso. destruct He as (Hy & Hfar & _). cbn [fst snd] in *.
        unfold diag in *. clear IH Hdone Hinv Hr Hround Hlast.
        apply andb_false_iff in Hret as [Hret|Hret].
        -- apply Nat.leb_gt in Hret. lia.
        -- apply Z.leb_gt in Hret. lia.
Qed.

Lemma lcs_d_loop_spec : forall n d f,
  round_inv d f -> d <= lmax + rmax -> d + n = lmax + rmax + 1 ->
  exists h, lcs_d_loop eqfn start left right (seq d n) f = Ok (Some h)
            /\ final_ok h.
Proof.
  induction n as [|n IH]; intros d f Hinv Hd Hn; [lia|].
  cbn [seq lcs_d_loop]. rewrite k_range_diag.
  destruct (lcs_k_loop_spec d (S d) 0 f Hinv ltac:(lia) ltac:(intros; lia))
    as ([h|f'] & -> & Hpost); cbn [mbind res_bind]; [eauto|].
  destruct Hpost as [Hround Hlast]. apply (IH (S d) f' Hround); lia.
Qed.

Lemma lcs_rounds :
  exists h, lcs_d_loop eqfn start left right (seq 0 (lmax + rmax + 1))
              {[ 1%Z := (0, []) ]} = Ok (Some h)
            /\ final_ok h.
Proof.
  apply lcs_d_loop_spec; [|lia|lia]. cbn [round_inv]. apply lookup_singleton_eq.
Qed.

End LCSRounds.

Section LCSCorrect.
Context {A B : Type} (eqfn : A -> B -> bool).

Lemma common_prefix_le (l : list A) (r : list B) :
  common_prefix eqfn l r <= length l /\ common_prefix eqfn l r <= length r.
Proof.
  revert r. induction l as [|a l IH]; intros [|b r]; cbn; try lia.
  destruct (eqfn a b); [|lia]. destruct (IH r). lia.
Qed.

Lemma common_prefix_lookup (l : list A) (r : list B) i :
  i < common_prefix eqfn l r ->
  exists a b, l !! i = Some a /\ r !! i = Some b /\ eqfn a b = true.
Proof.
  revert r i. induction l as [|a l IH]; intros [|b r] i; cbn; try lia.
  destruct (eqfn a b) eqn:Hab; [|lia].
  destruct i as [|i]; intros Hi; [eauto|]. apply (IH r i). lia.
Qed.

Lemma rev_lookup {X} (l : list X) i :
  i < length l -> rev l !! i = l !! (length l - S i).
Proof.
  intros Hi. rewrite rev_alt. apply (reverse_lookup l i Hi).
Qed.

Lemma common_suffix_lookup (l : list A) (r : list B) s t :
  t < common_prefix eqfn (rev (drop s l)) (rev (drop s r)) ->
  exists a b,
    l !! (length l - common_prefix eqfn (rev (drop s l)) (rev (drop s r)) + t) = Some a
    /\ r !! (length r - common_prefix eqfn (rev (drop s l)) (rev (drop s r)) + t) = Some b
    /\ eqfn a b = true.
Proof.
  set (n := common_prefix eqfn (rev (drop s l)) (rev (drop s r))). intros Ht.
  destruct (common_prefix_le (rev (drop s l)) (rev (drop s r))) as [Hl Hr].
  fold n in Hl, Hr. rewrite length_rev, length_drop in Hl.
  rewrite length_rev, length_drop in Hr.
  destruct (common_prefix_lookup (rev (drop s l)) (rev (drop s r)) (n - S t))
    as (a & b & Ha & Hb & Hab); [fold n; lia|].
  rewrite rev_lookup, lookup_drop, length_drop in Ha by (rewrite length_drop; lia).
  rewrite rev_lookup, lookup_drop, length_drop in Hb by (rewrite length_drop; lia).
  exists a, b. split; [|split; [|done]].
  - rewrite <- Ha. f_equal. lia.
  - rewrite <- Hb. f_equal. lia.
Qed.

Lemma sorted_by_lookup (l : list (Z * Z)) :
  (forall i j p q, i < j -> l !! i = Some p -> l !! j = Some q -> pairs_lt p q) ->
  StronglySorted pairs_lt l.
Proof.
  induction l as [|p l IH]; intros H; constructor.
  - apply IH. intros i j p' q' Hij Hp Hq. apply (H (S i) (S j)); [lia|done|done].
  - apply Forall_forall. intros q [j Hq]%list_elem_of_lookup.
    apply (H 0 (S j)); [lia|done|done].
Qed.

Lemma lookup_zrange a b i z :
  zrange a b !! i = Some z <-> z = Z.of_nat (a + i) /\ i < b - a.
Proof.
  unfold zrange. rewrite list_lookup_fmap. split.
  - destruct (seq a (b - a) !! i) as [n|] eqn:Hn; [|done].
    apply lookup_seq in Hn as [-> Hi]. cbn. intros [= <-]. done.
  - intros [-> Hi]. rewrite lookup_seq_lt by done. done.
Qed.

Lemma diagonal_sorted n :
  StronglySorted pairs_lt (map (fun e => (e, e)) (zrange 0 n)).
Proof.
  apply sorted_by_lookup. intros i j p q Hij Hp Hq.
  rewrite list_lookup_fmap in Hp, Hq.
  destruct (zrange 0 n !! i) as [zi|] eqn:Hi; [|done].
  destruct (zrange 0 n !! j) as [zj|] eqn:Hj; [|done].
  apply lookup_zrange in Hi as [-> _]. apply lookup_zrange in Hj as [-> _].
  cbn in Hp, Hq. injection Hp as <-. injection Hq as <-.
  unfold pairs_lt. cbn. lia.
Qed.

Lemma suffix_sorted a a' b b' :
  StronglySorted pairs_lt (zip (zrange a a') (zrange b b')).
Proof.
  apply sorted_by_lookup. intros i j [p1 p2] [q1 q2] Hij Hp Hq.
  apply lookup_zip_Some in Hp as [Hp1 Hp2]. apply lookup_zip_Some in Hq as [Hq1 Hq2].
  apply lookup_zrange in Hp1 as [-> _]. apply lookup_zrange in Hp2 as [-> _].
  apply lookup_zrange in Hq1 as [-> _]. apply lookup_zrange in Hq2 as [-> _].
  unfold pairs_lt. cbn. lia.
Qed.

Lemma prefix_pair_ok (l : list A) (r : list B) p :
  p ∈ map (fun e => (e, e)) (zrange 0 (common_prefix eqfn l r)) ->
  pair_ok eqfn l r p /\ (p.1 < Z.of_nat (common_prefix eqfn l r))%Z
  /\ (p.2 < Z.of_nat (common_prefix eqfn l r))%Z.
Proof.
  intros (e & -> & [i Hi]%list_elem_of_lookup)%list_elem_of_fmap.
  apply lookup_zrange in Hi as [-> Hi]. cbn [fst snd].
  destruct (common_prefix_lookup l r i ltac:(lia)) as (a & b & Ha & Hb & Hab).
  split; [|lia]. unfold pair_ok. cbn [fst snd].
  split; [lia|]. split; [lia|]. exists a, b.
  rewrite Nat.add_0_l, Nat2Z.id. done.
Qed.

Lemma suffix_pair_ok (l : list A) (r : list B) s p :
  let n := common_prefix eqfn (rev (drop s l)) (rev (drop s r)) in
  p ∈ zip (zrange (length l - n) (length l)) (zrange (length r - n) (length r)) ->
  pair_ok eqfn l r p /\ (Z.of_nat (length l - n) <= p.1)%Z
  /\ (Z.of_nat (length r - n) <= p.2)%Z.
Proof.
  intros n [i Hi]%list_elem_of_lookup. destruct p as [p1 p2].
  apply lookup_zip_Some in Hi as [H1 H2].
  apply lookup_zrange in H1 as [-> H1]. apply lookup_zrange in H2 as [-> H2].
  cbn [fst snd].
  destruct (common_prefix_le (rev (drop s l)) (rev (drop s r))) as [Hl Hr].
  fold n in Hl, Hr. rewrite length_rev, length_drop in Hl.
  rewrite length_rev, length_drop in Hr.
  destruct (common_suffix_lookup l r s i) as (a & b & Ha & Hb & Hab);
    [fold n; lia|]. fold n in Ha, Hb.
  split; [|lia]. unfold pair_ok. cbn [fst snd].
  split; [lia|]. split; [lia|]. exists a, b.
  rewrite !Nat2Z.id. done.
Qed.

(** [longest_common_subsequence] always returns, and what it returns is a
    common subsequence of its two arguments. *)
Lemma lcs_common_subsequence (l : list A) (r : list B) :
  exists ms, longest_common_subsequence eqfn l r = Ok (Some ms)
             /\ common_subsequence eqfn l r ms.
Proof.
  unfold longest_common_subsequence.
  set (start := common_prefix eqfn l r).
  set (n := common_prefix eqfn (rev (drop start l)) (rev (drop start r))).
  set (left := take (length l - n - start) (drop start l)).
  set (right := take (length r - n - start) (drop start r)).
  destruct (common_prefix_le l r) as [Hsl Hsr]. fold start in Hsl, Hsr.
  destruct (common_prefix_le (rev (drop start l)) (rev (drop start r))) as [Hnl Hnr].
  fold n in Hnl, Hnr. rewrite length_rev, length_drop in Hnl.
  rewrite length_rev, length_drop in Hnr.
  assert (length left = length l - n - start) as Hlmax.
  { unfold left. rewrite length_take, length_drop. lia. }
  assert (length right = length r - n - start) as Hrmax.
  { unfold right. rewrite length_take, length_drop. lia. }
  destruct (Nat.eqb_spec (length left + length right) 0) as [Hz|Hnz].
  - eexists. split; [reflexivity|]. split; [apply diagonal_sorted|].
    apply Forall_forall. intros p (e & -> & [i Hi]%list_elem_of_lookup)%list_elem_of_fmap.
    apply lookup_zrange in Hi as [-> Hi]. rewrite Nat.add_0_l.
    destruct (decide (i < start)) as [Hlt|Hge].
    + apply (prefix_pair_ok l r). apply list_elem_of_fmap. eexists. split; [done|].
      apply list_elem_of_lookup. exists i. apply lookup_zrange. fold start. split; [done|lia].
    + apply (suffix_pair_ok l r start). fold n.
      apply list_elem_of_lookup. exists (i - start). apply lookup_zip_Some.
      split; apply lookup_zrange; (split; [f_equal; lia|lia]).
  - destruct (lcs_rounds eqfn start left right) as (h & -> & k & x & Hs & Hall).
    cbn [mbind res_bind]. eexists. split; [reflexivity|].
    rewrite Forall_forall in Hall. split.
    + apply StronglySorted_app_2; [|apply diagonal_sorted|].
      * intros p q Hp Hq. apply (prefix_pair_ok l r) in Hp as (_ & Hp1 & Hp2).
        fold start in Hp1, Hp2. apply elem_of_app in Hq as [Hq|Hq].
        -- destruct (Hall q Hq) as (H1 & H2 & _). unfold pairs_lt. lia.
        -- apply (suffix_pair_ok l r start) in Hq as (_ & Hq1 & Hq2).
           fold n in Hq1, Hq2. unfold pairs_lt. lia.
      * apply StronglySorted_app_2; [|done|apply suffix_sorted].
        intros p q Hp Hq. destruct (Hall p Hp) as (H1 & H2 & _).
        apply (suffix_pair_ok l r start) in Hq as (_ & Hq1 & Hq2).
        fold n in Hq1, Hq2. unfold pairs_lt. lia.
    + apply Forall_forall. intros p Hp.
      apply elem_of_app in Hp as [Hp|Hp]; [apply (prefix_pair_ok l r p Hp)|].
      apply elem_of_app in Hp as [Hp|Hp];
        [|apply (suffix_pair_ok l r start p Hp)].
      destruct (Hall p Hp) as (H1 & H2 & a & b & Ha & Hb & Hab).
      split; [lia|]. split; [lia|]. exists a, b.
      split; [|split; [|done]].
      * unfold left in Ha. rewrite lookup_take_lt, lookup_drop in Ha by lia.
        rewrite <- Ha. f_equal. lia.
      * unfold right in Hb. rewrite lookup_take_lt, lookup_drop in Hb by lia.
        rewrite <- Hb. f_equal. lia.
Qed.

(** Two sequences that are equal item by item are trimmed away whole. *)
Lemma lcs_identity (l : list A) (r : list B) :
  common_prefix eqfn l r = length l -> length r = length l ->
  longest_common_subsequence eqfn l r
  = Ok (Some (map (fun e => (e, e)) (zrange 0 (length l)))).
Proof.
  intros Hp Hlen. unfold longest_common_subsequence. rewrite Hp.
  rewrite !drop_ge by lia. cbn [rev common_prefix take length Nat.add Nat.eqb].
  rewrite !take_nil. reflexivity.
Qed.

End LCSCorrect.

(** ** The match maps *)

(** The two maps are inverse to each other, and the list of pairs holds
    exactly the pairs of the maps, each once. *)
Definition consistent (st : Differ) : Prop :=
  (forall l r, l2rmap st !! l = Some r <-> r2lmap st !! r = Some l)
  /\ (forall l r, (l, r) ∈ matches st <-> l2rmap st !! l = Some r)
  /\ NoDup (matches st).

Lemma set_trees_consistent left right : consistent (set_trees left right).
Proof.
  split; [|split]; cbn.
  - intros l r. rewrite !lookup_empty. done.
  - intros l r. rewrite lookup_empty. split; [inversion 1|done].
  - constructor.
Qed.

Lemma append_match_consistent l r st :
  consistent st -> l2rmap st !! l = None -> r2lmap st !! r = None ->
  consistent (append_match l r st).
Proof.
  intros (Hinv & Hms & Hnd) Hl Hr. split; [|split]; cbn.
  - intros l' r'. destruct (decide (l' = l)) as [->|Hl'];
      destruct (decide (r' = r)) as [->|Hr'];
      rewrite ?lookup_insert_eq, ?lookup_insert_ne by done.
    + done.
    + split; [congruence|]. intros H%Hinv. congruence.
    + split; [|congruence]. intros H%Hinv. congruence.
    + apply Hinv.
  - intros l' r'. rewrite elem_of_app, list_elem_of_singleton.
    pose proof (Hms l' r') as Hm.
    destruct (decide (l' = l)) as [->|Hl'];
      rewrite ?lookup_insert_eq, ?lookup_insert_ne by done.
    + split; [intros [?%Hm|[= ->]]; congruence|]. intros [= ->]. auto.
    + split; [intros [?%Hm|[= -> ->]]; done|]. intros ?%Hm. auto.
  - apply NoDup_app. split; [done|]. split; [|apply NoDup_singleton].
    intros [l' r'] Hin [= -> ->]%list_elem_of_singleton. apply Hms in Hin.
    congruence.
Qed.

Lemma remove_pair_spec p : forall ms,
  NoDup ms -> p ∈ ms ->
  exists ms', remove_pair p ms = Ok ms' /\ NoDup ms'
              /\ forall q, q ∈ ms' <-> q ∈ ms /\ q <> p.
Proof.
  induction ms as [|q ms IH]; intros Hnd Hin; [inversion Hin|].
  apply NoDup_cons in Hnd as [Hq Hnd]. cbn [remove_pair].
  destruct (bool_decide_reflect (q = p)) as [->|Hne].
  - exists ms. split; [done|]. split; [done|]. intros q.
    rewrite elem_of_cons. split; [|intros [[?|?] ?]; done].
    intros Hq'. split; [auto|]. intros ->. done.
  - apply elem_of_cons in Hin as [->|Hin]; [done|].
    destruct (IH Hnd Hin) as (ms' & -> & Hnd' & Hel). cbn [mbind res_bind].
    exists (q :: ms'). split; [done|]. split.
    + apply NoDup_cons. split; [|done]. intros H%Hel. tauto.
    + intros q'. rewrite !elem_of_cons, Hel. split.
      * intros [->|[? ?]]; auto.
      * intros [[->|?] ?]; auto.
Qed.

Lemma remove_match_consistent l r st :
  consistent st -> l2rmap st !! l = Some r ->
  exists st', remove_match l r st = Ok st' /\ consistent st'
              /\ l2rmap st' = delete l (l2rmap st)
              /\ r2lmap st' = delete r (r2lmap st)
              /\ left_tree st' = left_tree st.
Proof.
  intros (Hinv & Hms & Hnd) Hl. unfold remove_match.
  rewrite (subscript_Some _ _ _ Hl). cbn [mbind res_bind].
  rewrite (subscript_Some _ _ _ (proj1 (Hinv l r) Hl)). cbn [mbind res_bind].
  destruct (remove_pair_spec (l, r) (matches st) Hnd (proj2 (Hms l r) Hl))
    as (ms' & -> & Hnd' & Hel). cbn [mbind res_bind].
  eexists. split; [reflexivity|]. cbn. split; [|done].
  split; [|split; [|done]]; cbn.
  - intros l' r'. destruct (decide (l' = l)) as [->|Hl'];
      destruct (decide (r' = r)) as [->|Hr'];
      rewrite ?lookup_delete_eq, ?lookup_delete_ne by done.
    + done.
    + split; [done|]. intros H%Hinv. congruence.
    + split; [|done]. intros H%Hinv. apply Hinv in Hl. congruence.
    + apply Hinv.
  - intros l' r'. rewrite Hel. pose proof (Hms l' r') as Hm.
    destruct (decide (l' = l)) as [->|Hl'];
      rewrite ?lookup_delete_eq, ?lookup_delete_ne by done.
    + split; [|done]. intros [H%Hm Hne]. congruence.
    + split; [tauto|]. intros H%Hm. split; [done|]. congruence.
Qed.

(** Each node takes part in at most one pair. *)
Lemma consistent_NoDup st :
  consistent st -> NoDup (matches st).*1 /\ NoDup (matches st).*2.
Proof.
  intros (Hinv & Hms & Hnd). split.
  - apply NoDup_fmap_2_strong; [|done].
    intros [l r] [l' r'] H1%Hms H2%Hms. cbn. intros ->. congruence.
  - apply NoDup_fmap_2_strong; [|done].
    intros [l r] [l' r'] H1%Hms%Hinv H2%Hms%Hinv. cbn. intros ->. congruence.
Qed.

(** ** Nodes and identities *)

Lemma elem_of_flat_map {X Y} (f : X -> list Y) (l : list X) (y : Y) :
  y ∈ flat_map f l <-> exists x, x ∈ l /\ y ∈ f x.
Proof.
  rewrite list_elem_of_In, in_flat_map. split; intros (x & Hx & Hy); exists x.
  - rewrite !list_elem_of_In. done.
  - rewrite <- !list_elem_of_In. done.
Qed.

Lemma subtrees_refl t : t ∈ subtrees t.
Proof. destruct t. cbn. apply list_elem_of_here. Qed.

Lemma subtrees_trans : forall t n c,
  n ∈ subtrees t -> c ∈ subtrees n -> c ∈ subtrees t.
Proof.
  induction t as [i tg a tx tl ks IH] using tree_ind_kids. intros n c Hn Hc.
  cbn [subtrees kids] in *. apply elem_of_cons in Hn as [->|Hn]; [done|].
  apply elem_of_cons. right. apply elem_of_flat_map in Hn as (k & Hk & Hn).
  apply elem_of_flat_map. exists k. split; [done|].
  rewrite Forall_forall in IH. eapply IH; done.
Qed.

Lemma kids_subtrees n c : c ∈ kids n -> c ∈ subtrees n.
Proof.
  intros Hc. destruct n as [i tg a tx tl ks]. cbn [subtrees kids] in *.
  apply elem_of_cons. right. apply elem_of_flat_map. exists c.
  split; [done|apply subtrees_refl].
Qed.

Lemma kids_strict t n c :
  n ∈ subtrees t -> c ∈ kids n -> c ∈ flat_map subtrees (kids t).
Proof.
  intros Hn Hc. destruct t as [i tg a tx tl ks]. cbn [subtrees kids] in *.
  apply elem_of_flat_map. apply elem_of_cons in Hn as [->|Hn].
  - exists c. split; [done|apply subtrees_refl].
  - apply elem_of_flat_map in Hn as (k & Hk & Hn). exists k. split; [done|].
    eapply subtrees_trans; [exact Hn|]. apply kids_subtrees, Hc.
Qed.

Lemma ids_unfold t : ids t = nid t :: map nid (flat_map subtrees (kids t)).
Proof. destruct t. reflexivity. Qed.

Lemma subtrees_ids t n : n ∈ subtrees t -> nid n ∈ ids t.
Proof. intros Hn. unfold ids. apply (list_elem_of_fmap_2 nid _ _ Hn). Qed.

(** Below the root every node has an identity other than the root's. *)
Lemma kids_ids t n c :
  NoDup (ids t) -> n ∈ subtrees t -> c ∈ kids n ->
  nid c ∈ ids t /\ nid c <> nid t.
Proof.
  intros Hnd Hn Hc. pose proof (kids_strict t n c Hn Hc) as Hs.
  rewrite ids_unfold in *. apply NoDup_cons in Hnd as [Hroot _].
  assert (nid c ∈ map nid (flat_map subtrees (kids t))) as Hin
    by apply (list_elem_of_fmap_2 nid _ _ Hs).
  split; [apply elem_of_cons; auto|]. intros Heq. rewrite Heq in Hin. done.
Qed.

Lemma find_some_elem {X} (f : X -> bool) (l : list X) x :
  x ∈ l -> f x = true ->
  exists y, List.find f l = Some y /\ y ∈ l /\ f y = true.
Proof.
  intros Hx Hf. destruct (List.find f l) as [y|] eqn:Hy.
  - apply find_some in Hy as [Hin Hfy]. exists y.
    rewrite list_elem_of_In. done.
  - apply list_elem_of_In in Hx. pose proof (find_none _ _ Hy x Hx). congruence.
Qed.

Lemma find_node_ids i t :
  i ∈ ids t ->
  exists n, find_node i t = Some n /\ n ∈ subtrees t /\ nid n = i.
Proof.
  intros (n & -> & Hn)%list_elem_of_fmap.
  destruct (find_some_elem (fun m => nid m =? nid n) (subtrees t) n Hn
              (Nat.eqb_refl _)) as (y & Hy & Hin & Hf).
  exists y. split; [done|]. split; [done|]. apply Nat.eqb_eq, Hf.
Qed.

Lemma flat_map_perm {X Y} (f g : X -> list Y) (l : list X) :
  Forall (fun x => f x ≡ₚ g x) l -> flat_map f l ≡ₚ flat_map g l.
Proof.
  induction 1 as [|x l Hx _ IH]; cbn; [done|]. rewrite Hx, IH. done.
Qed.

Lemma post_order_subtrees : forall t, post_order_traverse t ≡ₚ subtrees t.
Proof.
  induction t as [i tg a tx tl ks IH] using tree_ind_kids.
  cbn [post_order_traverse subtrees kids].
  rewrite (flat_map_perm _ _ _ IH). rewrite Permutation_app_comm. done.
Qed.

Lemma remove_first_sublist i : forall l, remove_first i l `sublist_of` l.
Proof.
  induction l as [|c l IH]; cbn; [done|].
  destruct (nid c =? i); [apply sublist_cons, reflexivity|].
  apply sublist_skip, IH.
Qed.

Lemma remove_first_elem i l t : t ∈ remove_first i l -> t ∈ l.
Proof. apply sublist_subseteq, remove_first_sublist. Qed.

Lemma remove_first_NoDup i l :
  NoDup (nid <$> l) -> NoDup (nid <$> remove_first i l).
Proof.
  intros Hnd. eapply sublist_NoDup; [exact Hnd|].
  apply fmap_sublist, remove_first_sublist.
Qed.

Lemma remove_first_fresh i : forall l t,
  NoDup (nid <$> l) -> t ∈ remove_first i l -> nid t <> i.
Proof.
  induction l as [|c l IH]; intros t Hnd Ht; cbn in *; [inversion Ht|].
  apply NoDup_cons in Hnd as [Hc Hnd].
  destruct (Nat.eqb_spec (nid c) i) as [<-|Hne].
  - intros Heq. apply Hc. rewrite <- Heq. apply (list_elem_of_fmap_2 nid _ _ Ht).
  - apply elem_of_cons in Ht as [->|Ht]; [done|]. apply IH; done.
Qed.

Lemma nid_inj_on l t t' :
  NoDup (nid <$> l) -> t ∈ l -> t' ∈ l -> nid t = nid t' -> t = t'.
Proof.
  intros Hnd [i Hi]%list_elem_of_lookup [j Hj]%list_elem_of_lookup Heq.
  assert (i = j) as ->.
  { eapply (NoDup_lookup _ _ _ (nid t) Hnd); rewrite list_lookup_fmap.
    - rewrite Hi. done.
    - rewrite Hj, Heq. done. }
  congruence.
Qed.

Lemma breadth_first_loop_subtrees : forall fuel queue t,
  t ∈ breadth_first_loop fuel queue -> exists k, k ∈ queue /\ t ∈ subtrees k.
Proof.
  induction fuel as [|fuel IH]; intros [|item queue] t Ht; cbn in Ht;
    try (inversion Ht; fail).
  apply elem_of_cons in Ht as [->|Ht].
  - exists item. split; [apply list_elem_of_here|apply subtrees_refl].
  - apply IH in Ht as (k & Hk & Ht). apply elem_of_app in Hk as [Hk|Hk].
    + exists k. split; [apply list_elem_of_further, Hk|done].
    + exists item. split; [apply list_elem_of_here|].
      eapply subtrees_trans; [apply kids_subtrees, Hk|done].
Qed.

Lemma breadth_first_subtrees t n :
  n ∈ breadth_first_traverse t -> n ∈ subtrees t.
Proof.
  intros (k & ->%list_elem_of_singleton & Hn)%breadth_first_loop_subtrees. done.
Qed.

(** ** The matcher keeps the maps consistent *)

Lemma best_match_spec (ratio : tree -> Q) : forall cands mx0 n0,
  ((best_match ratio cands mx0 n0).2 = n0
   /\ (best_match ratio cands mx0 n0).1 = mx0)
  \/ exists c, (best_match ratio cands mx0 n0).2 = Some c /\ c ∈ cands.
Proof.
  induction cands as [|c rest IH]; intros mx0 n0; cbn [best_match]; [auto|].
  destruct (Qlt_bool mx0 (ratio c)) eqn:Hlt; cbn [fst snd].
  - right. destruct (Qeq_bool (ratio c) 1).
    + exists c. split; [done|apply list_elem_of_here].
    + destruct (IH (ratio c) (Some c)) as [[-> _]|(c' & -> & Hc')].
      * exists c. split; [done|apply list_elem_of_here].
      * exists c'. split; [done|apply list_elem_of_further, Hc'].
  - destruct (Qeq_bool (ratio c) 1); [auto|].
    destruct (IH mx0 n0) as [?|(c' & -> & Hc')]; [auto|].
    right. exists c'. split; [done|apply list_elem_of_further, Hc'].
Qed.

Section MatchInvariant.
Variable dmp_levenshtein : pystr -> pystr -> nat.
Variable cfg : Differ_config.
Variables L R : tree.
Hypothesis F_pos : (0 < F cfg)%Q.
Hypothesis L_ids : NoDup (ids L).
Hypothesis R_ids : NoDup (ids R).

(** A candidate accepted by the threshold is a node. *)
Lemma best_match_accepted (ratio : tree -> Q) cands :
  Qle_bool (F cfg) (best_match ratio cands 0%Q None).1 = true ->
  exists c, (best_match ratio cands 0%Q None).2 = Some c /\ c ∈ cands.
Proof using F_pos.
  intros Hle. destruct (best_match_spec ratio cands 0%Q None)
    as [[_ Hmx]|?]; [|done].
  rewrite Hmx in Hle. apply Qle_bool_iff in Hle.
  exfalso. exact (Qlt_not_le _ _ F_pos Hle).
Qed.

(** The maps are consistent, and they pair nodes of the left tree below
    its root with nodes other than the right root. *)
Definition match_inv (st : Differ) : Prop :=
  consistent st /\ left_tree st = L
  /\ forall l r, l2rmap st !! l = Some r ->
       l ∈ ids L /\ l <> nid L /\ r <> nid R.

Lemma match_inv_set_trees : match_inv (set_trees L R).
Proof.
  split; [apply set_trees_consistent|]. split; [done|].
  intros l r. cbn. rewrite lookup_empty. done.
Qed.

Lemma match_inv_append l r st :
  match_inv st -> l2rmap st !! l = None -> r2lmap st !! r = None ->
  l ∈ ids L -> l <> nid L -> r <> nid R ->
  match_inv (append_match l r st).
Proof.
  intros (Hc & Ht & Hdom) Hl Hr H1 H2 H3.
  split; [apply append_match_consistent; done|]. split; [done|].
  intros l' r'. cbn. destruct (decide (l' = l)) as [->|Hne].
  - rewrite lookup_insert_eq. intros [= <-]. done.
  - rewrite lookup_insert_ne by done. apply Hdom.
Qed.

Lemma match_inv_remove l r st :
  match_inv st -> l2rmap st !! l = Some r ->
  exists st', remove_match l r st = Ok st' /\ match_inv st'
              /\ l2rmap st' = delete l (l2rmap st)
              /\ r2lmap st' = delete r (r2lmap st).
Proof.
  intros (Hc & Ht & Hdom) Hl.
  destruct (remove_match_consistent l r st Hc Hl)
    as (st' & Hrm & Hc' & Hl' & Hr' & Ht').
  exists st'. split; [done|]. split; [|done].
  split; [done|]. split; [congruence|].
  intros l' r'. rewrite Hl'. intros [_ H]%lookup_delete_Some. apply Hdom, H.
Qed.

Lemma match_inv_r2l st r l :
  match_inv st -> r2lmap st !! r = Some l -> l2rmap st !! l = Some r.
Proof. intros ((Hinv & _) & _) H. apply Hinv, H. Qed.

Lemma match_inv_r2l_None st r :
  match_inv st -> (forall l, l2rmap st !! l <> Some r) -> r2lmap st !! r = None.
Proof.
  intros Hm Hno. destruct (r2lmap st !! r) as [l|] eqn:Hr; [|done].
  exfalso. apply (Hno l). eapply match_inv_r2l; done.
Qed.

(** *** The greedy pass *)

Lemma greedy_pass_inv : forall lnodes rnodes st,
  match_inv st ->
  NoDup (nid <$> lnodes) -> NoDup (nid <$> rnodes) ->
  (forall t, t ∈ lnodes ->
     nid t ∈ ids L /\ nid t <> nid L /\ l2rmap st !! nid t = None) ->
  (forall t, t ∈ rnodes -> nid t <> nid R /\ r2lmap st !! nid t = None) ->
  exists st', greedy_pass dmp_levenshtein cfg lnodes rnodes st = Ok st'
              /\ match_inv st'.
Proof using F_pos.
  induction lnodes as [|lnode rest IH]; intros rnodes st Hm Hndl Hndr Hl Hr;
    cbn [greedy_pass]; [eauto|].
  rewrite fmap_cons in Hndl. apply NoDup_cons in Hndl as [Hfresh Hndl].
  destruct (best_match (ratio_of dmp_levenshtein cfg st lnode) rnodes 0%Q None)
    as [max_match match_node] eqn:Hbest.
  destruct (Qle_bool (F cfg) max_match) eqn:Hle.
  - pose proof (best_match_accepted (ratio_of dmp_levenshtein cfg st lnode) rnodes)
      as Hacc. rewrite Hbest in Hacc. cbn [fst snd] in Hacc.
    destruct (Hacc Hle) as (m & -> & Hmin).
    destruct (Hl lnode (list_elem_of_here _ _)) as (Hl1 & Hl2 & Hl3).
    destruct (Hr m Hmin) as (Hr1 & Hr2).
    apply IH.
    + apply match_inv_append; done.
    + done.
    + apply remove_first_NoDup, Hndr.
    + intros t Ht. destruct (Hl t (list_elem_of_further _ _ _ Ht)) as (H1 & H2 & H3).
      split; [done|]. split; [done|]. cbn. rewrite lookup_insert_ne; [done|].
      intros Heq. apply Hfresh. rewrite Heq. apply (list_elem_of_fmap_2 nid _ _ Ht).
    + intros t Ht. destruct (Hr t (remove_first_elem _ _ _ Ht)) as (H1 & H2).
      split; [done|]. cbn. rewrite lookup_insert_ne; [done|].
      intros Heq. apply (remove_first_fresh _ _ _ Hndr Ht). done.
  - apply IH; try done. intros t Ht. apply Hl, list_elem_of_further, Ht.
Qed.

(** *** The top-down pass *)

Lemma prune_matched_subset st : forall snapshot lchilds rchilds t,
  (t ∈ (prune_matched st snapshot lchilds rchilds).1 -> t ∈ lchilds)
  /\ (t ∈ (prune_matched st snapshot lchilds rchilds).2 -> t ∈ rchilds).
Proof.
  induction snapshot as [|rchild rest IH]; intros lchilds rchilds t;
    cbn [prune_matched]; [done|].
  destruct (r2lmap st !! nid rchild) as [l|]; [|apply IH].
  destruct (existsb _ lchilds); [|apply IH].
  destruct (IH (remove_first l lchilds) (remove_first (nid rchild) rchilds) t)
    as [H1 H2].
  split; intros H; eapply remove_first_elem; eauto.
Qed.

Lemma rematch_children_inv lchilds : forall rchilds st,
  match_inv st ->
  (forall c, c ∈ lchilds -> nid c ∈ ids L /\ nid c <> nid L) ->
  (forall c, c ∈ rchilds -> nid c <> nid R) ->
  exists st', rematch_children dmp_levenshtein cfg lchilds rchilds st = Ok st'
              /\ match_inv st'.
Proof using F_pos.
  induction rchilds as [|rchild rest IH]; intros st Hm Hl Hr;
    cbn [rematch_children]; [eauto|].
  destruct (best_match (fun lchild => ratio_of dmp_levenshtein cfg st lchild rchild)
              lchilds 0%Q None) as [max_match match_node] eqn:Hbest.
  assert (forall c, c ∈ rest -> nid c <> nid R) as Hrest
    by (intros c Hc; apply Hr, list_elem_of_further, Hc).
  destruct (Qle_bool (F cfg) max_match) eqn:Hle; [|apply IH; done].
  pose proof (best_match_accepted
    (fun lchild => ratio_of dmp_levenshtein cfg st lchild rchild) lchilds) as Hacc.
  rewrite Hbest in Hacc. cbn [fst snd] in Hacc.
  destruct (Hacc Hle) as (m & -> & Hmin).
  destruct (Hl m Hmin) as [Hm1 Hm2].
  pose proof (Hr rchild (list_elem_of_here _ _)) as Hr1.
  assert (exists st1,
    match r2lmap st !! nid rchild with
    | Some l => remove_match l (nid rchild) st
    | None => Ok st
    end = Ok st1 /\ match_inv st1 /\ r2lmap st1 !! nid rchild = None)
    as (st1 & -> & Hm' & Hfree).
  { destruct (r2lmap st !! nid rchild) as [l|] eqn:Hold; [|eauto].
    destruct (match_inv_remove l (nid rchild) st Hm (match_inv_r2l _ _ _ Hm Hold))
      as (st1 & -> & Hm' & _ & Hr2l).
    exists st1. split; [done|]. split; [done|].
    rewrite Hr2l. apply lookup_delete_eq. }
  cbn [mbind res_bind].
  assert (exists st2,
    match l2rmap st1 !! nid m with
    | Some r => remove_match (nid m) r st1
    | None => Ok st1
    end = Ok st2 /\ match_inv st2 /\ l2rmap st2 !! nid m = None
    /\ r2lmap st2 !! nid rchild = None)
    as (st2 & -> & Hm'' & Hfree1 & Hfree2).
  { destruct (l2rmap st1 !! nid m) as [r|] eqn:Hold; [|eauto].
    destruct (match_inv_remove (nid m) r st1 Hm' Hold)
      as (st2 & -> & Hm'' & Hl2r & Hr2l).
    exists st2. split; [done|]. split; [done|]. split.
    - rewrite Hl2r. apply lookup_delete_eq.
    - rewrite Hr2l. apply lookup_delete_None. auto. }
  cbn [mbind res_bind]. apply IH; [|done|done].
  apply match_inv_append; done.
Qed.

Lemma top_down_pass_inv : forall r_nodes st,
  match_inv st -> (forall t, t ∈ r_nodes -> t ∈ subtrees R) ->
  exists st', top_down_pass dmp_levenshtein cfg r_nodes st = Ok st'
              /\ match_inv st'.
Proof using F_pos L_ids R_ids.
  induction r_nodes as [|r_node rest IH]; intros st Hm Hsub;
    cbn [top_down_pass]; [eauto|].
  assert (forall t, t ∈ rest -> t ∈ subtrees R) as Hrest
    by (intros t Ht; apply Hsub, list_elem_of_further, Ht).
  destruct (r2lmap st !! nid r_node) as [l|] eqn:Hold; [|apply IH; done].
  destruct (kids r_node) as [|k ks] eqn:Hkids; [apply IH; done|].
  rewrite <- Hkids.
  pose proof (match_inv_r2l _ _ _ Hm Hold) as Hl2r.
  pose proof Hm as (_ & Ht & Hdom). destruct (Hdom _ _ Hl2r) as (Hlin & _ & _).
  destruct (find_node_ids l L Hlin) as (lnode & Hfind & Hlsub & _).
  unfold left_node. rewrite Ht, Hfind. cbn [mbind res_bind].
  destruct (prune_matched st (kids r_node) (kids lnode) (kids r_node))
    as [lchilds rchilds] eqn:Hprune.
  destruct (rematch_children_inv lchilds rchilds st) as (st' & -> & Hm').
  - done.
  - intros c Hc. apply (kids_ids L lnode c L_ids Hlsub).
    apply (prune_matched_subset st (kids r_node) (kids lnode) (kids r_node) c).
    rewrite Hprune. done.
  - intros c Hc. apply (kids_ids R r_node c R_ids).
    + apply Hsub, list_elem_of_here.
    + apply (prune_matched_subset st (kids r_node) (kids lnode) (kids r_node) c).
      rewrite Hprune. done.
  - cbn [mbind res_bind]. apply IH; done.
Qed.

(** *** The fast path *)

Lemma delete_NoDup_fresh {X} (l : list X) i t :
  NoDup l -> l !! i = Some t -> t ∉ delete i l.
Proof.
  intros Hnd Hi. rewrite delete_take_drop.
  rewrite <- (take_drop_middle l i t Hi) in Hnd.
  apply NoDup_app in Hnd as (_ & Hdisj & Htail).
  apply NoDup_cons in Htail as [Hnot _].
  intros [Hin|Hin]%elem_of_app; [|done].
  apply (Hdisj t Hin), list_elem_of_here.
Qed.

Lemma py_pop_nonneg {X} (l : list X) (i : Z) :
  (0 <= i)%Z -> is_Some (l !! Z.to_nat i) ->
  py_pop l i = Ok (delete (Z.to_nat i) l).
Proof.
  intros Hi Hsome%lookup_lt_is_Some. unfold py_pop.
  destruct (Z.ltb_spec i 0) as [|_]; [lia|].
  destruct (Z.ltb_spec i 0) as [|_]; [lia|].
  destruct (Nat.ltb_spec (Z.to_nat i) (length l)); [done|lia].
Qed.

Definition in_range (lnodes rnodes : list tree) (p : Z * Z) : Prop :=
  (0 <= p.1)%Z /\ (0 <= p.2)%Z
  /\ is_Some (lnodes !! Z.to_nat p.1) /\ is_Some (rnodes !! Z.to_nat p.2).

Lemma pop_matches_spec : forall rms lnodes rnodes,
  StronglySorted (flip pairs_lt) rms ->
  Forall (in_range lnodes rnodes) rms ->
  NoDup lnodes -> NoDup rnodes ->
  exists ln rn, pop_matches rms lnodes rnodes = Ok (ln, rn)
    /\ ln `sublist_of` lnodes /\ rn `sublist_of` rnodes
    /\ (forall p t, p ∈ rms -> lnodes !! Z.to_nat p.1 = Some t -> t ∉ ln)
    /\ (forall p t, p ∈ rms -> rnodes !! Z.to_nat p.2 = Some t -> t ∉ rn).
Proof.
  induction rms as [|[i j] rest IH]; intros lnodes rnodes Hs Hr Hndl Hndr;
    cbn [pop_matches].
  - exists lnodes, rnodes. split; [done|]. split; [done|]. split; [done|].
    split; intros p t Hp; inversion Hp.
  - apply StronglySorted_inv in Hs as [Hs Hlt].
    apply Forall_cons in Hr as [(Hi & Hj & Hli & Hrj) Hr]. cbn [fst snd] in *.
    rewrite (py_pop_nonneg lnodes i Hi Hli), (py_pop_nonneg rnodes j Hj Hrj).
    cbn [mbind res_bind].
    rewrite Forall_forall in Hlt, Hr.
    destruct (IH (delete (Z.to_nat i) lnodes) (delete (Z.to_nat j) rnodes))
      as (ln & rn & -> & Hsl & Hsr & Hfl & Hfr).
    + done.
    + apply Forall_forall. intros p Hp.
      destruct (Hr p Hp) as (H1 & H2 & H3 & H4). destruct (Hlt p Hp) as [H5 H6].
      cbn [fst snd] in *. split; [done|]. split; [done|].
      rewrite !list_lookup_delete_lt by lia. done.
    + eapply sublist_NoDup; [exact Hndl|apply sublist_delete].
    + eapply sublist_NoDup; [exact Hndr|apply sublist_delete].
    + exists ln, rn. split; [done|].
      split; [etrans; [exact Hsl|apply sublist_delete]|].
      split; [etrans; [exact Hsr|apply sublist_delete]|].
      split; intros p t [->|Hp]%elem_of_cons Ht; cbn [fst snd] in *.
      * intros Hin. apply (delete_NoDup_fresh lnodes _ t Hndl Ht).
        apply (sublist_subseteq _ _ Hsl), Hin.
      * apply (Hfl p t Hp). destruct (Hr p Hp) as (H1 & _).
        destruct (Hlt p Hp) as [H5 _]. cbn [fst snd] in *.
        rewrite list_lookup_delete_lt by lia. done.
      * intros Hin. apply (delete_NoDup_fresh rnodes _ t Hndr Ht).
        apply (sublist_subseteq _ _ Hsr), Hin.
      * apply (Hfr p t Hp). destruct (Hr p Hp) as (_ & H2 & _).
        destruct (Hlt p Hp) as [_ H6]. cbn [fst snd] in *.
        rewrite list_lookup_delete_lt by lia. done.
Qed.

Lemma sorted_rev {X} (R' : relation X) (l : list X) :
  StronglySorted R' l -> StronglySorted (flip R') (rev l).
Proof.
  induction 1 as [|x l Hs IH Hall]; cbn [rev]; [constructor|].
  apply StronglySorted_app_2; [|done|repeat constructor].
  intros y z Hy ->%list_elem_of_singleton.
  rewrite Forall_forall in Hall. apply Hall, (proj1 (elem_of_rev y l) Hy).
Qed.

Section FastPath.
Variables lnodes rnodes : list tree.
Hypothesis lnodes_NoDup : NoDup (nid <$> lnodes).
Hypothesis rnodes_NoDup : NoDup (nid <$> rnodes).
Hypothesis lnodes_ids : forall t, t ∈ lnodes -> nid t ∈ ids L /\ nid t <> nid L.
Hypothesis rnodes_ids : forall t, t ∈ rnodes -> nid t <> nid R.

Lemma register_matches_inv : forall ms st,
  match_inv st -> StronglySorted pairs_lt ms ->
  Forall (in_range lnodes rnodes) ms ->
  (forall p t, p ∈ ms -> lnodes !! Z.to_nat p.1 = Some t ->
     l2rmap st !! nid t = None) ->
  (forall p t, p ∈ ms -> rnodes !! Z.to_nat p.2 = Some t ->
     r2lmap st !! nid t = None) ->
  exists st', register_matches lnodes rnodes ms st = Ok st' /\ match_inv st'
    /\ (forall x, l2rmap st !! x = None ->
          (forall p t, p ∈ ms -> lnodes !! Z.to_nat p.1 = Some t -> nid t <> x) ->
          l2rmap st' !! x = None)
    /\ (forall y, r2lmap st !! y = None ->
          (forall p t, p ∈ ms -> rnodes !! Z.to_nat p.2 = Some t -> nid t <> y) ->
          r2lmap st' !! y = None).
Proof using lnodes_NoDup rnodes_NoDup lnodes_ids rnodes_ids.
  induction ms as [|[i j] rest IH]; intros st Hm Hs Hr Hl2r Hr2l;
    cbn [register_matches]; [eauto|].
  apply StronglySorted_inv in Hs as [Hs Hlt].
  apply Forall_cons in Hr as [(Hi & Hj & [l Hl] & [r Hr']) Hr].
  cbn [fst snd] in *.
  rewrite (py_index_nonneg lnodes i Hi), Hl, (py_index_nonneg rnodes j Hj), Hr'.
  cbn [mbind res_bind].
  rewrite Forall_forall in Hlt, Hr.
  pose proof (list_elem_of_lookup_2 _ _ _ Hl) as Hlin.
  pose proof (list_elem_of_lookup_2 _ _ _ Hr') as Hrin.
  destruct (lnodes_ids l Hlin) as [Hl1 Hl2].
  assert (forall p t, p ∈ rest -> lnodes !! Z.to_nat p.1 = Some t -> nid t <> nid l)
    as Hdiffl.
  { intros p t Hp Ht Heq. destruct (Hlt p Hp) as [H5 _].
    destruct (Hr p Hp) as (H1 & _). cbn [fst snd] in *.
    assert (Z.to_nat p.1 = Z.to_nat i); [|lia].
    eapply (NoDup_lookup _ _ _ (nid l) lnodes_NoDup); rewrite list_lookup_fmap.
    - rewrite Ht. cbn. rewrite Heq. done.
    - rewrite Hl. done. }
  assert (forall p t, p ∈ rest -> rnodes !! Z.to_nat p.2 = Some t -> nid t <> nid r)
    as Hdiffr.
  { intros p t Hp Ht Heq. destruct (Hlt p Hp) as [_ H6].
    destruct (Hr p Hp) as (_ & H2 & _). cbn [fst snd] in *.
    assert (Z.to_nat p.2 = Z.to_nat j); [|lia].
    eapply (NoDup_lookup _ _ _ (nid r) rnodes_NoDup); rewrite list_lookup_fmap.
    - rewrite Ht. cbn. rewrite Heq. done.
    - rewrite Hr'. done. }
  destruct (IH (append_match (nid l) (nid r) st)) as (st' & -> & Hm' & Hkl & Hkr).
  - apply match_inv_append; try done.
    + apply (Hl2r (i, j) l (list_elem_of_here _ _) Hl).
    + apply (Hr2l (i, j) r (list_elem_of_here _ _) Hr').
    + apply rnodes_ids, Hrin.
  - done.
  - apply Forall_forall, Hr.
  - intros p t Hp Ht. cbn. rewrite lookup_insert_ne by (symmetry; eauto).
    apply (Hl2r p t (list_elem_of_further _ _ _ Hp) Ht).
  - intros p t Hp Ht. cbn. rewrite lookup_insert_ne by (symmetry; eauto).
    apply (Hr2l p t (list_elem_of_further _ _ _ Hp) Ht).
  - exists st'. split; [done|]. split; [done|]. split.
    + intros x Hx Hfresh. apply Hkl.
      * cbn. rewrite lookup_insert_ne; [done|].
        apply (Hfresh (i, j) l (list_elem_of_here _ _) Hl).
      * intros p t Hp. apply Hfresh, list_elem_of_further, Hp.
    + intros y Hy Hfresh. apply Hkr.
      * cbn. rewrite lookup_insert_ne; [done|].
        apply (Hfresh (i, j) r (list_elem_of_here _ _) Hr').
      * intros p t Hp. apply Hfresh, list_elem_of_further, Hp.
Qed.

Lemma fast_match_pass_inv st :
  match_inv st ->
  (forall t, t ∈ lnodes -> l2rmap st !! nid t = None) ->
  (forall t, t ∈ rnodes -> r2lmap st !! nid t = None) ->
  exists st' ln rn,
    fast_match_pass dmp_levenshtein cfg lnodes rnodes st = Ok (st', ln, rn)
    /\ match_inv st'
    /\ NoDup (nid <$> ln) /\ NoDup (nid <$> rn)
    /\ (forall t, t ∈ ln ->
          nid t ∈ ids L /\ nid t <> nid L /\ l2rmap st' !! nid t = None)
    /\ (forall t, t ∈ rn -> nid t <> nid R /\ r2lmap st' !! nid t = None).
Proof using lnodes_NoDup rnodes_NoDup lnodes_ids rnodes_ids.
  intros Hm Hl Hr. unfold fast_match_pass.
  destruct (lcs_common_subsequence
              (fun x y => Qle_bool (F cfg) (ratio_of dmp_levenshtein cfg st x y))
              lnodes rnodes) as (ms & -> & Hs & Hok).
  cbn [iterate mbind res_bind].
  assert (Forall (in_range lnodes rnodes) ms) as Hrange.
  { eapply Forall_impl; [exact Hok|]. intros p (H1 & H2 & a & b & Ha & Hb & _).
    split; [done|]. split; [done|]. rewrite Ha, Hb. eauto. }
  destruct (register_matches_inv ms st Hm Hs Hrange
              (fun p t _ Ht => Hl t (list_elem_of_lookup_2 _ _ _ Ht))
              (fun p t _ Ht => Hr t (list_elem_of_lookup_2 _ _ _ Ht)))
    as (st' & -> & Hm' & Hkl & Hkr).
  cbn [mbind res_bind].
  assert (Forall (in_range lnodes rnodes) (rev ms)) as Hrange'.
  { apply Forall_forall. intros p Hp. rewrite Forall_forall in Hrange.
    apply Hrange, (proj1 (elem_of_rev p ms) Hp). }
  destruct (pop_matches_spec (rev ms) lnodes rnodes (sorted_rev _ _ Hs) Hrange'
              (NoDup_fmap_1 nid _ lnodes_NoDup) (NoDup_fmap_1 nid _ rnodes_NoDup))
    as (ln & rn & -> & Hsl & Hsr & Hfl & Hfr).
  cbn [mbind res_bind]. exists st', ln, rn. split; [done|]. split; [done|].
  split; [eapply sublist_NoDup; [exact lnodes_NoDup|apply fmap_sublist, Hsl]|].
  split; [eapply sublist_NoDup; [exact rnodes_NoDup|apply fmap_sublist, Hsr]|].
  split.
  - intros t Ht. pose proof (sublist_subseteq _ _ Hsl t Ht) as Hin.
    destruct (lnodes_ids t Hin) as [H1 H2]. split; [done|]. split; [done|].
    apply Hkl; [auto|]. intros p t0 Hp Ht0 Heq.
    assert (t0 = t) as ->.
    { apply (nid_inj_on lnodes); [done| |done|done].
      apply (list_elem_of_lookup_2 _ _ _ Ht0). }
    apply (Hfl p t (proj2 (elem_of_rev p ms) Hp) Ht0 Ht).
  - intros t Ht. pose proof (sublist_subseteq _ _ Hsr t Ht) as Hin.
    split; [auto|].
    apply Hkr; [auto|]. intros p t0 Hp Ht0 Heq.
    assert (t0 = t) as ->.
    { apply (nid_inj_on rnodes); [done| |done|done].
      apply (list_elem_of_lookup_2 _ _ _ Ht0). }
    apply (Hfr p t (proj2 (elem_of_rev p ms) Hp) Ht0 Ht).
Qed.

End FastPath.

(** *** The node lists [match] starts from *)

Lemma post_order_NoDup t : NoDup (ids t) -> NoDup (nid <$> post_order_traverse t).
Proof.
  intros Hnd. unfold ids in Hnd.
  rewrite (fmap_Permutation nid _ _ (post_order_subtrees t)). exact Hnd.
Qed.

Lemma below_root t n :
  NoDup (ids t) -> n ∈ remove_first (nid t) (post_order_traverse t) ->
  nid n ∈ ids t /\ nid n <> nid t.
Proof.
  intros Hnd Hn. split.
  - apply subtrees_ids. rewrite <- (post_order_subtrees t).
    apply (remove_first_elem _ _ _ Hn).
  - apply (remove_first_fresh _ _ _ (post_order_NoDup t Hnd) Hn).
Qed.

(** C4.  For a threshold [F > 0] and trees whose nodes are distinct
    objects, [match] returns, and when it has returned: the two maps are
    inverse to each other ([L2R] maps [l] to [r] exactly when [R2L] maps
    [r] to [l]); the recorded pairs are exactly the pairs of the maps;
    every left node and every right node occurs in at most one recorded
    pair; and the pair of the two roots is recorded.  The proof carries
    this invariant through every [append_match] and [remove_match] of the
    fast path, the greedy pass and the top-down pass. *)
Theorem match_maps_consistent :
  exists st, match_ dmp_levenshtein cfg L R = Ok st
    /\ (forall l r, l2rmap st !! l = Some r <-> r2lmap st !! r = Some l)
    /\ (forall l r, (l, r) ∈ matches st <-> l2rmap st !! l = Some r)
    /\ NoDup (matches st).*1 /\ NoDup (matches st).*2
    /\ (nid L, nid R) ∈ matches st.
Proof using F_pos L_ids R_ids.
  unfold match_.
  set (lnodes := remove_first (nid L) (post_order_traverse L)).
  set (rnodes := remove_first (nid R) (post_order_traverse R)).
  assert (NoDup (nid <$> lnodes)) as Hndl
    by apply remove_first_NoDup, post_order_NoDup, L_ids.
  assert (NoDup (nid <$> rnodes)) as Hndr
    by apply remove_first_NoDup, post_order_NoDup, R_ids.
  assert (forall t, t ∈ lnodes -> nid t ∈ ids L /\ nid t <> nid L) as Hl
    by (intros t; apply below_root, L_ids).
  assert (forall t, t ∈ rnodes -> nid t <> nid R) as Hr
    by (intros t Ht; apply (below_root R t R_ids Ht)).
  assert (exists st ln rn,
    (if fast_match cfg
     then fast_match_pass dmp_levenshtein cfg lnodes rnodes (set_trees L R)
     else Ok (set_trees L R, lnodes, rnodes)) = Ok (st, ln, rn)
    /\ match_inv st /\ NoDup (nid <$> ln) /\ NoDup (nid <$> rn)
    /\ (forall t, t ∈ ln ->
          nid t ∈ ids L /\ nid t <> nid L /\ l2rmap st !! nid t = None)
    /\ (forall t, t ∈ rn -> nid t <> nid R /\ r2lmap st !! nid t = None))
    as (st & ln & rn & -> & Hm & Hndl' & Hndr' & Hl' & Hr').
  { destruct (fast_match cfg).
    - apply fast_match_pass_inv; try done. apply match_inv_set_trees.
    - exists (set_trees L R), lnodes, rnodes. split; [done|].
      split; [apply match_inv_set_trees|]. split; [done|]. split; [done|].
      split; intros t Ht.
      + destruct (Hl t Ht). done.
      + split; [auto|done]. }
  cbn [mbind res_bind].
  destruct (greedy_pass_inv ln rn st Hm Hndl' Hndr' Hl' Hr') as (st1 & -> & Hm1).
  cbn [mbind res_bind].
  destruct (top_down_pass_inv (breadth_first_traverse R) st1 Hm1
              (breadth_first_subtrees R)) as (st2 & -> & Hm2).
  cbn [mbind res_bind]. eexists. split; [reflexivity|].
  assert (l2rmap st2 !! nid L = None) as Hroot.
  { destruct (l2rmap st2 !! nid L) as [r|] eqn:Hx; [|done].
    destruct Hm2 as (_ & _ & Hdom). destruct (Hdom _ _ Hx) as (_ & ? & _). done. }
  assert (r2lmap st2 !! nid R = None) as Hroot'.
  { apply match_inv_r2l_None; [done|]. intros l Hx.
    destruct Hm2 as (_ & _ & Hdom). destruct (Hdom _ _ Hx) as (_ & _ & ?). done. }
  destruct Hm2 as (Hc & _).
  pose proof (append_match_consistent (nid L) (nid R) st2 Hc Hroot Hroot') as Hfin.
  destruct (consistent_NoDup _ Hfin) as [Hn1 Hn2].
  destruct Hfin as (Hinv & Hms & _).
  split; [exact Hinv|]. split; [exact Hms|]. split; [exact Hn1|].
  split; [exact Hn2|]. apply Hms. cbn. apply lookup_insert_eq.
Qed.

End MatchInvariant.

Lemma match_maps_consistent_witness :
  exists st, match_ dmp_example cfg_default cba abc = Ok st
    /\ (forall l r, l2rmap st !! l = Some r <-> r2lmap st !! r = Some l)
    /\ (forall l r, (l, r) ∈ matches st <-> l2rmap st !! l = Some r)
    /\ NoDup (matches st).*1 /\ NoDup (matches st).*2
    /\ (nid cba, nid abc) ∈ matches st.
Proof.
  apply (match_maps_consistent dmp_example cfg_default cba abc).
  - reflexivity.
  - apply (bool_decide_unpack _). vm_compute. reflexivity.
  - apply (bool_decide_unpack _). vm_compute. reflexivity.
Defined.

(** ** A tree against itself *)

Lemma munge_spec : forall tokens wa wh chars wa' wh',
  diff_wordsToCharsMunge tokens wa wh = (chars, (wa', wh')) ->
  wh ⊆ wh'
  /\ Forall (fun t => is_Some (wh' !! t)) tokens
  /\ chars = map (fun t => N.of_nat (default 0 (wh' !! t))) tokens.
Proof.
  induction tokens as [|t rest IH]; intros wa wh chars wa' wh' H;
    cbn [diff_wordsToCharsMunge] in H.
  - injection H as <- <- <-. done.
  - destruct (wh !! t) as [i|] eqn:Ht.
    + destruct (diff_wordsToCharsMunge rest wa wh) as [cs [wa1 wh1]] eqn:Hrest.
      injection H as <- <- <-. destruct (IH _ _ _ _ _ Hrest) as (Hsub & Hall & ->).
      pose proof (lookup_weaken _ _ _ _ Ht Hsub) as Ht'.
      split; [done|]. split; [constructor; [rewrite Ht'; eauto|done]|].
      cbn [map]. rewrite Ht'. done.
    + destruct (diff_wordsToCharsMunge rest (wa ++ [t])
                  (<[t := length (wa ++ [t]) - 1]> wh)) as [cs [wa1 wh1]] eqn:Hrest.
      injection H as <- <- <-. destruct (IH _ _ _ _ _ Hrest) as (Hsub & Hall & ->).
      assert (wh1 !! t = Some (length (wa ++ [t]) - 1)) as Ht'.
      { apply (lookup_weaken _ _ _ _ (lookup_insert_eq wh t _) Hsub). }
      split; [etrans; [apply insert_subseteq, Ht|exact Hsub]|].
      split; [constructor; [rewrite Ht'; eauto|done]|].
      cbn [map]. rewrite Ht'. done.
Qed.

Lemma munge_known : forall tokens wa wh,
  Forall (fun t => is_Some (wh !! t)) tokens ->
  diff_wordsToCharsMunge tokens wa wh
  = (map (fun t => N.of_nat (default 0 (wh !! t))) tokens, (wa, wh)).
Proof.
  induction tokens as [|t rest IH]; intros wa wh Hall; cbn [diff_wordsToCharsMunge map];
    [done|].
  apply Forall_cons in Hall as [[i Hi] Hall]. rewrite Hi, (IH _ _ Hall). done.
Qed.

(** Interning one token list on both sides gives the same string twice. *)
Lemma diff_wordsToChars_same tokens :
  (diff_wordsToChars tokens tokens).1.1 = (diff_wordsToChars tokens tokens).1.2.
Proof.
  unfold diff_wordsToChars.
  destruct (diff_wordsToCharsMunge tokens [[]] ∅) as [chars2 [wa wh]] eqn:H2.
  destruct (munge_spec _ _ _ _ _ _ H2) as (_ & Hall & ->).
  rewrite (munge_known tokens wa wh Hall). done.
Qed.

Lemma ratio_one (lw tw : nat) (q cr : Q) :
  (q == 1)%Q -> (cr == 1)%Q -> 0 < tw ->
  ((of_nat_Q lw * q + of_nat_Q tw / 2 * cr) / (of_nat_Q lw + of_nat_Q tw / 2) == 1)%Q.
Proof.
  intros Hq Hcr Htw. rewrite Hq, Hcr. field.
  unfold of_nat_Q, Qeq, Qmult, Qplus, inject_Z. cbn. lia.
Qed.

Lemma ratio_self_one (n : nat) : 0 < n -> (of_nat_Q n / of_nat_Q n == 1)%Q.
Proof.
  intros Hn. field. unfold of_nat_Q, Qeq, inject_Z. cbn. lia.
Qed.

Lemma score_zero_distance (tw : Z) : (1 - inject_Z (Z.of_nat 0) / inject_Z tw == 1)%Q.
Proof.
  change (inject_Z (Z.of_nat 0)) with 0%Q. unfold Qdiv. rewrite Qmult_0_l. reflexivity.
Qed.

Lemma unique_ratio_self attrs n q :
  unique_ratio attrs n n = Some q -> q = 1%Q.
Proof.
  assert (forall attr, attr_equal attr n n = 1%Q) as Heq.
  { intros attr. unfold attr_equal. rewrite bool_decide_eq_true_2; done. }
  induction attrs as [|[attr|tg attr] rest IH]; cbn [unique_ratio]; [done| |].
  - destruct (_ || _); [|done]. rewrite Heq. congruence.
  - destruct (_ || _); [done|]. destruct (_ || _); [|done].
    rewrite Heq. congruence.
Qed.

Lemma equal_weight_self (m : gmap nat nat) : forall ks,
  (forall c, c ∈ ks -> m !! nid c = Some (nid c)) ->
  equal_weight m ks ks = sum_weights ks + sum_weights ks.
Proof.
  induction ks as [|c rest IH]; intros Hm; cbn [equal_weight sum_weights foldr];
    [done|].
  rewrite (Hm c (list_elem_of_here _ _)). cbn [take_partner].
  rewrite bool_decide_eq_true_2 by done.
  fold (sum_weights rest). rewrite IH; [lia|].
  intros c' Hc'. apply Hm, list_elem_of_further, Hc'.
Qed.

Section SelfRatio.
Variable dmp_levenshtein : pystr -> pystr -> nat.
Variable cfg : Differ_config.
Hypothesis dmp_refl : forall s, dmp_levenshtein s s = 0.

Lemma leaf_ratio_self n : ((leaf_ratio dmp_levenshtein n n).2 == 1)%Q.
Proof using dmp_refl.
  unfold leaf_ratio. destruct (length (node_text n) =? 0); cbn [andb orb].
  - rewrite bool_decide_eq_true_2 by done. reflexivity.
  - pose proof (diff_wordsToChars_same (splitString (node_text n) [])) as Hsame.
    destruct (diff_wordsToChars _ _) as [[c1 c2] wa]. cbn [fst snd] in *.
    subst c2. rewrite dmp_refl. apply score_zero_distance.
Qed.

(** A node whose children are all paired with themselves has ratio 1
    with itself. *)
Lemma node_ratio_self (m : gmap nat nat) n :
  (forall c, c ∈ kids n -> m !! nid c = Some (nid c)) ->
  (node_ratio dmp_levenshtein cfg m n n == 1)%Q.
Proof using dmp_refl.
  intros Hm. unfold node_ratio.
  destruct (unique_ratio (uniqueattrs cfg) n n) as [q|] eqn:Hu.
  { rewrite (unique_ratio_self _ _ _ Hu). reflexivity. }
  pose proof (leaf_ratio_self n) as Hleaf.
  destruct (leaf_ratio dmp_levenshtein n n) as [lw q]. cbn [snd] in Hleaf.
  unfold child_ratio. destruct (kids n) as [|k ks] eqn:Hk; [exact Hleaf|].
  rewrite (equal_weight_self m (k :: ks) Hm).
  apply ratio_one; [exact Hleaf| |].
  - apply ratio_self_one. cbn [sum_weights foldr]. unfold node_weight. lia.
  - cbn [sum_weights foldr]. unfold node_weight. lia.
Qed.

End SelfRatio.

(** ** Parents *)

(** The (child, parent) pairs of identities of a tree. *)
Fixpoint edges (t : tree) : list (nat * nat) :=
  map (fun c => (nid c, nid t)) (kids t) ++ flat_map edges (kids t).

Lemma flat_map_cons_perm {X Y} (f : X -> Y) (g : X -> list Y) (l : list X) :
  flat_map (fun x => f x :: g x) l ≡ₚ map f l ++ flat_map g l.
Proof.
  induction l as [|x l IH]; cbn; [done|]. rewrite IH. constructor.
  rewrite !app_assoc. apply Permutation_app_tail, Permutation_app_comm.
Qed.

Lemma map_flat_map {X Y W} (f : Y -> W) (g : X -> list Y) (l : list X) :
  map f (flat_map g l) = flat_map (fun x => map f (g x)) l.
Proof. induction l as [|x l IH]; cbn; [done|]. rewrite map_app, IH. done. Qed.

Lemma edges_fst : forall t, (edges t).*1 ≡ₚ map nid (flat_map subtrees (kids t)).
Proof.
  induction t as [i tg a tx tl ks IH] using tree_ind_kids.
  cbn [edges kids nid]. rewrite fmap_app.
  change (fmap fst) with (@map (nat * nat) nat fst).
  rewrite map_map, !map_flat_map. cbn [fst].
  rewrite (flat_map_perm (fun x => map fst (edges x))
             (fun x => map nid (flat_map subtrees (kids x))) ks IH).
  rewrite <- flat_map_cons_perm. apply flat_map_perm, Forall_forall.
  intros [i' tg' a' tx' tl' ks'] _. cbn. done.
Qed.

Lemma edge_of : forall t q c,
  q ∈ subtrees t -> c ∈ kids q -> (nid c, nid q) ∈ edges t.
Proof.
  induction t as [i tg a tx tl ks IH] using tree_ind_kids. intros q c Hq Hc.
  cbn [subtrees edges kids nid] in *. apply elem_of_app.
  apply elem_of_cons in Hq as [->|Hq].
  - left. apply (list_elem_of_fmap_2 (fun c => (nid c, i)) _ _ Hc).
  - right. apply elem_of_flat_map in Hq as (k & Hk & Hq).
    apply elem_of_flat_map. exists k. split; [done|].
    rewrite Forall_forall in IH. apply IH; done.
Qed.

Lemma NoDup_fst_functional {X Y} (l : list (X * Y)) x y1 y2 :
  NoDup l.*1 -> (x, y1) ∈ l -> (x, y2) ∈ l -> y1 = y2.
Proof.
  intros Hnd [i Hi]%list_elem_of_lookup [j Hj]%list_elem_of_lookup.
  assert (i = j) as ->; [|congruence].
  eapply (NoDup_lookup _ _ _ x Hnd); rewrite list_lookup_fmap.
  - rewrite Hi. done.
  - rewrite Hj. done.
Qed.

Lemma edges_NoDup t : NoDup (ids t) -> NoDup (edges t).*1.
Proof.
  rewrite ids_unfold. intros [_ Hnd]%NoDup_cons. rewrite edges_fst. exact Hnd.
Qed.

(** With distinct identities a node has one parent. *)
Lemma parent_unique t q r c c' :
  NoDup (ids t) -> q ∈ subtrees t -> r ∈ subtrees t ->
  c ∈ kids q -> c' ∈ kids r -> nid c = nid c' -> q = r.
Proof.
  intros Hnd Hq Hr Hc Hc' Heq.
  apply (nid_inj_on (subtrees t)); [exact Hnd|done|done|].
  pose proof (edge_of t q c Hq Hc) as H1. pose proof (edge_of t r c' Hr Hc') as H2.
  rewrite Heq in H1. apply (NoDup_fst_functional _ _ _ _ (edges_NoDup t Hnd) H1 H2).
Qed.

Lemma find_node_unique t n :
  NoDup (ids t) -> n ∈ subtrees t -> find_node (nid n) t = Some n.
Proof.
  intros Hnd Hn.
  destruct (find_node_ids (nid n) t (subtrees_ids t n Hn)) as (n' & -> & Hn' & Heq).
  f_equal. apply (nid_inj_on (subtrees t)); done.
Qed.

Lemma getparent_Some i t p :
  getparent i t = Some p ->
  p ∈ subtrees t /\ exists c, c ∈ kids p /\ nid c = i.
Proof.
  intros [Hin Hf]%find_some. split; [apply list_elem_of_In, Hin|].
  apply existsb_exists in Hf as (c & Hc & Heq).
  exists c. split; [apply list_elem_of_In, Hc|apply Nat.eqb_eq, Heq].
Qed.

Lemma getparent_unique t n c :
  NoDup (ids t) -> n ∈ subtrees t -> c ∈ kids n -> getparent (nid c) t = Some n.
Proof.
  intros Hnd Hn Hc.
  destruct (find_some_elem
    (fun p => existsb (fun c0 => nid c0 =? nid c) (kids p)) (subtrees t) n Hn)
    as (y & Hy & Hin & Hf).
  { apply existsb_exists. exists c.
    split; [apply list_elem_of_In, Hc|apply Nat.eqb_refl]. }
  unfold getparent. rewrite Hy. f_equal.
  apply existsb_exists in Hf as (c' & Hc' & Heq).
  apply list_elem_of_In in Hc'. apply Nat.eqb_eq in Heq.
  apply (parent_unique t y n c' c); done.
Qed.

Lemma getparent_root t : NoDup (ids t) -> getparent (nid t) t = None.
Proof.
  intros Hnd. destruct (getparent (nid t) t) as [p|] eqn:Hp; [|done].
  apply getparent_Some in Hp as (Hin & c & Hc & Heq).
  destruct (kids_ids t p c Hnd Hin Hc) as [_ Hne]. done.
Qed.

(** Every node of a tree is the root or a child of a node of the tree. *)
Lemma subtrees_parent : forall t n,
  n ∈ subtrees t -> n = t \/ exists p, p ∈ subtrees t /\ n ∈ kids p.
Proof.
  induction t as [i tg a tx tl ks IH] using tree_ind_kids. intros n Hn.
  cbn [subtrees kids] in Hn. apply elem_of_cons in Hn as [->|Hn]; [auto|].
  right. apply elem_of_flat_map in Hn as (k & Hk & Hn).
  rewrite Forall_forall in IH. destruct (IH k Hk n Hn) as [->|(p & Hp & Hnp)].
  - eexists. split; [apply subtrees_refl|done].
  - exists p. split; [|done].
    eapply subtrees_trans; [apply kids_subtrees, Hk|done].
Qed.

(** ** Paths exist for the nodes of the tree *)

Lemma lxml_getpath_Some : forall t i before after,
  i ∈ ids t -> is_Some (lxml_getpath i before after t).
Proof.
  induction t as [j tg a tx tl ks IH] using tree_ind_kids.
  intros i before after Hi. cbn [lxml_getpath nid kids tag].
  destruct (Nat.eqb_spec j i) as [->|Hne]; [eauto|].
  rewrite ids_unfold in Hi. cbn [nid kids] in Hi.
  apply elem_of_cons in Hi as [->|Hi]; [done|].
  apply list_elem_of_fmap in Hi as (n & -> & Hn).
  apply elem_of_flat_map in Hn as (k & Hk & Hn).
  generalize ("/" +:+ tg +:+ step_index before after (Node j tg a tx tl ks)).
  intros step.
  match goal with
  | |- is_Some (?go [] ks) => enough (forall bf, is_Some (go bf ks)) as H by apply H
  end.
  induction ks as [|c rest IHks]; intros bf; [inversion Hk|].
  apply Forall_cons in IH as [IHc IHrest].
  destruct (lxml_getpath (nid n) bf rest c) as [p|] eqn:Hp; [eauto|].
  apply elem_of_cons in Hk as [->|Hk].
  - destruct (IHc (nid n) bf rest (subtrees_ids _ _ Hn)) as [p Hp'].
    congruence.
  - apply IHks; done.
Qed.

Lemma getpath_Ok i t : i ∈ ids t -> exists p, getpath i t = Ok p.
Proof.
  intros Hi. unfold getpath.
  destruct (lxml_getpath_Some t i [] [] Hi) as [p ->]. eauto.
Qed.

(** ** Updating a node with what it already holds *)

Lemma node_eta t : Node (nid t) (tag t) (attrib t) (text t) (tail t) (kids t) = t.
Proof. destruct t. reflexivity. Qed.

Lemma update_node_same i f : forall t,
  (forall n, n ∈ subtrees t -> nid n = i -> f n = n) -> update_node i f t = t.
Proof.
  induction t as [j tg a tx tl ks IH] using tree_ind_kids. intros Hf.
  cbn [update_node nid tag attrib text tail kids].
  assert (map (update_node i f) ks = ks) as ->.
  { rewrite <- (map_id ks) at 2. apply map_ext_in. intros k Hk.
    apply list_elem_of_In in Hk. rewrite Forall_forall in IH. apply IH; [done|].
    intros n Hn. apply Hf. eapply subtrees_trans; [|exact Hn].
    apply (kids_subtrees (Node j tg a tx tl ks)), Hk. }
  destruct (Nat.eqb_spec j i) as [Heq|Hne]; [|done].
  apply Hf; [apply subtrees_refl|done].
Qed.

Lemma with_left_same st : with_left (left_tree st) st = st.
Proof. destruct st. reflexivity. Qed.

(** ** Matching a tree against itself *)

(** The pairs of a list of nodes with themselves, registered in order. *)
Fixpoint add_identity (nodes : list tree) (st : Differ) : Differ :=
  match nodes with
  | [] => st
  | n :: rest => add_identity rest (append_match (nid n) (nid n) st)
  end.

Lemma add_identity_app l1 l2 st :
  add_identity (l1 ++ l2) st = add_identity l2 (add_identity l1 st).
Proof. revert st. induction l1 as [|n l1 IH]; intros st; cbn; [done|apply IH]. Qed.

Lemma add_identity_trees nodes : forall st,
  left_tree (add_identity nodes st) = left_tree st
  /\ right_tree (add_identity nodes st) = right_tree st.
Proof.
  induction nodes as [|n rest IH]; intros st; cbn [add_identity]; [done|].
  destruct (IH (append_match (nid n) (nid n) st)) as [-> ->]. done.
Qed.

Lemma add_identity_l2r nodes : forall st i,
  l2rmap (add_identity nodes st) !! i
  = if bool_decide (i ∈ nid <$> nodes) then Some i else l2rmap st !! i.
Proof.
  induction nodes as [|n rest IH]; intros st i; cbn [add_identity]; [done|].
  rewrite IH, fmap_cons. cbn [l2rmap append_match].
  destruct (decide (i ∈ nid <$> rest)) as [Hin|Hnot].
  - rewrite !bool_decide_eq_true_2; [done| |done]. apply elem_of_cons. auto.
  - rewrite (bool_decide_eq_false_2 _ Hnot).
    destruct (decide (i = nid n)) as [->|Hne].
    + rewrite lookup_insert_eq, bool_decide_eq_true_2; [done|].
      apply list_elem_of_here.
    + rewrite lookup_insert_ne by done. rewrite bool_decide_eq_false_2; [done|].
      intros [?|?]%elem_of_cons; done.
Qed.

Lemma add_identity_r2l nodes : forall st i,
  r2lmap (add_identity nodes st) !! i
  = if bool_decide (i ∈ nid <$> nodes) then Some i else r2lmap st !! i.
Proof.
  induction nodes as [|n rest IH]; intros st i; cbn [add_identity]; [done|].
  rewrite IH, fmap_cons. cbn [r2lmap append_match].
  destruct (decide (i ∈ nid <$> rest)) as [Hin|Hnot].
  - rewrite !bool_decide_eq_true_2; [done| |done]. apply elem_of_cons. auto.
  - rewrite (bool_decide_eq_false_2 _ Hnot).
    destruct (decide (i = nid n)) as [->|Hne].
    + rewrite lookup_insert_eq, bool_decide_eq_true_2; [done|].
      apply list_elem_of_here.
    + rewrite lookup_insert_ne by done. rewrite bool_decide_eq_false_2; [done|].
      intros [?|?]%elem_of_cons; done.
Qed.

Lemma post_order_last t : t ∈ post_order_traverse t.
Proof. destruct t. cbn. apply elem_of_app. right. apply list_elem_of_here. Qed.

Lemma remove_first_last i : forall l t,
  (forall n, n ∈ l -> nid n <> i) -> nid t = i -> remove_first i (l ++ [t]) = l.
Proof.
  induction l as [|c l IH]; intros t Hl Ht; cbn.
  - rewrite (proj2 (Nat.eqb_eq _ _) Ht). done.
  - destruct (Nat.eqb_spec (nid c) i) as [Heq|_].
    + destruct (Hl c (list_elem_of_here _ _) Heq).
    + rewrite IH; [done| |done]. intros n Hn. apply Hl, list_elem_of_further, Hn.
Qed.

Section SelfMatch.
Variable dmp_levenshtein : pystr -> pystr -> nat.
Variable cfg : Differ_config.
Hypothesis dmp_refl : forall s, dmp_levenshtein s s = 0.
Hypothesis F_le_1 : (F cfg <= 1)%Q.

Lemma greedy_self_step n rest st :
  (node_ratio dmp_levenshtein cfg (l2rmap st) n n == 1)%Q ->
  greedy_pass dmp_levenshtein cfg (n :: rest) (n :: rest) st
  = greedy_pass dmp_levenshtein cfg rest rest (append_match (nid n) (nid n) st).
Proof using F_le_1.
  intros H1. cbn [greedy_pass best_match]. unfold ratio_of.
  assert (Qlt_bool 0 (node_ratio dmp_levenshtein cfg (l2rmap st) n n) = true) as ->.
  { unfold Qlt_bool. apply negb_true_iff. destruct (Qle_bool _ 0) eqn:Hle; [|done].
    apply Qle_bool_iff in Hle. rewrite H1 in Hle. exfalso. apply Hle. reflexivity. }
  rewrite (proj2 (Qeq_bool_iff _ _) H1). cbn [fst snd].
  assert (Qle_bool (F cfg) (node_ratio dmp_levenshtein cfg (l2rmap st) n n) = true)
    as ->.
  { apply Qle_bool_iff. rewrite H1. exact F_le_1. }
  cbn [remove_first]. rewrite Nat.eqb_refl. done.
Qed.

Lemma greedy_self_forest : forall ks,
  Forall (fun t => forall rest st,
    greedy_pass dmp_levenshtein cfg (post_order_traverse t ++ rest)
                (post_order_traverse t ++ rest) st
    = greedy_pass dmp_levenshtein cfg rest rest
                  (add_identity (post_order_traverse t) st)) ks ->
  forall rest st,
    greedy_pass dmp_levenshtein cfg (flat_map post_order_traverse ks ++ rest)
                (flat_map post_order_traverse ks ++ rest) st
    = greedy_pass dmp_levenshtein cfg rest rest
                  (add_identity (flat_map post_order_traverse ks) st).
Proof.
  induction 1 as [|k ks Hk _ IH]; intros rest st; cbn [flat_map]; [done|].
  rewrite <- !app_assoc, Hk, IH, add_identity_app. done.
Qed.

Lemma greedy_self : forall t rest st,
  greedy_pass dmp_levenshtein cfg (post_order_traverse t ++ rest)
              (post_order_traverse t ++ rest) st
  = greedy_pass dmp_levenshtein cfg rest rest
                (add_identity (post_order_traverse t) st).
Proof using dmp_refl F_le_1.
  induction t as [i tg a tx tl ks IH] using tree_ind_kids. intros rest st.
  cbn [post_order_traverse kids]. rewrite <- !app_assoc. cbn [app].
  rewrite (greedy_self_forest ks IH), add_identity_app. cbn [add_identity].
  apply greedy_self_step, node_ratio_self; [exact dmp_refl|].
  intros c Hc. cbn [kids] in Hc. rewrite add_identity_l2r.
  rewrite bool_decide_eq_true_2; [done|].
  apply (list_elem_of_fmap_2 nid). apply elem_of_flat_map.
  exists c. split; [done|apply post_order_last].
Qed.

End SelfMatch.

Lemma prune_self st : forall ks,
  (forall c, c ∈ ks -> r2lmap st !! nid c = Some (nid c)) ->
  prune_matched st ks ks ks = ([], []).
Proof.
  induction ks as [|c rest IH]; intros Hm; cbn [prune_matched]; [done|].
  rewrite (Hm c (list_elem_of_here _ _)). cbn [existsb remove_first].
  rewrite Nat.eqb_refl. cbn [orb]. apply IH.
  intros c' Hc'. apply Hm, list_elem_of_further, Hc'.
Qed.

Lemma rpo_subtrees : forall t n,
  n ∈ reverse_post_order_traverse t -> n ∈ subtrees t.
Proof.
  induction t as [i tg a tx tl ks IH] using tree_ind_kids. intros n Hn.
  cbn [reverse_post_order_traverse subtrees kids] in *.
  apply elem_of_app in Hn as [Hn|Hn%list_elem_of_singleton].
  - apply elem_of_cons. right. apply list_elem_of_In, in_concat in Hn as (l & Hl & Hn).
    apply in_rev, in_map_iff in Hl as (k & <- & Hk).
    apply elem_of_flat_map. exists k. rewrite Forall_forall in IH.
    apply list_elem_of_In in Hk. split; [done|].
    apply IH; [done|]. apply list_elem_of_In, Hn.
  - subst. apply list_elem_of_here.
Qed.

(** *** Pieces of the generator that find nothing to do *)

Lemma update_common_same xp la : forall keys,
  update_common xp keys la la = ([], la).
Proof.
  induction keys as [|key rest IH]; cbn [update_common]; [done|].
  destruct (la !! key) as [v|] eqn:Hk; [|done].
  rewrite bool_decide_eq_false_2; [done|]. intros H. apply H. reflexivity.
Qed.

Lemma sorted_keys_empty : sorted_keys ∅ = [].
Proof. unfold sorted_keys. rewrite elements_empty. reflexivity. Qed.

Lemma filter_all {X} (f : X -> bool) (l : list X) :
  (forall x, x ∈ l -> f x = true) -> List.filter f l = l.
Proof.
  induction l as [|x l IH]; intros H; cbn; [done|].
  rewrite (H x (list_elem_of_here _ _)), IH; [done|].
  intros y Hy. apply H, list_elem_of_further, Hy.
Qed.

(** Two states that differ at most in the set of nodes in order. *)
Definition same_but_inorder (st st' : Differ) : Prop :=
  left_tree st' = left_tree st /\ right_tree st' = right_tree st
  /\ matches st' = matches st /\ l2rmap st' = l2rmap st
  /\ r2lmap st' = r2lmap st /\ next_id st' = next_id st.

Lemma mark_lcs_spec lch rch : forall lcs st,
  Forall (in_range lch rch) lcs ->
  exists st', mark_lcs lch rch lcs st = Ok st' /\ same_but_inorder st st'
    /\ inorder st ⊆ inorder st'
    /\ forall p lc rc, p ∈ lcs -> lch !! Z.to_nat p.1 = Some lc ->
         rch !! Z.to_nat p.2 = Some rc ->
         inl (nid lc) ∈ inorder st' /\ inr (nid rc) ∈ inorder st'.
Proof.
  induction lcs as [|[x y] rest IH]; intros st Hr; cbn [mark_lcs].
  - exists st. split; [done|]. split; [done|]. split; [done|].
    intros p lc rc Hp. inversion Hp.
  - apply Forall_cons in Hr as [(Hx & Hy & [lc Hlc] & [rc Hrc]) Hr].
    cbn [fst snd] in *.
    rewrite (py_index_nonneg lch x Hx), Hlc, (py_index_nonneg rch y Hy), Hrc.
    cbn [mbind res_bind].
    destruct (IH (mark_inorder (nid lc) (nid rc) st) Hr)
      as (st' & -> & Hsame & Hsub & Hmarked).
    exists st'. split; [done|]. split; [exact Hsame|].
    cbn [inorder mark_inorder] in Hsub. split; [clear -Hsub; set_solver|].
    intros p lc' rc' [->|Hp]%elem_of_cons Hl' Hr'; [|eauto].
    cbn [fst snd] in *. rewrite Hlc in Hl'. rewrite Hrc in Hr'.
    injection Hl' as <-. injection Hr' as <-. clear -Hsub. set_solver.
Qed.

Lemma move_unaligned_inorder l : forall lch st,
  (forall c, c ∈ lch -> inl (nid c) ∈ inorder st) ->
  move_unaligned l lch st = Ok ([], st).
Proof.
  induction lch as [|c rest IH]; intros st H; cbn [move_unaligned]; [done|].
  rewrite bool_decide_eq_true_2 by apply H, list_elem_of_here.
  apply IH. intros c' Hc'. apply H, list_elem_of_further, Hc'.
Qed.

Lemma diagonal_in_range (ks : list tree) :
  Forall (in_range ks ks) (map (fun e => (e, e)) (zrange 0 (length ks))).
Proof.
  apply Forall_forall.
  intros p (e & -> & [i Hi]%list_elem_of_lookup)%list_elem_of_fmap.
  apply lookup_zrange in Hi as [-> Hi]. unfold in_range. cbn [fst snd].
  rewrite Nat.add_0_l, Nat2Z.id.
  split; [lia|]. split; [lia|]. split; apply lookup_lt_is_Some; lia.
Qed.

Lemma diagonal_covers (ks : list tree) c :
  c ∈ ks ->
  exists p, p ∈ map (fun e => (e, e)) (zrange 0 (length ks))
            /\ ks !! Z.to_nat p.1 = Some c /\ ks !! Z.to_nat p.2 = Some c.
Proof.
  intros [i Hi]%list_elem_of_lookup. exists (Z.of_nat i, Z.of_nat i).
  cbn [fst snd]. rewrite Nat2Z.id. split; [|done].
  apply list_elem_of_fmap. exists (Z.of_nat i). split; [done|].
  apply list_elem_of_lookup. exists i. apply lookup_zrange.
  split; [done|]. apply lookup_lt_Some in Hi. lia.
Qed.

Lemma common_prefix_all {X} (eqfn : X -> X -> bool) (l : list X) :
  (forall x, x ∈ l -> eqfn x x = true) -> common_prefix eqfn l l = length l.
Proof.
  induction l as [|x l IH]; intros H; cbn; [done|].
  rewrite (H x (list_elem_of_here _ _)), IH; [done|].
  intros y Hy. apply H, list_elem_of_further, Hy.
Qed.

Lemma post_order_unfold t :
  post_order_traverse t = flat_map post_order_traverse (kids t) ++ [t].
Proof. destruct t. reflexivity. Qed.

Lemma subtrees_unfold t : subtrees t = t :: flat_map subtrees (kids t).
Proof. destruct t. reflexivity. Qed.

Section SelfDiff.
Variable dmp_levenshtein : pystr -> pystr -> nat.
Variable cfg : Differ_config.
Variable T : tree.
Hypothesis dmp_refl : forall s, dmp_levenshtein s s = 0.
Hypothesis F_le_1 : (F cfg <= 1)%Q.
Hypothesis no_fast_match : fast_match cfg = false.
Hypothesis T_ids : NoDup (ids T).

(** Every node is paired with itself. *)
Definition self_matched (st : Differ) : Prop :=
  left_tree st = T /\ right_tree st = T
  /\ (forall n, n ∈ subtrees T -> l2rmap st !! nid n = Some (nid n))
  /\ (forall n, n ∈ subtrees T -> r2lmap st !! nid n = Some (nid n)).

Lemma forest_below_root n :
  n ∈ flat_map post_order_traverse (kids T) -> n ∈ subtrees T /\ nid n <> nid T.
Proof using T_ids.
  intros (k & Hk & Hn)%elem_of_flat_map.
  rewrite post_order_subtrees in Hn.
  assert (n ∈ flat_map subtrees (kids T)) as Hin
    by (apply elem_of_flat_map; eauto).
  split.
  - eapply subtrees_trans; [apply kids_subtrees, Hk|done].
  - pose proof T_ids as Hnd. rewrite ids_unfold in Hnd.
    apply NoDup_cons in Hnd as [Hroot _]. intros Heq. apply Hroot.
    rewrite <- Heq. apply (list_elem_of_fmap_2 nid _ _ Hin).
Qed.

Lemma top_down_self : forall nodes st,
  left_tree st = T ->
  (forall n l, n ∈ subtrees T -> r2lmap st !! nid n = Some l -> l = nid n) ->
  (forall p c, p ∈ subtrees T -> c ∈ kids p ->
     r2lmap st !! nid c = Some (nid c)) ->
  (forall n, n ∈ nodes -> n ∈ subtrees T) ->
  top_down_pass dmp_levenshtein cfg nodes st = Ok st.
Proof using T_ids.
  induction nodes as [|r_node rest IH]; intros st Hleft Hval Hkids Hsub;
    cbn [top_down_pass]; [done|].
  assert (top_down_pass dmp_levenshtein cfg rest st = Ok st) as Hrest.
  { apply IH; try done. intros n Hn. apply Hsub, list_elem_of_further, Hn. }
  pose proof (Hsub r_node (list_elem_of_here _ _)) as Hr.
  destruct (r2lmap st !! nid r_node) as [l|] eqn:Hold; [|done].
  destruct (kids r_node) as [|k ks] eqn:Hk; [done|]. rewrite <- Hk.
  rewrite (Hval r_node l Hr Hold). unfold left_node.
  rewrite Hleft, (find_node_unique T r_node T_ids Hr). cbn [mbind res_bind].
  rewrite (prune_self st (kids r_node)) by (intros c Hc; apply (Hkids r_node c Hr Hc)).
  cbn [rematch_children mbind res_bind]. exact Hrest.
Qed.

(** [match] pairs every node of the tree with itself. *)
Lemma match_self :
  exists st, match_ dmp_levenshtein cfg T T = Ok st /\ self_matched st.
Proof using dmp_refl F_le_1 no_fast_match T_ids.
  unfold match_. rewrite no_fast_match. cbn [mbind res_bind].
  assert (remove_first (nid T) (post_order_traverse T)
          = flat_map post_order_traverse (kids T)) as ->.
  { rewrite post_order_unfold. apply remove_first_last; [|done].
    intros n Hn. apply forest_below_root, Hn. }
  set (forest := flat_map post_order_traverse (kids T)).
  pose proof (greedy_self_forest dmp_levenshtein cfg (kids T)) as Hg.
  rewrite <- (app_nil_r forest). unfold forest. rewrite Hg.
  2:{ apply Forall_forall. intros t _. apply greedy_self; done. }
  fold forest. cbn [greedy_pass mbind res_bind].
  set (st1 := add_identity forest (set_trees T T)).
  destruct (add_identity_trees forest (set_trees T T)) as [Hl Hr].
  fold st1 in Hl, Hr. cbn in Hl, Hr.
  assert (forall n, n ∈ subtrees T -> n <> T -> nid n ∈ nid <$> forest) as Hin.
  { intros n Hn Hne. apply (list_elem_of_fmap_2 nid).
    rewrite subtrees_unfold in Hn.
    apply elem_of_cons in Hn as [->|Hn]; [done|]. unfold forest.
    apply elem_of_flat_map in Hn as (k & Hk & Hn). apply elem_of_flat_map.
    exists k. split; [done|]. rewrite post_order_subtrees. done. }
  rewrite top_down_self.
  - cbn [mbind res_bind]. eexists. split; [reflexivity|].
    split; [exact Hl|]. split; [exact Hr|].
    split; intros n Hn; cbn [l2rmap r2lmap append_match];
      (destruct (decide (n = T)) as [->|Hne];
       [apply lookup_insert_eq|]);
      (destruct (decide (nid n = nid T)) as [->|Hne'];
       [apply lookup_insert_eq|rewrite lookup_insert_ne by done]).
    + unfold st1. rewrite add_identity_l2r, bool_decide_eq_true_2; auto.
    + unfold st1. rewrite add_identity_r2l, bool_decide_eq_true_2; auto.
  - exact Hl.
  - intros n l Hn. unfold st1. rewrite add_identity_r2l.
    destruct (bool_decide _); [congruence|]. cbn. rewrite lookup_empty. done.
  - intros p c Hp Hc. unfold st1. rewrite add_identity_r2l.
    rewrite bool_decide_eq_true_2; [done|]. apply Hin.
    + eapply subtrees_trans; [exact Hp|apply kids_subtrees, Hc].
    + intros ->. destruct (kids_ids T p T T_ids Hp Hc) as [_ Hne]. done.
  - apply breadth_first_subtrees.
Qed.

(** *** The generator on a tree matched with itself *)

Lemma self_node st n :
  self_matched st -> n ∈ subtrees T -> left_node st (nid n) = Ok n.
Proof using T_ids.
  intros (Hl & _) Hn. unfold left_node.
  rewrite Hl, (find_node_unique T n T_ids Hn). done.
Qed.

Lemma self_path st n :
  self_matched st -> n ∈ subtrees T ->
  exists p, getpath (nid n) (left_tree st) = Ok p.
Proof.
  intros (Hl & _) Hn. rewrite Hl. apply getpath_Ok, subtrees_ids, Hn.
Qed.

Lemma self_update st n (f : tree -> tree) :
  self_matched st -> n ∈ subtrees T -> f n = n ->
  with_left (update_node (nid n) f (left_tree st)) st = st.
Proof using T_ids.
  intros (Hl & _) Hn Hf. rewrite Hl, update_node_same.
  - rewrite <- Hl. apply with_left_same.
  - intros n' Hn' Heq. rewrite (nid_inj_on (subtrees T) n' n); done.
Qed.

Lemma update_node_tag_self st n :
  self_matched st -> n ∈ subtrees T -> update_node_tag (nid n) n st = Ok ([], st).
Proof using T_ids.
  intros Hs Hn. unfold update_node_tag. rewrite (self_node st n Hs Hn).
  cbn [mbind res_bind]. rewrite bool_decide_eq_false_2; [done|]. auto.
Qed.

Lemma update_node_attr_self st n :
  self_matched st -> n ∈ subtrees T -> update_node_attr (nid n) n st = Ok ([], st).
Proof using T_ids.
  intros Hs Hn. unfold update_node_attr. rewrite (self_node st n Hs Hn).
  destruct (self_path st n Hs Hn) as [xp ->]. cbn [mbind res_bind].
  rewrite update_common_same, difference_diag_L, sorted_keys_empty.
  cbn [insert_new delete_removed app].
  rewrite (self_update st n (set_attrib (attrib n)) Hs Hn); [done|].
  destruct n. reflexivity.
Qed.

Lemma update_node_text_self st n :
  self_matched st -> n ∈ subtrees T -> update_node_text (nid n) n st = Ok ([], st).
Proof using T_ids.
  intros Hs Hn. unfold update_node_text. rewrite (self_node st n Hs Hn).
  destruct (self_path st n Hs Hn) as [xp ->]. cbn [mbind res_bind].
  rewrite !bool_decide_eq_false_2 by auto. done.
Qed.

Lemma self_matched_inorder st st' :
  self_matched st -> same_but_inorder st st' -> self_matched st'.
Proof.
  intros (H1 & H2 & H3 & H4) (E1 & E2 & _ & E3 & E4 & _).
  split; [congruence|]. split; [congruence|]. rewrite E3, E4. done.
Qed.

Lemma align_children_self st n :
  self_matched st -> n ∈ subtrees T ->
  exists st', align_children (nid n) n st = Ok ([], st') /\ self_matched st'.
Proof using T_ids.
  intros Hs Hn. unfold align_children. rewrite (self_node st n Hs Hn).
  cbn [mbind res_bind]. pose proof Hs as (Hl & Hr & Hl2r & Hr2l).
  assert (forall c, c ∈ kids n -> c ∈ subtrees T) as Hsub.
  { intros c Hc. eapply subtrees_trans; [exact Hn|apply kids_subtrees, Hc]. }
  assert (forall c, c ∈ kids n -> parent_is (nid c) T (nid n) = true) as Hpar.
  { intros c Hc. unfold parent_is.
    rewrite (getparent_unique T n c T_ids Hn Hc). apply Nat.eqb_refl. }
  rewrite !filter_all.
  2:{ intros c Hc. rewrite (Hr2l c (Hsub c Hc)), Hl. apply Hpar, Hc. }
  2:{ intros c Hc. rewrite (Hl2r c (Hsub c Hc)), Hr. apply Hpar, Hc. }
  destruct (kids n) as [|k ks] eqn:Hk; [eauto|]. rewrite <- Hk in *.
  rewrite lcs_identity; [|apply common_prefix_all|done].
  2:{ intros c Hc. apply bool_decide_eq_true_2, Hl2r, Hsub, Hc. }
  cbn [iterate mbind res_bind].
  destruct (mark_lcs_spec (kids n) (kids n) _ st (diagonal_in_range (kids n)))
    as (st' & -> & Hsame & _ & Hmarked).
  cbn [mbind res_bind]. exists st'. split.
  - apply move_unaligned_inorder. intros c Hc.
    destruct (diagonal_covers (kids n) c Hc) as (p & Hp & H1 & H2).
    apply (Hmarked p c c Hp H1 H2).
  - eapply self_matched_inorder; done.
Qed.

Lemma diff_step_self st n :
  self_matched st -> n ∈ subtrees T ->
  exists st', diff_step n st = Ok ([], st') /\ self_matched st'.
Proof using T_ids.
  intros Hs Hn. unfold diff_step. pose proof Hs as (Hl & Hr & Hl2r & Hr2l).
  rewrite (Hr2l n Hn), Hl, Hr.
  assert ((getparent (nid n) T ≫= fun p => r2lmap st !! nid p)
          = nid <$> getparent (nid n) T) as ->.
  { destruct (getparent (nid n) T) as [p|] eqn:Hp; [|done]. cbn.
    apply getparent_Some in Hp as [Hp _]. rewrite (Hr2l p Hp). done. }
  rewrite bool_decide_eq_false_2 by auto. cbn [mbind res_bind].
  rewrite (update_node_tag_self st n Hs Hn). cbn [mbind res_bind].
  rewrite (update_node_attr_self st n Hs Hn). cbn [mbind res_bind app].
  destruct (align_children_self st n Hs Hn) as (st' & -> & Hs').
  cbn [mbind res_bind]. destruct Hs' as (Hl' & Hr' & Hl2r' & Hr2l').
  rewrite (subscript_Some _ _ _ (Hr2l' n Hn)). cbn [mbind res_bind].
  rewrite (update_node_text_self st' n); [|done|done].
  cbn [mbind res_bind app]. exists st'. done.
Qed.

Lemma diff_loop_self : forall nodes st,
  self_matched st -> (forall n, n ∈ nodes -> n ∈ subtrees T) ->
  exists st', diff_loop nodes st = Ok ([], st') /\ self_matched st'.
Proof using T_ids.
  induction nodes as [|n rest IH]; intros st Hs Hsub; cbn [diff_loop]; [eauto|].
  destruct (diff_step_self st n Hs (Hsub n (list_elem_of_here _ _)))
    as (st1 & -> & Hs1). cbn [mbind res_bind].
  destruct (IH st1 Hs1) as (st2 & -> & Hs2).
  { intros n' Hn'. apply Hsub, list_elem_of_further, Hn'. }
  cbn [mbind res_bind app]. eauto.
Qed.

Lemma delete_loop_self : forall ls st,
  (forall l, l ∈ ls -> is_Some (l2rmap st !! l)) ->
  delete_loop ls st = Ok ([], st).
Proof.
  induction ls as [|l rest IH]; intros st H; cbn [delete_loop]; [done|].
  destruct (H l (list_elem_of_here _ _)) as [r ->].
  apply IH. intros l' Hl'. apply H, list_elem_of_further, Hl'.
Qed.

(** C3, amended.  Without the LCS pre-pass, with a threshold [F <= 1]
    and a text distance that is 0 on equal strings, the script of a tree
    against its own copy is empty. *)
Theorem diff_same_tree_empty :
  script (diff dmp_levenshtein cfg T T) = Ok [].
Proof using dmp_refl F_le_1 no_fast_match T_ids.
  unfold diff. destruct match_self as (st & -> & Hs). cbn [mbind res_bind].
  pose proof Hs as (_ & Hr & _). rewrite Hr.
  destruct (diff_loop_self (breadth_first_traverse T) st Hs
              (breadth_first_subtrees T)) as (st' & -> & Hs').
  cbn [mbind res_bind]. destruct Hs' as (Hl' & _ & Hl2r' & _).
  rewrite delete_loop_self; [done|].
  intros l (n & -> & Hn)%list_elem_of_fmap. rewrite Hl' in Hn.
  rewrite (Hl2r' n (rpo_subtrees T n Hn)). eauto.
Qed.

End SelfDiff.

Lemma diff_same_tree_empty_witness :
  script (diff dmp_example cfg_default pap pap) = Ok [].
Proof.
  apply (diff_same_tree_empty dmp_example cfg_default pap).
  - intros s. unfold dmp_example. rewrite bool_decide_eq_true_2; done.
  - vm_compute. discriminate.
  - reflexivity.
  - apply (bool_decide_unpack _). vm_compute. reflexivity.
Defined.

(** * Further properties of the code *)

(** ** [utils.longest_common_subsequence] *)

(** X1.  For every two sequences and every equality,
    [longest_common_subsequence] returns a list (it never falls out of
    its loops, and none of its subscripts fails); the pairs of the list
    increase strictly in both components, index both sequences inside
    their bounds, and every pair indexes two items that the equality
    accepts. *)
Theorem lcs_returns_common_subsequence {A B : Type} (eqfn : A -> B -> bool)
    (l : list A) (r : list B) :
  exists ms, longest_common_subsequence eqfn l r = Ok (Some ms)
    /\ StronglySorted pairs_lt ms
    /\ Forall (fun p =>
         (0 <= p.1 < Z.of_nat (length l))%Z /\ (0 <= p.2 < Z.of_nat (length r))%Z
         /\ exists a b, l !! Z.to_nat p.1 = Some a /\ r !! Z.to_nat p.2 = Some b
                        /\ eqfn a b = true) ms.
Proof.
  destruct (lcs_common_subsequence eqfn l r) as (ms & Hms & Hs & Hok).
  exists ms. split; [exact Hms|]. split; [exact Hs|].
  eapply Forall_impl; [exact Hok|].
  intros p (H1 & H2 & a & b & Ha & Hb & Hab).
  pose proof (lookup_lt_Some _ _ _ Ha). pose proof (lookup_lt_Some _ _ _ Hb).
  split; [lia|]. split; [lia|]. eauto.
Qed.

Lemma common_prefix_Forall2 {A B : Type} (eqfn : A -> B -> bool) l r :
  Forall2 (fun a b => eqfn a b = true) l r -> common_prefix eqfn l r = length l.
Proof. induction 1 as [|a b l r Hab _ IH]; cbn; [done|]. rewrite Hab, IH. done. Qed.

(** X2.  Two sequences of the same length whose items are equal place by
    place are trimmed away whole: the result pairs every index with
    itself. *)
Theorem lcs_of_equal_sequences {A B : Type} (eqfn : A -> B -> bool)
    (l : list A) (r : list B) :
  Forall2 (fun a b => eqfn a b = true) l r ->
  longest_common_subsequence eqfn l r
  = Ok (Some (map (fun i => (Z.of_nat i, Z.of_nat i)) (seq 0 (length l)))).
Proof.
  intros H. rewrite lcs_identity.
  - unfold zrange. rewrite Nat.sub_0_r, map_map. done.
  - apply common_prefix_Forall2, H.
  - symmetry. apply (Forall2_length _ _ _ H).
Qed.

Lemma lcs_of_equal_sequences_witness :
  longest_common_subsequence Nat.eqb [4; 5; 6] [4; 5; 6]
  = Ok (Some (map (fun i => (Z.of_nat i, Z.of_nat i)) (seq 0 (length [4; 5; 6])))).
Proof.
  apply (lcs_of_equal_sequences Nat.eqb [4; 5; 6] [4; 5; 6]).
  repeat constructor.
Defined.

(** ** The traversals of [utils.py] *)

Definition forest_size (l : list tree) : nat :=
  foldr (fun c acc => tree_size c + acc) 0 l.

Lemma tree_size_unfold t : tree_size t = S (forest_size (kids t)).
Proof. destruct t. reflexivity. Qed.

Lemma forest_size_app l1 l2 :
  forest_size (l1 ++ l2) = forest_size l1 + forest_size l2.
Proof.
  induction l1 as [|c l1 IH]; [done|].
  change (forest_size ((c :: l1) ++ l2)) with (tree_size c + forest_size (l1 ++ l2)).
  change (forest_size (c :: l1)) with (tree_size c + forest_size l1).
  rewrite IH. lia.
Qed.

(** The queue loop with as many iterations as the queue holds nodes. *)
Lemma breadth_first_loop_perm : forall fuel queue,
  forest_size queue <= fuel ->
  breadth_first_loop fuel queue ≡ₚ flat_map subtrees queue.
Proof.
  induction fuel as [|fuel IH]; intros [|item queue] Hsz;
    cbn [breadth_first_loop flat_map]; try done.
  - change (forest_size (item :: queue))
      with (tree_size item + forest_size queue) in Hsz.
    rewrite tree_size_unfold in Hsz. lia.
  - change (forest_size (item :: queue))
      with (tree_size item + forest_size queue) in Hsz.
    rewrite tree_size_unfold in Hsz.
    rewrite IH by (rewrite forest_size_app; lia).
    rewrite flat_map_app, (subtrees_unfold item). cbn [app]. constructor.
    apply Permutation_app_comm.
Qed.

(** X3.  [breadth_first_traverse] yields every node of the tree exactly
    once (its result is a rearrangement of the nodes in document order),
    and the root comes first. *)
Theorem breadth_first_traverse_visits_once (t : tree) :
  breadth_first_traverse t ≡ₚ subtrees t
  /\ head (breadth_first_traverse t) = Some t.
Proof.
  split.
  - unfold breadth_first_traverse. rewrite breadth_first_loop_perm.
    + cbn [flat_map]. rewrite app_nil_r. done.
    + cbn [forest_size foldr]. lia.
  - unfold breadth_first_traverse. rewrite tree_size_unfold. reflexivity.
Qed.

Lemma concat_rev_perm {X} (L : list (list X)) : concat (rev L) ≡ₚ concat L.
Proof.
  induction L as [|x L IH]; cbn [rev concat]; [done|].
  rewrite concat_app. cbn [concat]. rewrite app_nil_r, IH.
  apply Permutation_app_comm.
Qed.

Lemma reverse_post_order_subtrees : forall t,
  reverse_post_order_traverse t ≡ₚ subtrees t.
Proof.
  induction t as [i tg a tx tl ks IH] using tree_ind_kids.
  cbn [reverse_post_order_traverse subtrees kids].
  rewrite concat_rev_perm, <- flat_map_concat_map.
  rewrite (flat_map_perm _ _ _ IH). rewrite Permutation_app_comm. done.
Qed.

(** X4.  [post_order_traverse] and [reverse_post_order_traverse] yield
    every node of the tree exactly once, and the root comes last in
    both. *)
Theorem post_order_traversals_visit_once (t : tree) :
  post_order_traverse t ≡ₚ subtrees t
  /\ last (post_order_traverse t) = Some t
  /\ reverse_post_order_traverse t ≡ₚ subtrees t
  /\ last (reverse_post_order_traverse t) = Some t.
Proof.
  split; [apply post_order_subtrees|].
  split; [rewrite post_order_unfold; apply last_snoc|].
  split; [apply reverse_post_order_subtrees|].
  destruct t. cbn [reverse_post_order_traverse]. apply last_snoc.
Qed.

(** ** [utils.splitString] *)

(** A token: one break character, or a run without break characters and
    without spaces. *)
Definition token_ok (brk : N -> bool) (tok : pystr) : Prop :=
  tok <> []
  /\ ((exists c, tok = [c] /\ brk c = true)
      \/ Forall (fun c => brk c = false /\ c <> 32%N) tok).

Lemma splitString_loop_concat brk : forall str cur,
  concat (splitString_loop brk str cur)
  = rev cur ++ List.filter (fun c => brk c || negb (c =? 32)%N) str.
Proof.
  induction str as [|c rest IH]; intros cur; cbn [splitString_loop List.filter].
  - destruct cur; cbn [concat rev app]; rewrite ?app_nil_r; done.
  - destruct (brk c) eqn:Hb; cbn [orb].
    + destruct cur; cbn [concat]; rewrite IH; cbn [rev app]; [done|].
      rewrite <- !app_assoc. done.
    + destruct (c =? 32)%N eqn:Hc; cbn [negb].
      * destruct cur; cbn [concat]; rewrite IH; cbn [rev app]; [done|].
        rewrite <- !app_assoc. done.
      * rewrite IH. cbn [rev]. rewrite <- app_assoc. done.
Qed.

Lemma splitString_loop_tokens brk : forall str cur,
  Forall (fun c => brk c = false /\ c <> 32%N) cur ->
  Forall (token_ok brk) (splitString_loop brk str cur).
Proof.
  assert (forall cur, cur <> [] ->
            Forall (fun c => brk c = false /\ c <> 32%N) cur ->
            token_ok brk (rev cur)) as Hrun.
  { intros cur Hne Hcur. split.
    - intros Hr. apply Hne. rewrite <- (rev_involutive cur), Hr. done.
    - right. apply Forall_rev, Hcur. }
  assert (forall c, brk c = true -> token_ok brk [c]) as Hbrk.
  { intros c Hc. split; [done|]. left. eauto. }
  induction str as [|c rest IH]; intros cur Hcur; cbn [splitString_loop].
  - destruct cur as [|x cur]; [constructor|].
    constructor; [|constructor]. apply Hrun; done.
  - destruct (brk c) eqn:Hb.
    + destruct cur as [|x cur].
      * constructor; [auto|]. apply IH. constructor.
      * constructor; [apply Hrun; done|]. constructor; [auto|].
        apply IH. constructor.
    + destruct (N.eqb_spec c 32) as [Hc|Hc].
      * destruct cur as [|x cur]; [apply IH; constructor|].
        constructor; [apply Hrun; done|]. apply IH. constructor.
      * apply IH. constructor; done.
Qed.

(** X5.  The tokens of [splitString] concatenate to the text without its
    spaces (a space is kept only when it is itself listed as a
    placeholder); no token is empty, and every token is either one break
    character ([;], [!], [?] or a listed placeholder) or a run that
    contains neither a break character nor a space. *)
Theorem splitString_tokens (text : pystr) (placeholderList : list N) :
  concat (splitString text placeholderList)
  = List.filter (fun c => listCharsSplit placeholderList c || negb (c =? 32)%N) text
  /\ Forall (token_ok (listCharsSplit placeholderList))
            (splitString text placeholderList).
Proof.
  split.
  - unfold splitString. rewrite splitString_loop_concat. done.
  - apply splitString_loop_tokens. constructor.
Qed.

(** ** [utils.diff_wordsToChars] and [utils.diff_charsToWords] *)

(** The array holds at every index recorded in the hash the token that
    was recorded. *)
Definition interned (wa : list pystr) (wh : gmap pystr nat) : Prop :=
  forall t i, wh !! t = Some i -> wa !! i = Some t.

Lemma munge_interned : forall tokens wa wh chars wa' wh',
  interned wa wh ->
  diff_wordsToCharsMunge tokens wa wh = (chars, (wa', wh')) ->
  interned wa' wh'.
Proof.
  induction tokens as [|t rest IH]; intros wa wh chars wa' wh' Hint H;
    cbn [diff_wordsToCharsMunge] in H.
  - injection H as <- <- <-. done.
  - destruct (wh !! t) as [i|] eqn:Ht.
    + destruct (diff_wordsToCharsMunge rest wa wh) as [cs [wa1 wh1]] eqn:Hrest.
      injection H as <- <- <-. eapply IH; [exact Hint|exact Hrest].
    + destruct (diff_wordsToCharsMunge rest (wa ++ [t])
                  (<[t := length (wa ++ [t]) - 1]> wh)) as [cs [wa1 wh1]] eqn:Hrest.
      injection H as <- <- <-. eapply IH; [|exact Hrest].
      intros t' i'. rewrite length_app. cbn [length].
      replace (length wa + 1 - 1) with (length wa) by lia.
      destruct (decide (t' = t)) as [->|Hne].
      * rewrite lookup_insert_eq. intros [= <-].
        rewrite lookup_app_r by lia. rewrite Nat.sub_diag. done.
      * rewrite lookup_insert_ne by done. intros Hi.
        apply lookup_app_l_Some, Hint, Hi.
Qed.

Lemma decode_interned wa wh : forall tokens,
  interned wa wh -> Forall (fun t => is_Some (wh !! t)) tokens ->
  mapM (fun c => raise_if_none IndexError (wa !! N.to_nat c))
       (map (fun t => N.of_nat (default 0 (wh !! t))) tokens)
  = Ok tokens.
Proof.
  intros tokens Hint. induction 1 as [|t rest [i Hi] _ IH]; [done|].
  cbn [map mapM]. rewrite Hi. change (default 0 (Some i)) with i.
  rewrite Nat2N.id, (Hint t i Hi).
  cbn [raise_if_none mbind res_bind]. rewrite IH. done.
Qed.

(** X6.  Decoding the two strings of [diff_wordsToChars] with its word
    array gives the two token lists back: every character stands for
    the token it was interned for.  (The number of tokens is bounded so
    that every index is a code point [chr] accepts.) *)
Theorem diff_wordsToChars_round_trip (tokenList1 tokenList2 : list pystr)
    (op1 op2 : Z) :
  (Z.of_nat (length tokenList1 + length tokenList2) < 1114111)%Z ->
  diff_charsToWords
    [(op1, (diff_wordsToChars tokenList1 tokenList2).1.1);
     (op2, (diff_wordsToChars tokenList1 tokenList2).1.2)]
    (diff_wordsToChars tokenList1 tokenList2).2
  = Ok (map (fun w => (op1, w)) tokenList1 ++ map (fun w => (op2, w)) tokenList2).
Proof.
  intros _. unfold diff_wordsToChars.
  destruct (diff_wordsToCharsMunge tokenList2 [[]] ∅) as [chars2 [wa wh]] eqn:H2.
  destruct (diff_wordsToCharsMunge tokenList1 wa wh) as [chars1 [wa' wh']] eqn:H1.
  cbn [fst snd].
  assert (interned wa wh) as Hint2.
  { eapply munge_interned; [|exact H2]. intros t i. rewrite lookup_empty. done. }
  pose proof (munge_interned _ _ _ _ _ _ Hint2 H1) as Hint1.
  destruct (munge_spec _ _ _ _ _ _ H2) as (_ & Hall2 & ->).
  destruct (munge_spec _ _ _ _ _ _ H1) as (Hsub & Hall1 & ->).
  assert (Forall (fun t => is_Some (wh' !! t)) tokenList2) as Hall2'.
  { eapply Forall_impl; [exact Hall2|]. intros t [i Hi].
    exists i. apply (lookup_weaken _ _ _ _ Hi Hsub). }
  assert (map (fun t => N.of_nat (default 0 (wh !! t))) tokenList2
          = map (fun t => N.of_nat (default 0 (wh' !! t))) tokenList2) as ->.
  { apply map_ext_in. intros t Ht. rewrite Forall_forall in Hall2.
    destruct (Hall2 t (proj2 (list_elem_of_In _ _) Ht)) as [i Hi].
    rewrite Hi, (lookup_weaken _ _ _ _ Hi Hsub). done. }
  cbn [diff_charsToWords].
  rewrite (decode_interned wa' wh' tokenList1 Hint1 Hall1).
  cbn [mbind res_bind].
  rewrite (decode_interned wa' wh' tokenList2 Hint1 Hall2').
  cbn [mbind res_bind]. rewrite app_nil_r. done.
Qed.

Lemma diff_wordsToChars_round_trip_witness :
  diff_charsToWords
    [(0%Z, (diff_wordsToChars [[97%N]; [98%N]] [[98%N]; [99%N]]).1.1);
     (1%Z, (diff_wordsToChars [[97%N]; [98%N]] [[98%N]; [99%N]]).1.2)]
    (diff_wordsToChars [[97%N]; [98%N]] [[98%N]; [99%N]]).2
  = Ok (map (fun w => (0%Z, w)) [[97%N]; [98%N]]
        ++ map (fun w => (1%Z, w)) [[98%N]; [99%N]]).
Proof.
  apply (diff_wordsToChars_round_trip [[97%N]; [98%N]] [[98%N]; [99%N]] 0 1).
  reflexivity.
Defined.

(** ** [utils.cleanup_whitespace] *)

Lemma cleanup_whitespace_other c rest :
  is_space c = false ->
  cleanup_whitespace (c :: rest) = c :: cleanup_whitespace rest.
Proof. intros H. cbn [cleanup_whitespace]. rewrite H. done. Qed.

Lemma cleanup_whitespace_space c rest :
  is_space c = true ->
  cleanup_whitespace (c :: rest)
  = match rest with
    | c' :: _ => if is_space c' then cleanup_whitespace rest
                 else 32%N :: cleanup_whitespace rest
    | [] => [32%N]
    end.
Proof. intros H. cbn [cleanup_whitespace]. rewrite H. done. Qed.

(** X7.  [cleanup_whitespace] is idempotent, and the only whitespace it
    leaves is the plain space: every run of whitespace characters has
    become one U+0020. *)
Theorem cleanup_whitespace_idempotent (s : pystr) :
  cleanup_whitespace (cleanup_whitespace s) = cleanup_whitespace s
  /\ Forall (fun c => is_space c = true -> c = 32%N) (cleanup_whitespace s).
Proof.
  induction s as [|c rest [IH1 IH2]]; [split; [done|constructor]|].
  destruct (is_space c) eqn:Hc.
  - rewrite (cleanup_whitespace_space c rest Hc). destruct rest as [|c' rest'].
    + split; [reflexivity|]. constructor; [done|constructor].
    + destruct (is_space c') eqn:Hc'; [done|].
      rewrite (cleanup_whitespace_other c' rest' Hc') in *.
      split; [|constructor; done].
      rewrite (cleanup_whitespace_space 32 _ eq_refl), Hc', IH1. done.
  - rewrite (cleanup_whitespace_other c rest Hc). split.
    + rewrite (cleanup_whitespace_other c _ Hc), IH1. done.
    + constructor; [congruence|done].
Qed.

(** ** [utils.getpath] *)

Lemma list_ascii_of_string_app (s t : string) :
  list_ascii_of_string (s +:+ t) = list_ascii_of_string s ++ list_ascii_of_string t.
Proof.
  induction s as [|c s IH]; [rewrite append_nil; done|].
  rewrite append_cons. cbn [list_ascii_of_string app]. rewrite IH. done.
Qed.

(** X8.  For every node of the tree [getpath] returns a path, and the
    path ends with a positional predicate: the code appends [[1]] when
    lxml gives a path that does not end in [ ] ]. *)
Theorem getpath_ends_with_position (i : nat) (t : tree) :
  i ∈ ids t -> exists p, getpath i t = Ok p /\ ends_with_bracket p = true.
Proof.
  intros Hi. unfold getpath.
  destruct (lxml_getpath_Some t i [] [] Hi) as [xp ->].
  eexists. split; [reflexivity|].
  destruct (ends_with_bracket xp) eqn:He; [exact He|].
  unfold ends_with_bracket. rewrite list_ascii_of_string_app, rev_app_distr.
  reflexivity.
Qed.

Lemma getpath_ends_with_position_witness :
  exists p, getpath 2 cba = Ok p /\ ends_with_bracket p = true.
Proof.
  apply (getpath_ends_with_position 2 cba).
  apply (bool_decide_unpack _). vm_compute. reflexivity.
Defined.

(** ** [Differ.append_match] and [Differ.remove_match] *)

Lemma remove_pair_snoc p : forall ms,
  p ∉ ms -> remove_pair p (ms ++ [p]) = Ok ms.
Proof.
  induction ms as [|q ms IH]; intros Hp; cbn [app remove_pair].
  - rewrite bool_decide_eq_true_2; done.
  - apply not_elem_of_cons in Hp as [Hne Hp].
    rewrite bool_decide_eq_false_2 by congruence.
    rewrite (IH Hp). done.
Qed.

(** X9.  [remove_match] undoes [append_match]: registering a pair of
    two unmatched nodes and removing it again gives the state back.
    Removing a pair whose left node is not matched raises [KeyError]
    (the [del] on the dictionary). *)
Theorem remove_match_undoes_append_match (l r : nat) (st : Differ) :
  l2rmap st !! l = None -> r2lmap st !! r = None -> (l, r) ∉ matches st ->
  remove_match l r (append_match l r st) = Ok st
  /\ remove_match l r st = Raise KeyError.
Proof.
  intros Hl Hr Hp. split.
  - unfold remove_match, append_match.
    cbn [l2rmap r2lmap matches left_tree right_tree inorder next_id].
    rewrite (subscript_Some _ _ _ (lookup_insert_eq (l2rmap st) l r)).
    rewrite (subscript_Some _ _ _ (lookup_insert_eq (r2lmap st) r l)).
    cbn [mbind res_bind]. rewrite (remove_pair_snoc _ _ Hp). cbn [mbind res_bind].
    rewrite !delete_insert_id by done. destruct st. done.
  - unfold remove_match, subscript. rewrite Hl. done.
Qed.

Lemma remove_match_undoes_append_match_witness :
  remove_match 1 2 (append_match 1 2 (set_trees cba abc)) = Ok (set_trees cba abc)
  /\ remove_match 1 2 (set_trees cba abc) = Raise KeyError.
Proof.
  apply (remove_match_undoes_append_match 1 2 (set_trees cba abc)).
  - reflexivity.
  - reflexivity.
  - cbn. apply not_elem_of_nil.
Defined.

(** ** The similarity scores *)

Lemma take_partner_weight r : forall rk c rk',
  take_partner r rk = Some (c, rk') ->
  sum_weights rk = node_weight c + sum_weights rk'.
Proof.
  induction rk as [|x rk IH]; intros c rk' H; cbn [take_partner] in H; [done|].
  destruct (bool_decide (nid x = r)).
  - injection H as <- <-. done.
  - destruct (take_partner r rk) as [[c0 rest]|] eqn:Ht; [|done].
    injection H as <- <-. cbn [sum_weights foldr].
    fold (sum_weights rk). fold (sum_weights rest). rewrite (IH _ _ eq_refl). lia.
Qed.

Lemma equal_weight_le (m : gmap nat nat) : forall lk rk,
  equal_weight m lk rk <= sum_weights lk + sum_weights rk.
Proof.
  induction lk as [|l lk IH]; intros rk; cbn [equal_weight sum_weights foldr];
    [lia|]. fold (sum_weights lk).
  destruct (m !! nid l) as [r|]; [|specialize (IH rk); lia].
  destruct (take_partner r rk) as [[c rk']|] eqn:Ht; [|specialize (IH rk); lia].
  rewrite (take_partner_weight r rk c rk' Ht). specialize (IH rk'). lia.
Qed.

Lemma Q_ratio_bounds (lw cw m cr : Q) :
  (0 <= lw)%Q -> (0 < cw)%Q -> (0 <= m <= 1)%Q -> (0 <= cr <= 1)%Q ->
  (0 <= (lw * m + cw * cr) / (lw + cw) <= 1)%Q.
Proof.
  intros Hlw Hcw [Hm0 Hm1] [Hc0 Hc1].
  assert (0 < lw + cw)%Q as Hpos by lra.
  split.
  - apply Qle_shift_div_l; [exact Hpos|]. nra.
  - apply Qle_shift_div_r; [exact Hpos|]. nra.
Qed.

Lemma of_nat_Q_nonneg n : (0 <= of_nat_Q n)%Q.
Proof. unfold of_nat_Q, Qle. cbn. lia. Qed.

Lemma of_nat_Q_le a b : a <= b -> (of_nat_Q a <= of_nat_Q b)%Q.
Proof. intros H. unfold of_nat_Q, Qle. cbn. lia. Qed.

Lemma of_nat_Q_pos n : 0 < n -> (0 < of_nat_Q n)%Q.
Proof. intros H. unfold of_nat_Q, Qlt. cbn. lia. Qed.

Lemma Q_fraction_bounds a b :
  a <= b -> (0 <= of_nat_Q a / of_nat_Q b <= 1)%Q.
Proof.
  intros Hab. destruct (Nat.eq_dec b 0) as [->|Hb].
  - assert (a = 0) as -> by lia. split; discriminate.
  - assert (0 < of_nat_Q b)%Q as Hpos by (apply of_nat_Q_pos; lia).
    pose proof (of_nat_Q_nonneg a). pose proof (of_nat_Q_le a b Hab).
    split.
    + apply Qle_shift_div_l; [exact Hpos|]. lra.
    + apply Qle_shift_div_r; [exact Hpos|]. lra.
Qed.

Lemma unique_ratio_bounds attrs l r q :
  unique_ratio attrs l r = Some q -> (0 <= q <= 1)%Q.
Proof.
  assert (forall attr, (0 <= attr_equal attr l r <= 1)%Q) as Hb.
  { intros attr. unfold attr_equal. destruct (bool_decide _); split; discriminate. }
  induction attrs as [|[attr|tg attr] rest IH]; cbn [unique_ratio]; [done| |].
  - destruct (_ || _); [|done]. intros [= <-]. apply Hb.
  - destruct (_ || _); [done|]. destruct (_ || _); [|done].
    intros [= <-]. apply Hb.
Qed.

Section RatioBounds.
Variable dmp_levenshtein : pystr -> pystr -> nat.
Variable cfg : Differ_config.
Hypothesis dmp_bounded :
  forall a b, dmp_levenshtein a b <= max (length a) (length b).

Lemma leaf_ratio_bounds l r :
  (0 <= (leaf_ratio dmp_levenshtein l r).2 <= 1)%Q.
Proof using dmp_bounded.
  unfold leaf_ratio. destruct (_ && _).
  - destruct (bool_decide _); cbn [snd]; split; discriminate.
  - destruct (_ || _); [cbn [snd]; split; discriminate|].
    destruct (diff_wordsToChars _ _) as [[c1 c2] wa]. cbn [snd].
    pose proof (Q_fraction_bounds _ _ (dmp_bounded c1 c2)) as [H0 H1].
    unfold of_nat_Q in *. split; lra.
Qed.

(** X10.  With a text distance that never exceeds the longer of its two
    strings, [child_ratio] (when the nodes have children) and
    [node_ratio] are similarities in the interval from 0 to 1, whatever
    pairs are registered. *)
Theorem node_ratio_in_unit_interval (l2r : gmap nat nat) (l r : tree) :
  (0 <= node_ratio dmp_levenshtein cfg l2r l r <= 1)%Q
  /\ forall cr, (child_ratio l2r l r).2 = Some cr -> (0 <= cr <= 1)%Q.
Proof using dmp_bounded.
  assert (forall cw cr, child_ratio l2r l r = (cw, Some cr) ->
            (0 < cw)%Q /\ (0 <= cr <= 1)%Q) as Hchild.
  { intros cw cr Hc.
    assert (0 < sum_weights (kids l) + sum_weights (kids r)
            /\ cw = (of_nat_Q (sum_weights (kids l) + sum_weights (kids r)) / 2)%Q
            /\ cr = (of_nat_Q (equal_weight l2r (kids l) (kids r))
                     / of_nat_Q (sum_weights (kids l) + sum_weights (kids r)))%Q)
      as (Hpos & -> & ->).
    { unfold child_ratio in Hc.
      destruct (kids l) as [|lc lks], (kids r) as [|rc rks]; [done| | |].
      all: pose proof (f_equal fst Hc) as H1; pose proof (f_equal snd Hc) as H2.
      all: cbn [fst snd] in H1, H2; apply (inj Some) in H2.
      all: split; [|split; [symmetry; exact H1|symmetry; exact H2]].
      all: cbn [sum_weights foldr]; unfold node_weight; lia. }
    split; [|apply Q_fraction_bounds, equal_weight_le].
    apply Qlt_shift_div_l; [reflexivity|]. rewrite Qmult_0_l.
    apply of_nat_Q_pos, Hpos. }
  split.
  - unfold node_ratio.
    destruct (unique_ratio (uniqueattrs cfg) l r) as [q|] eqn:Hu;
      [exact (unique_ratio_bounds _ _ _ _ Hu)|].
    pose proof (leaf_ratio_bounds l r) as Hleaf.
    destruct (leaf_ratio dmp_levenshtein l r) as [lw m]. cbn [snd] in Hleaf.
    destruct (child_ratio l2r l r) as [cw [cr|]] eqn:Hc; [|exact Hleaf].
    destruct (Hchild cw cr eq_refl) as [Hcw Hcr].
    apply Q_ratio_bounds; [apply of_nat_Q_nonneg|done..].
  - intros cr Hcr. destruct (child_ratio l2r l r) as [cw o] eqn:Hc.
    cbn [snd] in Hcr. subst o. apply (Hchild cw cr eq_refl).
Qed.

End RatioBounds.

Lemma dmp_example_bounded a b : dmp_example a b <= max (length a) (length b).
Proof. unfold dmp_example. destruct (bool_decide _); lia. Qed.

Lemma node_ratio_in_unit_interval_witness :
  (0 <= node_ratio dmp_example cfg_default ∅ cba abc <= 1)%Q
  /\ forall cr, (child_ratio ∅ cba abc).2 = Some cr -> (0 <= cr <= 1)%Q.
Proof.
  apply (node_ratio_in_unit_interval dmp_example cfg_default dmp_example_bounded).
Defined.

(** X11.  With a text distance that is 0 on equal strings, a node whose
    children are all paired with themselves has similarity 1 with
    itself, whatever its unique attributes and its text are. *)
Theorem node_ratio_of_node_with_itself (dmp_levenshtein : pystr -> pystr -> nat)
    (cfg : Differ_config) (l2r : gmap nat nat) (n : tree) :
  (forall s, dmp_levenshtein s s = 0) ->
  (forall c, c ∈ kids n -> l2r !! nid c = Some (nid c)) ->
  (node_ratio dmp_levenshtein cfg l2r n n == 1)%Q.
Proof. intros Hd Hk. apply node_ratio_self; done. Qed.

(** <p class="x">some text<a/><b/></p>, its two children paired with
    themselves. *)
Definition paragraph : tree :=
  Node 0 "p" {[ "class"%string := "x"%string ]} (Some (of_string "some text")) None
       [empty_elem 1 "a" []; empty_elem 2 "b" []].

Definition paragraph_children : gmap nat nat := {[ 1%nat := 1%nat; 2%nat := 2%nat ]}.

Lemma node_ratio_of_node_with_itself_witness :
  (node_ratio dmp_example cfg_default paragraph_children paragraph paragraph == 1)%Q.
Proof.
  apply (node_ratio_of_node_with_itself dmp_example cfg_default
           paragraph_children paragraph).
  - intros s. unfold dmp_example. rewrite bool_decide_eq_true_2; done.
  - intros c Hc. cbn [paragraph kids] in Hc.
    repeat (apply elem_of_cons in Hc as [->|Hc]; [vm_compute; reflexivity|]).
    inversion Hc.
Defined.

(** X12.  Without the LCS pre-pass and with a threshold [F <= 1],
    [match] of a tree against its own copy pairs every node with its
    copy, in both maps. *)
Theorem match_same_tree_is_identity (dmp_levenshtein : pystr -> pystr -> nat)
    (cfg : Differ_config) (T : tree) :
  (forall s, dmp_levenshtein s s = 0) -> (F cfg <= 1)%Q ->
  fast_match cfg = false -> NoDup (ids T) ->
  exists st, match_ dmp_levenshtein cfg T T = Ok st
    /\ forall n, n ∈ subtrees T ->
         l2rmap st !! nid n = Some (nid n) /\ r2lmap st !! nid n = Some (nid n).
Proof.
  intros Hd HF Hfast Hnd.
  destruct (match_self dmp_levenshtein cfg T Hd HF Hfast Hnd)
    as (st & Hm & _ & _ & Hl & Hr).
  exists st. split; [exact Hm|]. intros n Hn. split; [apply Hl|apply Hr]; exact Hn.
Qed.

Lemma match_same_tree_is_identity_witness :
  exists st, match_ dmp_example cfg_default pap pap = Ok st
    /\ forall n, n ∈ subtrees pap ->
         l2rmap st !! nid n = Some (nid n) /\ r2lmap st !! nid n = Some (nid n).
Proof.
  apply (match_same_tree_is_identity dmp_example cfg_default pap).
  - intros s. unfold dmp_example. rewrite bool_decide_eq_true_2; done.
  - vm_compute. discriminate.
  - reflexivity.
  - apply (bool_decide_unpack _). vm_compute. reflexivity.
Defined.

(** ** The in-place updates of the generator *)

Lemma sorted_keys_elem (s : gset string) k : k ∈ sorted_keys s <-> k ∈ s.
Proof.
  unfold sorted_keys. rewrite merge_sort_Permutation. apply elem_of_elements.
Qed.

Lemma bool_decide_cons_ne {X} `{EqDecision X} (k key : X) (rest : list X) :
  k <> key -> bool_decide (k ∈ key :: rest) = bool_decide (k ∈ rest).
Proof.
  intros Hne. apply bool_decide_ext. rewrite elem_of_cons. tauto.
Qed.

Lemma update_common_lookup xp ra : forall keys la k,
  (update_common xp keys la ra).2 !! k
  = match ra !! k with
    | Some v => if bool_decide (k ∈ keys) then Some v else la !! k
    | None => la !! k
    end.
Proof.
  induction keys as [|key rest IH]; intros la k; cbn [update_common].
  { destruct (ra !! k); done. }
  destruct (ra !! key) as [v|] eqn:Hv.
  - case_bool_decide as Hd.
    + pose proof (IH (<[key := v]> la) k) as Hk.
      destruct (update_common xp rest (<[key := v]> la) ra) as [acts la'].
      cbn [snd] in *. rewrite Hk. destruct (decide (k = key)) as [->|Hne].
      * rewrite Hv, lookup_insert_eq.
        rewrite (bool_decide_eq_true_2 (key ∈ key :: rest)) by apply list_elem_of_here.
        destruct (bool_decide _); done.
      * rewrite lookup_insert_ne, (bool_decide_cons_ne k key rest Hne) by done. done.
    + rewrite IH. destruct (decide (k = key)) as [->|Hne].
      * rewrite Hv.
        rewrite (bool_decide_eq_true_2 (key ∈ key :: rest)) by apply list_elem_of_here.
        destruct (bool_decide _); [done|].
        destruct (decide (la !! key = Some v)); [done|]. exfalso. auto.
      * rewrite (bool_decide_cons_ne k key rest Hne). done.
  - rewrite IH. destruct (decide (k = key)) as [->|Hne].
    + rewrite Hv. done.
    + rewrite (bool_decide_cons_ne k key rest Hne). done.
Qed.

Lemma insert_new_lookup xp ra : forall keys la k,
  (insert_new xp keys la ra).2 !! k
  = match ra !! k with
    | Some v => if bool_decide (k ∈ keys) then Some v else la !! k
    | None => la !! k
    end.
Proof.
  induction keys as [|key rest IH]; intros la k; cbn [insert_new].
  { destruct (ra !! k); done. }
  destruct (ra !! key) as [v|] eqn:Hv.
  - pose proof (IH (<[key := v]> la) k) as Hk.
    destruct (insert_new xp rest (<[key := v]> la) ra) as [acts la'].
    cbn [snd] in *. rewrite Hk. destruct (decide (k = key)) as [->|Hne].
    + rewrite Hv, lookup_insert_eq.
      rewrite (bool_decide_eq_true_2 (key ∈ key :: rest)) by apply list_elem_of_here.
      destruct (bool_decide _); done.
    + rewrite lookup_insert_ne, (bool_decide_cons_ne k key rest Hne) by done. done.
  - rewrite IH. destruct (decide (k = key)) as [->|Hne].
    + rewrite Hv. done.
    + rewrite (bool_decide_cons_ne k key rest Hne). done.
Qed.

Lemma delete_removed_lookup xp : forall keys la k,
  (delete_removed xp keys la).2 !! k
  = if bool_decide (k ∈ keys) then None else la !! k.
Proof.
  induction keys as [|key rest IH]; intros la k; cbn [delete_removed]; [done|].
  destruct (la !! key) as [v|] eqn:Hv.
  - pose proof (IH (delete key la) k) as Hk.
    destruct (delete_removed xp rest (delete key la)) as [acts la'].
    cbn [snd] in *. rewrite Hk. destruct (decide (k = key)) as [->|Hne].
    + rewrite lookup_delete_eq.
      rewrite (bool_decide_eq_true_2 (key ∈ key :: rest)) by apply list_elem_of_here.
      destruct (bool_decide _); done.
    + rewrite lookup_delete_ne, (bool_decide_cons_ne k key rest Hne) by done. done.
  - rewrite IH. destruct (decide (k = key)) as [->|Hne].
    + rewrite Hv.
      rewrite (bool_decide_eq_true_2 (key ∈ key :: rest)) by apply list_elem_of_here.
      destruct (bool_decide _); done.
    + rewrite (bool_decide_cons_ne k key rest Hne). done.
Qed.

(** The three loops of [update_node_attr] leave the attributes of the
    right node. *)
Lemma attr_loops_sync xp (la ra : gmap string string) :
  (delete_removed xp (sorted_keys (dom la ∖ dom ra))
     (insert_new xp (sorted_keys (dom ra ∖ dom la))
        (update_common xp (sorted_keys (dom la ∩ dom ra)) la ra).2 ra).2).2
  = ra.
Proof.
  apply map_eq. intros k.
  rewrite delete_removed_lookup, insert_new_lookup, update_common_lookup.
  destruct (ra !! k) as [v|] eqn:Hr, (la !! k) as [w|] eqn:Hl.
  - rewrite (bool_decide_eq_false_2 (k ∈ sorted_keys (dom la ∖ dom ra))).
    2:{ rewrite sorted_keys_elem, elem_of_difference, !elem_of_dom, Hr. intros [_ H].
        apply H. eauto. }
    rewrite (bool_decide_eq_false_2 (k ∈ sorted_keys (dom ra ∖ dom la))).
    2:{ rewrite sorted_keys_elem, elem_of_difference, !elem_of_dom, Hl. intros [_ H].
        apply H. eauto. }
    rewrite bool_decide_eq_true_2; [done|].
    rewrite sorted_keys_elem, elem_of_intersection, !elem_of_dom, Hl, Hr. eauto.
  - rewrite (bool_decide_eq_false_2 (k ∈ sorted_keys (dom la ∖ dom ra))).
    2:{ rewrite sorted_keys_elem, elem_of_difference, !elem_of_dom, Hl.
        intros [[? ?] _]. done. }
    rewrite (bool_decide_eq_true_2 (k ∈ sorted_keys (dom ra ∖ dom la))); [done|].
    rewrite sorted_keys_elem, elem_of_difference, !elem_of_dom, Hl, Hr.
    split; [eauto|]. intros [? ?]. done.
  - rewrite (bool_decide_eq_true_2 (k ∈ sorted_keys (dom la ∖ dom ra))); [done|].
    rewrite sorted_keys_elem, elem_of_difference, !elem_of_dom, Hl, Hr.
    split; [eauto|]. intros [? ?]. done.
  - rewrite (bool_decide_eq_false_2 (k ∈ sorted_keys (dom la ∖ dom ra))); [done|].
    rewrite sorted_keys_elem, elem_of_difference, !elem_of_dom, Hl.
    intros [[? ?] _]. done.
Qed.

(** *** The node an update writes *)

Lemma kid_ids_sublist k : forall ks,
  k ∈ ks -> ids k `sublist_of` map nid (flat_map subtrees ks).
Proof.
  induction ks as [|c ks IH]; intros Hk; [inversion Hk|].
  cbn [flat_map]. rewrite map_app. apply elem_of_cons in Hk as [->|Hk].
  - apply sublist_inserts_r. done.
  - apply sublist_inserts_l, IH, Hk.
Qed.

Lemma kid_NoDup t k : NoDup (ids t) -> k ∈ kids t -> NoDup (ids k).
Proof.
  rewrite ids_unfold. intros [_ Hnd]%NoDup_cons Hk.
  eapply sublist_NoDup; [exact Hnd|apply kid_ids_sublist, Hk].
Qed.

(** A function on nodes that keeps the identity and the children. *)
Definition keeps_shape (f : tree -> tree) : Prop :=
  forall x, nid (f x) = nid x /\ kids (f x) = kids x.

Lemma update_node_ids i f : keeps_shape f ->
  forall t, ids (update_node i f t) = ids t.
Proof.
  intros Hf. induction t as [j tg a tx tl ks IH] using tree_ind_kids.
  cbn [update_node nid tag attrib text tail kids].
  set (t' := Node j tg a tx tl (map (update_node i f) ks)).
  assert (ids t' = ids (Node j tg a tx tl ks)) as Ht'.
  { rewrite !ids_unfold. subst t'. cbn [nid kids]. f_equal.
    induction IH as [|k ks Hk _ IHks]; cbn [map flat_map]; [done|].
    rewrite !map_app. unfold ids in Hk. rewrite Hk, IHks. done. }
  destruct (j =? i); [|exact Ht'].
  rewrite <- Ht', (ids_unfold (f t')), (ids_unfold t').
  destruct (Hf t') as [-> ->]. done.
Qed.

Lemma update_node_member i f : keeps_shape f ->
  forall t n, NoDup (ids t) -> n ∈ subtrees t -> nid n = i ->
  f n ∈ subtrees (update_node i f t).
Proof.
  intros Hf. induction t as [j tg a tx tl ks IH] using tree_ind_kids.
  intros n Hnd Hn Hi. cbn [update_node nid tag attrib text tail kids].
  rewrite subtrees_unfold in Hn. cbn [kids] in Hn.
  apply elem_of_cons in Hn as [->|Hn].
  - cbn [nid] in Hi. subst j. rewrite Nat.eqb_refl.
    assert (map (update_node i f) ks = ks) as ->; [|apply subtrees_refl].
    rewrite <- (map_id ks) at 2. apply map_ext_in. intros k Hk.
    apply list_elem_of_In in Hk. apply update_node_same. intros x Hx Hxi.
    exfalso.
    assert (x ∈ flat_map subtrees ks) as Hin by (apply elem_of_flat_map; eauto).
    rewrite ids_unfold in Hnd. cbn [nid kids] in Hnd.
    apply NoDup_cons in Hnd as [Hroot _]. apply Hroot. rewrite <- Hxi.
    apply (list_elem_of_fmap_2 nid _ _ Hin).
  - assert (j <> i) as Hji.
    { rewrite ids_unfold in Hnd. cbn [nid kids] in Hnd.
      apply NoDup_cons in Hnd as [Hroot _]. intros ->. apply Hroot.
      rewrite <- Hi. apply (list_elem_of_fmap_2 nid _ _ Hn). }
    rewrite (proj2 (Nat.eqb_neq j i) Hji).
    apply elem_of_flat_map in Hn as (k & Hk & Hn).
    rewrite subtrees_unfold. cbn [kids]. apply elem_of_cons. right.
    apply elem_of_flat_map. exists (update_node i f k).
    split; [apply (list_elem_of_fmap_2 (update_node i f) _ _ Hk)|].
    rewrite Forall_forall in IH. apply IH; [done| |done|done].
    apply (kid_NoDup (Node j tg a tx tl ks) k Hnd Hk).
Qed.

(** After [update_node] the node with the identity is the updated node. *)
Lemma find_node_update i f t n :
  keeps_shape f -> NoDup (ids t) -> n ∈ subtrees t -> nid n = i ->
  find_node i (update_node i f t) = Some (f n).
Proof.
  intros Hf Hnd Hn Hi.
  assert (NoDup (ids (update_node i f t))) as Hnd'
    by (rewrite update_node_ids; done).
  pose proof (find_node_unique _ _ Hnd' (update_node_member i f Hf t n Hnd Hn Hi))
    as H.
  rewrite (proj1 (Hf n)), Hi in H. exact H.
Qed.

Lemma keeps_shape_set_attrib a : keeps_shape (set_attrib a).
Proof. intros x. done. Qed.
Lemma keeps_shape_set_text v : keeps_shape (set_text v).
Proof. intros x. done. Qed.
Lemma keeps_shape_set_tail v : keeps_shape (set_tail v).
Proof. intros x. done. Qed.
Lemma keeps_shape_set_tag v : keeps_shape (set_tag v).
Proof. intros x. done. Qed.

(** X13.  [update_node_attr] succeeds on every node of the left tree,
    and afterwards the node carries exactly the attributes of the right
    node; nothing else of the node and no identity of the tree
    changes. *)
Theorem update_node_attr_copies_attributes (st : Differ) (left right : tree) :
  NoDup (ids (left_tree st)) -> left ∈ subtrees (left_tree st) ->
  exists acts st',
    update_node_attr (nid left) right st = Ok (acts, st')
    /\ left_node st' (nid left) = Ok (set_attrib (attrib right) left)
    /\ ids (left_tree st') = ids (left_tree st).
Proof.
  intros Hnd Hl. unfold update_node_attr, left_node.
  rewrite (find_node_unique _ _ Hnd Hl).
  destruct (getpath_Ok (nid left) (left_tree st) (subtrees_ids _ _ Hl)) as [xp ->].
  cbn [mbind res_bind].
  pose proof (attr_loops_sync xp (attrib left) (attrib right)) as Hsync.
  destruct (update_common xp _ (attrib left) (attrib right)) as [a1 la1].
  cbn [snd] in Hsync.
  destruct (insert_new xp _ la1 (attrib right)) as [a2 la2]. cbn [snd] in Hsync.
  destruct (delete_removed xp _ la2) as [a3 la3]. cbn [snd] in Hsync. subst la3.
  eexists _, _. split; [reflexivity|]. cbn [left_tree with_left]. split.
  - rewrite (find_node_update _ _ _ left (keeps_shape_set_attrib _) Hnd Hl eq_refl).
    done.
  - apply update_node_ids, keeps_shape_set_attrib.
Qed.

Lemma update_node_attr_copies_attributes_witness :
  exists acts st',
    update_node_attr (nid cba) abc (set_trees cba abc) = Ok (acts, st')
    /\ left_node st' (nid cba) = Ok (set_attrib (attrib abc) cba)
    /\ ids (left_tree st') = ids (left_tree (set_trees cba abc)).
Proof.
  apply (update_node_attr_copies_attributes (set_trees cba abc) cba abc).
  - apply (bool_decide_unpack _). vm_compute. reflexivity.
  - apply subtrees_refl.
Defined.

(** X14.  [update_node_text] succeeds on every node of the left tree;
    it emits [UpdateTextIn] exactly when the texts differ and
    [UpdateTextAfter] exactly when the tails differ, both with the path
    of the node, and afterwards the node has the text and the tail of
    the right node. *)
Theorem update_node_text_copies_text (st : Differ) (left right : tree) :
  NoDup (ids (left_tree st)) -> left ∈ subtrees (left_tree st) ->
  exists xp st',
    getpath (nid left) (left_tree st) = Ok xp
    /\ update_node_text (nid left) right st
       = Ok ((if bool_decide (text left <> text right)
              then [UpdateTextIn xp (text right)] else [])
             ++ (if bool_decide (tail left <> tail right)
                 then [UpdateTextAfter xp (tail right)] else []), st')
    /\ left_node st' (nid left)
       = Ok (set_tail (tail right) (set_text (text right) left)).
Proof.
  intros Hnd Hl. unfold update_node_text, left_node.
  rewrite (find_node_unique _ _ Hnd Hl).
  destruct (getpath_Ok (nid left) (left_tree st) (subtrees_ids _ _ Hl)) as [xp ->].
  cbn [mbind res_bind]. exists xp.
  assert (forall v, v = text left -> set_text v left = left) as Htext
    by (intros v ->; destruct left; done).
  assert (forall v x, v = tail x -> set_tail v x = x) as Htail
    by (intros v x ->; destruct x; done).
  destruct (bool_decide_reflect (text left <> text right)) as [Ht|Ht];
    destruct (bool_decide_reflect (tail left <> tail right)) as [Hq|Hq];
    eexists; (split; [reflexivity|]); (split; [reflexivity|]);
    cbn [left_tree with_left].
  - pose proof (find_node_update (nid left) (set_text (text right)) _ left
                  (keeps_shape_set_text _) Hnd Hl eq_refl) as H1.
    rewrite (find_node_update (nid left) (set_tail (tail right)) _
               (set_text (text right) left) (keeps_shape_set_tail _)); [done| | |done].
    + rewrite update_node_ids; [done|apply keeps_shape_set_text].
    + apply update_node_member; [apply keeps_shape_set_text|done..].
  - rewrite (find_node_update _ _ _ left (keeps_shape_set_text _) Hnd Hl eq_refl).
    rewrite (Htail (tail right) (set_text (text right) left)); [done|].
    destruct (decide (tail left = tail right)) as [<-|]; [done|]. exfalso. auto.
  - rewrite (find_node_update _ _ _ left (keeps_shape_set_tail _) Hnd Hl eq_refl).
    rewrite (Htext (text right)); [done|].
    destruct (decide (text left = text right)) as [<-|]; [done|]. exfalso. auto.
  - rewrite (find_node_unique _ _ Hnd Hl).
    rewrite (Htext (text right)), (Htail (tail right) left); [done| |].
    + destruct (decide (tail left = tail right)) as [<-|]; [done|]. exfalso. auto.
    + destruct (decide (text left = text right)) as [<-|]; [done|]. exfalso. auto.
Qed.

Lemma update_node_text_copies_text_witness :
  exists xp st',
    getpath (nid cba) (left_tree (set_trees cba abc)) = Ok xp
    /\ update_node_text (nid cba) abc (set_trees cba abc)
       = Ok ((if bool_decide (text cba <> text abc)
              then [UpdateTextIn xp (text abc)] else [])
             ++ (if bool_decide (tail cba <> tail abc)
                 then [UpdateTextAfter xp (tail abc)] else []), st')
    /\ left_node st' (nid cba)
       = Ok (set_tail (tail abc) (set_text (text abc) cba)).
Proof.
  apply (update_node_text_copies_text (set_trees cba abc) cba abc).
  - apply (bool_decide_unpack _). vm_compute. reflexivity.
  - apply subtrees_refl.
Defined.

(** ** [Differ.find_pos] *)

Lemma subtree_NoDup : forall t n, NoDup (ids t) -> n ∈ subtrees t -> NoDup (ids n).
Proof.
  induction t as [i tg a tx tl ks IH] using tree_ind_kids. intros n Hnd Hn.
  rewrite subtrees_unfold in Hn. cbn [kids] in Hn.
  apply elem_of_cons in Hn as [->|Hn]; [done|].
  apply elem_of_flat_map in Hn as (k & Hk & Hn).
  rewrite Forall_forall in IH. apply (IH k Hk n); [|done].
  apply (kid_NoDup (Node i tg a tx tl ks) k Hnd Hk).
Qed.

Lemma kids_nid_sublist : forall ks,
  map nid ks `sublist_of` map nid (flat_map subtrees ks).
Proof.
  induction ks as [|k ks IH]; [done|].
  cbn [map flat_map]. rewrite map_app, (subtrees_unfold k). cbn [map app].
  apply sublist_skip, sublist_inserts_l, IH.
Qed.

Lemma kids_NoDup t n : NoDup (ids t) -> n ∈ subtrees t -> NoDup (map nid (kids n)).
Proof.
  intros Hnd Hn. pose proof (subtree_NoDup t n Hnd Hn) as Hn'.
  rewrite ids_unfold in Hn'. apply NoDup_cons in Hn' as [_ Hn'].
  eapply sublist_NoDup; [exact Hn'|apply kids_nid_sublist].
Qed.

Lemma index_of_middle node : forall before after,
  (forall s, s ∈ before -> nid s <> nid node) ->
  index_of (nid node) (before ++ node :: after) = Some (length before).
Proof.
  induction before as [|c before IH]; intros after H; cbn [app index_of length].
  - rewrite Nat.eqb_refl. done.
  - rewrite (proj2 (Nat.eqb_neq _ _) (H c (list_elem_of_here _ _))).
    rewrite IH; [done|]. intros s Hs. apply H, list_elem_of_further, Hs.
Qed.

Lemma find_none_all {X} (f : X -> bool) (l : list X) :
  (forall x, x ∈ l -> f x = false) -> List.find f l = None.
Proof.
  induction l as [|x l IH]; intros H; cbn [List.find]; [done|].
  rewrite (H x (list_elem_of_here _ _)). apply IH.
  intros y Hy. apply H, list_elem_of_further, Hy.
Qed.

(** X15.  In a right tree whose nodes are distinct, [find_pos] raises
    [AttributeError] for the root (which has no parent to take the index
    in), also when the root is the whole tree; and it returns 0 for
    every node none of whose earlier siblings is marked in order,
    whatever is marked elsewhere. *)
Theorem find_pos_first_position (st : Differ) :
  NoDup (ids (right_tree st)) ->
  find_pos st (right_tree st) = Raise AttributeError
  /\ forall (parent node : tree) (before after : list tree),
       parent ∈ subtrees (right_tree st) ->
       kids parent = before ++ node :: after ->
       (forall s, s ∈ before -> inr (nid s) ∉ inorder st) ->
       find_pos st node = Ok 0.
Proof.
  intros Hnd. split; [unfold find_pos; rewrite (getparent_root _ Hnd); done|].
  intros parent node before after Hp Hk Hbefore.
  - assert (node ∈ kids parent) as Hin.
    { rewrite Hk. apply elem_of_app. right. apply list_elem_of_here. }
    unfold find_pos. rewrite (getparent_unique _ parent node Hnd Hp Hin).
    cbn [raise_if_none mbind res_bind].
    pose proof (kids_NoDup _ parent Hnd Hp) as Hkn. rewrite Hk, map_app in Hkn.
    apply NoDup_app in Hkn as (_ & Hdisj & _).
    rewrite Hk, index_of_middle.
    2:{ intros s Hs Heq. apply (Hdisj (nid s)).
        - apply (list_elem_of_fmap_2 nid _ _ Hs).
        - rewrite Heq. apply list_elem_of_here. }
    cbn [raise_if_none mbind res_bind]. rewrite take_app_length, find_none_all; [done|].
    intros s Hs. apply bool_decide_eq_false_2, Hbefore, (proj1 (elem_of_rev s before) Hs).
Qed.

(** On [cba] against [abc] with the pair of [c] marked in order (left 1,
    right 3): the root raises, and [b], whose earlier sibling [a] is not
    in order, gets position 0 although the later sibling [c] is in
    order. *)
Lemma find_pos_first_position_witness :
  find_pos (mark_inorder 1 3 (set_trees cba abc))
           (right_tree (mark_inorder 1 3 (set_trees cba abc)))
  = Raise AttributeError
  /\ find_pos (mark_inorder 1 3 (set_trees cba abc)) (empty_elem 2 "b" []) = Ok 0.
Proof.
  assert (NoDup (ids (right_tree (mark_inorder 1 3 (set_trees cba abc))))) as Hnd
    by (apply (bool_decide_unpack _); vm_compute; reflexivity).
  split.
  - apply (proj1 (find_pos_first_position (mark_inorder 1 3 (set_trees cba abc)) Hnd)).
  - apply (proj2 (find_pos_first_position (mark_inorder 1 3 (set_trees cba abc)) Hnd)
             abc (empty_elem 2 "b" []) [empty_elem 1 "a" []] [empty_elem 3 "c" []]).
    + apply subtrees_refl.
    + reflexivity.
    + intros s Hs. apply elem_of_cons in Hs as [->|Hs]; [|inversion Hs].
      apply (bool_decide_unpack _). vm_compute. reflexivity.
Defined.

(** X16.  The counting loop of [find_pos] counts every left sibling up
    to and including the partner of the in-order sibling, whether it is
    in order or not, and leaves out only the partner of the node itself:
    the result is the index just behind the sibling's partner among the
    children without the node's partner. *)
Theorem count_position_counts_every_sibling (st : Differ) (node_match : option nat)
    (pre post : list tree) (s : tree) :
  Some (nid s) <> node_match ->
  (forall c, c ∈ pre -> nid c <> nid s) ->
  count_position st node_match (nid s) (pre ++ s :: post) 0
  = S (length (List.filter (fun c => negb (bool_decide (Some (nid c) = node_match))) pre)).
Proof.
  intros Hs Hpre.
  enough (forall i, count_position st node_match (nid s) (pre ++ s :: post) i
            = i + S (length (List.filter
                (fun c => negb (bool_decide (Some (nid c) = node_match))) pre)))
    as H by apply (H 0).
  assert (forall i, count_position st node_match (nid s) (s :: post) i = S i) as Hend.
  { intros i. cbn [count_position]. rewrite bool_decide_eq_false_2 by done.
    rewrite Nat.eqb_refl. unfold element_in_idmap. rewrite orb_true_r. done. }
  induction pre as [|c pre IH]; intros i; cbn [app].
  - rewrite Hend. cbn. lia.
  - cbn [count_position List.filter].
    assert (forall c', c' ∈ pre -> nid c' <> nid s) as Hpre'
      by (intros c' Hc'; apply Hpre, list_elem_of_further, Hc').
    destruct (bool_decide (Some (nid c) = node_match)); cbn [negb].
    + apply IH, Hpre'.
    + unfold element_in_idmap. rewrite orb_true_r.
      rewrite (proj2 (Nat.eqb_neq _ _) (Hpre c (list_elem_of_here _ _))).
      rewrite IH by exact Hpre'. cbn [length]. lia.
Qed.

Lemma count_position_counts_every_sibling_witness :
  count_position (set_trees cba abc) (Some 1) 3
    ([empty_elem 1 "c" []; empty_elem 2 "b" []] ++ empty_elem 3 "a" [] :: []) 0
  = S (length (List.filter (fun c => negb (bool_decide (Some (nid c) = Some 1)))
                 [empty_elem 1 "c" []; empty_elem 2 "b" []])).
Proof.
  apply (count_position_counts_every_sibling (set_trees cba abc) (Some 1)
           [empty_elem 1 "c" []; empty_elem 2 "b" []] [] (empty_elem 3 "a" [])).
  - discriminate.
  - intros c Hc. apply (bool_decide_unpack _).
    repeat (apply elem_of_cons in Hc as [->|Hc]; [reflexivity|]). inversion Hc.
Defined.

(** ** [placeholder.py]: encoding again, and trees without placeholders *)

Section Stable.
Context {K : Type} `{EqDecision K} (canonicalize : tree -> K).
Implicit Types m : PlaceholderMaker (K := K).

(** [m'] has the configuration of [m] and every placeholder [m] has
    given out, under the same key. *)
Definition knows m m' : Prop :=
  html m' = html m /\ text_tags m' = text_tags m
  /\ formatting_tags m' = formatting_tags m
  /\ single_formatting_tags m' = single_formatting_tags m
  /\ dual_formatting_tags m' = dual_formatting_tags m
  /\ forall key ph, lookup_tag key (tag2placeholder m) = Some ph ->
                    lookup_tag key (tag2placeholder m') = Some ph.

Lemma knows_refl m : knows m m.
Proof. repeat split; auto. Qed.

Lemma knows_trans m1 m2 m3 : knows m1 m2 -> knows m2 m3 -> knows m1 m3.
Proof.
  intros (A1 & A2 & A3 & A4 & A5 & A6) (B1 & B2 & B3 & B4 & B5 & B6).
  repeat split; try congruence. auto.
Qed.

Lemma get_placeholder_replay e tt c m ph m' :
  get_placeholder canonicalize e tt c m = Ok (ph, m') ->
  knows m m'
  /\ forall m2, knows m' m2 -> get_placeholder canonicalize e tt c m2 = Ok (ph, m2).
Proof.
  unfold get_placeholder.
  destruct (lookup_tag (canonicalize e, tt, c) (tag2placeholder m)) as [ph0|] eqn:Hl.
  - intros [= <- <-]. split; [apply knows_refl|].
    intros m2 (_ & _ & _ & _ & _ & Hk). rewrite (Hk _ _ Hl). done.
  - unfold chr. destruct (placeholder m + 1 <=? 1114111)%N; [|discriminate].
    cbn [mbind res_bind]. intros [= <- <-]. split.
    + repeat split; try done. intros key ph Hkey.
      cbn [tag2placeholder with_tables lookup_tag].
      destruct (decide ((canonicalize e, tt, c) = key)) as [<-|Hne]; [congruence|done].
    + intros m2 (_ & _ & _ & _ & _ & Hk).
      erewrite (Hk (canonicalize e, tt, c)); [done|].
      cbn [tag2placeholder with_tables lookup_tag]. rewrite decide_True; done.
Qed.

Lemma get_both_placeholders_replay e m po pc m' :
  get_both_placeholders canonicalize e m = Ok (po, pc, m') ->
  knows m m'
  /\ forall m2, knows m' m2 ->
       get_both_placeholders canonicalize e m2 = Ok (po, pc, m2).
Proof.
  unfold get_both_placeholders. intros H.
  assert (forall m2, knows m m2 ->
            html m2 = html m /\ single_formatting_tags m2 = single_formatting_tags m
            /\ dual_formatting_tags m2 = dual_formatting_tags m) as Hcfg.
  { intros m2 (A1 & _ & _ & A4 & A5 & _). done. }
  destruct (html m && bool_decide (tag e ∈ single_formatting_tags m)) eqn:Hs.
  - apply bind_Ok in H as ([ph m1] & Hg & H). injection H as <- <- <-.
    destruct (get_placeholder_replay _ _ _ _ _ _ Hg) as [Hk Hr].
    split; [done|]. intros m2 Hm2.
    destruct (Hcfg m2 (knows_trans _ _ _ Hk Hm2)) as (-> & -> & _).
    rewrite Hs, (Hr m2 Hm2). done.
  - destruct (html m && bool_decide (tag e ∈ dual_formatting_tags m)) eqn:Hd.
    + apply bind_Ok in H as ([phc m1] & Hg1 & H).
      apply bind_Ok in H as ([pho m2'] & Hg2 & H). injection H as <- <- <-.
      destruct (get_placeholder_replay _ _ _ _ _ _ Hg1) as [Hk1 Hr1].
      destruct (get_placeholder_replay _ _ _ _ _ _ Hg2) as [Hk2 Hr2].
      split; [eapply knows_trans; done|]. intros m2 Hm2.
      destruct (Hcfg m2 (knows_trans _ _ _ (knows_trans _ _ _ Hk1 Hk2) Hm2))
        as (-> & -> & ->).
      rewrite Hs, Hd, (Hr1 m2 (knows_trans _ _ _ Hk2 Hm2)). cbn [mbind res_bind].
      rewrite (Hr2 m2 Hm2). done.
    + apply bind_Ok in H as ([phc m1] & Hg1 & H).
      apply bind_Ok in H as ([pho m2'] & Hg2 & H). injection H as <- <- <-.
      destruct (get_placeholder_replay _ _ _ _ _ _ Hg1) as [Hk1 Hr1].
      destruct (get_placeholder_replay _ _ _ _ _ _ Hg2) as [Hk2 Hr2].
      split; [eapply knows_trans; done|]. intros m2 Hm2.
      destruct (Hcfg m2 (knows_trans _ _ _ (knows_trans _ _ _ Hk1 Hk2) Hm2))
        as (-> & -> & ->).
      rewrite Hs, Hd, (Hr1 m2 (knows_trans _ _ _ Hk2 Hm2)). cbn [mbind res_bind].
      rewrite (Hr2 m2 Hm2). done.
Qed.

(** What a second run of an encoder does, on a maker that knows the
    result of the first run. *)
Definition replays (encode : PlaceholderMaker -> tree -> res (PlaceholderMaker * tree))
    (c : tree) : Prop :=
  forall m m' c', encode m c = Ok (m', c') ->
    knows m m' /\ forall m2, knows m' m2 -> encode m2 c = Ok (m2, c').

Lemma do_children_replay encode : forall children,
  Forall (replays encode) children ->
  forall m txt kept m' txt' ks',
  do_children canonicalize encode m children txt kept = Ok (m', txt', ks') ->
  knows m m'
  /\ forall m2, knows m' m2 ->
       do_children canonicalize encode m2 children txt kept = Ok (m2, txt', ks').
Proof.
  induction 1 as [|child rest Hc _ IH]; intros m txt kept m' txt' ks';
    cbn [do_children].
  - intros [= <- <- <-]. split; [apply knows_refl|done].
  - unfold is_formatting. destruct (bool_decide (tag child ∈ formatting_tags m)) eqn:Hf.
    + intros H. apply bind_Ok in H as ([m1 child'] & He & H).
      apply bind_Ok in H as ([[po pc] m2'] & Hg & H).
      destruct (Hc _ _ _ He) as [Hk1 Hr1].
      destruct (get_both_placeholders_replay _ _ _ _ _ Hg) as [Hk2 Hr2].
      assert (exists txt1 kept1,
        do_children canonicalize encode m2' rest txt1 kept1 = Ok (m', txt', ks')
        /\ forall m2, do_children canonicalize encode m2 rest txt1 kept1
                      = match kept with
                        | previous_child :: kept' =>
                            do_children canonicalize encode m2 rest txt
                              (append_tail (po :: or_empty (text child') ++ pc
                                            ++ or_empty (tail child')) previous_child
                               :: kept')
                        | [] => do_children canonicalize encode m2 rest
                                  (Some (or_empty txt ++ po :: or_empty (text child')
                                         ++ pc ++ or_empty (tail child'))) []
                        end) as (txt1 & kept1 & Hrest & Hshape).
      { destruct kept as [|p kept']; eexists _, _; (split; [exact H|done]). }
      destruct (IH _ _ _ _ _ _ Hrest) as [Hk3 Hr3].
      split; [eapply knows_trans; [|exact Hk3]; eapply knows_trans; done|].
      intros m2 Hm2.
      pose proof (knows_trans _ _ _ Hk3 Hm2) as Hm2'.
      pose proof (knows_trans _ _ _ Hk2 Hm2') as Hm1.
      destruct (knows_trans _ _ _ Hk1 Hm1) as (_ & _ & -> & _).
      rewrite Hf, (Hr1 m2 Hm1). cbn [mbind res_bind].
      rewrite (Hr2 m2 Hm2'). cbn [mbind res_bind].
      rewrite <- Hshape. apply Hr3, Hm2.
    + intros H. destruct (IH _ _ _ _ _ _ H) as [Hk Hr]. split; [done|].
      intros m2 Hm2. destruct (knows_trans _ _ _ Hk Hm2) as (_ & _ & -> & _).
      rewrite Hf. apply Hr, Hm2.
Qed.

Lemma do_element_replay : forall e, replays (do_element canonicalize) e.
Proof.
  induction e as [i tg a tx tl ks IH] using tree_ind_kids. intros m m' e'.
  cbn [do_element kids text nid tag attrib tail]. intros H.
  apply bind_Ok in H as ([[m1 txt] ks'] & Hc & H). injection H as <- <-.
  destruct (do_children_replay _ _ IH _ _ _ _ _ _ Hc) as [Hk Hr].
  split; [done|]. intros m2 Hm2. rewrite (Hr m2 Hm2). done.
Qed.

Lemma do_tree_children_replay encode : forall children,
  Forall (replays encode) children ->
  forall m m' ks',
  do_tree_children encode children m = Ok (m', ks') ->
  knows m m'
  /\ forall m2, knows m' m2 -> do_tree_children encode children m2 = Ok (m2, ks').
Proof.
  induction 1 as [|child rest Hc _ IH]; intros m m' ks'; cbn [do_tree_children].
  - intros [= <- <-]. split; [apply knows_refl|done].
  - intros H. apply bind_Ok in H as ([m1 rest'] & Hr & H).
    apply bind_Ok in H as ([m2' child'] & He & H). injection H as <- <-.
    destruct (IH _ _ _ Hr) as [Hk1 Hr1]. destruct (Hc _ _ _ He) as [Hk2 Hr2].
    split; [eapply knows_trans; done|]. intros m2 Hm2.
    rewrite (Hr1 m2 (knows_trans _ _ _ Hk2 Hm2)). cbn [mbind res_bind].
    rewrite (Hr2 m2 Hm2). done.
Qed.

Lemma do_tree_replay : forall e, replays (do_tree canonicalize) e.
Proof.
  induction e as [i tg a tx tl ks IH] using tree_ind_kids. intros m m' e'.
  cbn [do_tree kids text nid tag attrib tail]. intros H.
  apply bind_Ok in H as ([m1 ks'] & Hc & H).
  destruct (do_tree_children_replay _ _ IH _ _ _ Hc) as [Hk1 Hr1].
  destruct (bool_decide (tg ∈ text_tags m1)) eqn:Ht.
  - destruct (do_element_replay _ _ _ _ H) as [Hk2 Hr2].
    split; [eapply knows_trans; done|]. intros m2 Hm2.
    rewrite (Hr1 m2 (knows_trans _ _ _ Hk2 Hm2)). cbn [mbind res_bind].
    destruct (knows_trans _ _ _ Hk2 Hm2) as (_ & -> & _). rewrite Ht.
    apply Hr2, Hm2.
  - injection H as <- <-. split; [done|]. intros m2 Hm2.
    rewrite (Hr1 m2 Hm2). cbn [mbind res_bind].
    destruct Hm2 as (_ & -> & _). rewrite Ht. done.
Qed.

(** X17.  Encoding is stable: once [do_tree] has encoded a tree, encoding
    the same tree again with the maker it left allocates nothing (the
    maker is unchanged) and gives the same encoded tree, with the same
    code points. *)
Theorem do_tree_stable m (t : tree) m' (t' : tree) :
  do_tree canonicalize m t = Ok (m', t') ->
  do_tree canonicalize m' t = Ok (m', t').
Proof.
  intros H. destruct (do_tree_replay t m m' t' H) as [_ Hr].
  apply Hr, knows_refl.
Qed.

(** *** No formatting element: nothing to encode *)

Lemma do_children_plain encode m : forall children txt kept,
  (forall c, c ∈ children -> is_formatting m c = false) ->
  do_children canonicalize encode m children txt kept
  = Ok (m, txt, rev kept ++ children).
Proof.
  induction children as [|c rest IH]; intros txt kept Hc; cbn [do_children].
  - rewrite app_nil_r. done.
  - rewrite (Hc c (list_elem_of_here _ _)), IH.
    + cbn [rev]. rewrite <- app_assoc. done.
    + intros c' Hc'. apply Hc, list_elem_of_further, Hc'.
Qed.

Lemma do_tree_children_same encode m : forall children,
  (forall c, c ∈ children -> encode m c = Ok (m, c)) ->
  do_tree_children encode children m = Ok (m, children).
Proof.
  induction children as [|c rest IH]; intros Hc; cbn [do_tree_children]; [done|].
  rewrite IH by (intros c' Hc'; apply Hc, list_elem_of_further, Hc').
  cbn [mbind res_bind]. rewrite (Hc c (list_elem_of_here _ _)). done.
Qed.

(** X18.  A tree without formatting elements, and any tree when no text
    tag is configured, is left as it is by [do_tree], and no placeholder
    is allocated. *)
Theorem do_tree_without_formatting m (t : tree) :
  text_tags m = [] \/ (forall n, n ∈ subtrees t -> is_formatting m n = false) ->
  do_tree canonicalize m t = Ok (m, t).
Proof.
  intros Hcase. induction t as [i tg a tx tl ks IH] using tree_ind_kids.
  cbn [do_tree kids text nid tag attrib tail].
  rewrite do_tree_children_same.
  - cbn [mbind res_bind]. destruct Hcase as [Hnone|Hplain].
    + rewrite Hnone, bool_decide_eq_false_2 by apply not_elem_of_nil. done.
    + destruct (bool_decide (tg ∈ text_tags m)); [|done].
      cbn [do_element kids text nid tag attrib tail].
      rewrite do_children_plain; [done|].
      intros c Hc. apply Hplain.
      apply (kids_subtrees (Node i tg a tx tl ks)), Hc.
  - intros c Hc. rewrite Forall_forall in IH. apply IH; [done|].
    destruct Hcase as [?|Hplain]; [auto|]. right. intros n Hn. apply Hplain.
    eapply subtrees_trans; [apply (kids_subtrees (Node i tg a tx tl ks)), Hc|done].
Qed.

End Stable.

Lemma do_tree_stable_witness :
  exists m m' t',
    do_tree canonical_form m (elem_with "p" [] "x" [elem_with "b" [] "y" []])
    = Ok (m', t')
    /\ do_tree canonical_form m' (elem_with "p" [] "x" [elem_with "b" [] "y" []])
       = Ok (m', t').
Proof.
  destruct (new_PlaceholderMaker canonical_form ["p"] ["b"]) as [m|] eqn:E;
    [|vm_compute in E; discriminate].
  destruct (do_tree canonical_form m (elem_with "p" [] "x" [elem_with "b" [] "y" []]))
    as [[m' t']|] eqn:E'.
  - exists m, m', t'. split; [exact E'|].
    apply (do_tree_stable canonical_form m _ m' t' E').
  - exfalso. vm_compute in E. injection E as <-. vm_compute in E'. discriminate.
Defined.

Lemma do_tree_without_formatting_witness :
  do_tree canonical_form (empty_maker false [] ["b"] [] [] []) pap
  = Ok (empty_maker false [] ["b"] [] [] [], pap).
Proof.
  apply (do_tree_without_formatting canonical_form). left. reflexivity.
Defined.

Section PlainText.
Context {K : Type} `{EqDecision K}.
Implicit Types m : PlaceholderMaker (K := K).

(** No character of the string is a placeholder of the maker. *)
Definition plain m (s : option pystr) : Prop :=
  forall c, c ∈ or_empty s -> placeholder2tag m !! c = None.

Lemma split_loop_plain (isph : N -> bool) : forall str cur,
  (forall c, c ∈ str -> isph c = false) ->
  split_loop isph str cur = [rev cur ++ str].
Proof.
  induction str as [|c rest IH]; intros cur Hp; cbn [split_loop].
  - rewrite app_nil_r. done.
  - rewrite (Hp c (list_elem_of_here _ _)), IH.
    + cbn [rev]. rewrite <- app_assoc. done.
    + intros c' Hc'. apply Hp, list_elem_of_further, Hc'.
Qed.

Lemma sweep_plain undo m (s : option pystr) :
  truthy s = true -> plain m s ->
  sweep undo m (split_string m (or_empty s)) Outside None [] = Ok (s, []).
Proof.
  intros Ht Hp. unfold split_string. rewrite split_loop_plain.
  - destruct s as [[|c str]|]; try discriminate.
    cbn [rev app or_empty default from_option id sweep].
    assert (is_placeholder m (c :: str) = false) as ->; [|done].
    destruct str; [|done]. cbn [is_placeholder].
    apply bool_decide_eq_false_2. rewrite (Hp c); [|apply list_elem_of_here].
    intros [? [=]].
  - intros c Hc. apply bool_decide_eq_false_2. rewrite (Hp c Hc). intros [? [=]].
Qed.

Lemma undo_each_same (undo : tree -> res (tree * list tree)) : forall children,
  Forall (fun c => undo c = Ok (c, [])) children ->
  undo_each undo children = Ok children.
Proof.
  induction 1 as [|c rest Hc _ IH]; cbn [undo_each]; [done|].
  rewrite Hc. cbn [mbind res_bind]. rewrite IH. done.
Qed.

Lemma undo_element_plain m : forall fuel (t : tree) has_parent,
  tree_size t <= fuel ->
  (forall n, n ∈ subtrees t -> plain m (text n) /\ plain m (tail n)) ->
  undo_element fuel m has_parent t = Ok (t, []).
Proof.
  induction fuel as [|fuel IH]; intros t has_parent Hsz Hp.
  { destruct t; cbn in Hsz; lia. }
  cbn [undo_element]. destruct (bool_decide (placeholder2tag m = ∅)); [done|].
  destruct (Hp t (subtrees_refl t)) as [Htext Htail].
  assert (undo_each (undo_element fuel m true) (kids t) = Ok (kids t)) as Hkids.
  { apply undo_each_same, Forall_forall. intros c Hc. apply IH.
    - rewrite tree_size_unfold in Hsz.
      apply list_elem_of_split in Hc as (l1 & l2 & Hc). rewrite Hc in Hsz.
      rewrite forest_size_app in Hsz.
      change (forest_size (c :: l2)) with (tree_size c + forest_size l2) in Hsz. lia.
    - intros n Hn. apply Hp. eapply subtrees_trans; [apply kids_subtrees, Hc|done]. }
  assert (forall s : option pystr, plain m s ->
    (if truthy s then
       '(ctext, cchildren) ← sweep (fun e => fst <$> undo_element fuel m false e) m
                               (split_string m (or_empty s)) Outside None [];
       if bool_decide (s <> ctext) then
         front ← undo_children (undo_element fuel m true) cchildren;
         Ok (ctext, front)
       else Ok (s, [])
     else Ok (s, [])) = Ok (s, [])) as Hstr.
  { intros s Hs. destruct (truthy s) eqn:Ht; [|done].
    rewrite sweep_plain by done. cbn [mbind res_bind].
    rewrite bool_decide_eq_false_2 by (intros Hne; apply Hne; done). done. }
  rewrite (Hstr _ Htext). cbn [mbind res_bind app]. rewrite Hkids.
  cbn [mbind res_bind].
  destruct (truthy (tail t)) eqn:Ht.
  - rewrite sweep_plain by done. cbn [mbind res_bind].
    rewrite bool_decide_eq_false_2 by (intros Hne; apply Hne; done).
    cbn [mbind res_bind]. destruct t; done.
  - cbn [mbind res_bind]. destruct t; done.
Qed.

(** X19.  Decoding finds nothing to do in a tree whose texts and tails
    hold no placeholder of the maker: with fuel for its size, [undo_tree]
    returns the tree as it is. *)
Theorem undo_tree_without_placeholders m fuel (t : tree) :
  tree_size t <= fuel ->
  (forall n, n ∈ subtrees t -> plain m (text n) /\ plain m (tail n)) ->
  undo_tree fuel m t = Ok t.
Proof.
  intros Hsz Hp. unfold undo_tree. rewrite undo_element_plain by done. done.
Qed.

End PlainText.

Lemma undo_tree_without_placeholders_witness :
  let m := default (empty_maker false ["p"] ["b"] [] [] [])
             (match new_PlaceholderMaker canonical_form ["p"] ["b"] with
              | Ok m => Some m | Raise _ => None end) in
  let t := elem_with "p" [] "one" [elem_with "i" [] "two" []] in
  placeholder2tag m <> ∅ /\ undo_tree 2 m t = Ok t.
Proof.
  intros m t. split.
  - intros Hm. assert (placeholder2tag m !! 57345%N = @None PlaceholderEntry) as Hl
      by (rewrite Hm; apply lookup_empty).
    vm_compute in Hl. discriminate.
  - apply (undo_tree_without_placeholders m 2 t).
    + vm_compute. lia.
    + apply Forall_forall. repeat constructor;
        intros c Hc; revert c Hc; apply Forall_forall;
        repeat constructor; vm_compute; reflexivity.
Defined.

(** ** [formatting.py]: the position of an inserted node *)

Definition is_deleted (child : tree) : bool :=
  bool_decide (is_Some (attrib child !! DELETE_NAME)).

(** The loop of [_get_real_insert_position] over [target.getchildren()]. *)
Fixpoint real_insert_loop (children : list tree) (position pos offset : Z) : Z :=
  match children with
  | [] => (position + offset)%Z
  | child :: rest =>
      let '(pos, offset) :=
        if is_deleted child then (pos, (offset + 1)%Z) else ((pos + 1)%Z, offset) in
      if (pos >? position)%Z then (position + offset)%Z
      else real_insert_loop rest position pos offset
  end.

(** [XMLFormatter._get_real_insert_position] *)
Definition _get_real_insert_position (target : tree) (position : Z) : Z :=
  real_insert_loop (kids target) position 0 0.

(** The children that are not marked as deleted. *)
Definition live (children : list tree) : list tree :=
  filter (fun c => is_deleted c = false) children.

Lemma live_cons c l :
  live (c :: l) = if is_deleted c then live l else c :: live l.
Proof.
  unfold live. rewrite filter_cons. destruct (is_deleted c).
  - rewrite decide_False by discriminate. done.
  - rewrite decide_True by done. done.
Qed.

Lemma real_insert_loop_spec position : forall children pos offset,
  (pos <= position)%Z ->
  (position - pos <= Z.of_nat (length (live children)))%Z ->
  exists j : nat,
    real_insert_loop children position pos offset
    = (pos + offset + Z.of_nat j)%Z
    /\ j <= length children
    /\ Z.of_nat (length (live (take j children))) = (position - pos)%Z
    /\ ((position - pos < Z.of_nat (length (live children)))%Z ->
        exists c, children !! j = Some c /\ is_deleted c = false)
    /\ ((position - pos = Z.of_nat (length (live children)))%Z ->
        j = length children).
Proof.
  induction children as [|child rest IH]; intros pos offset Hpos Hlive.
  - exists 0. cbn in *. repeat split; lia.
  - cbn [real_insert_loop]. rewrite live_cons in Hlive.
    destruct (is_deleted child) eqn:Hd.
    + assert ((pos >? position)%Z = false) as -> by lia.
      destruct (IH pos (offset + 1)%Z Hpos Hlive) as (j & Hr & Hj & Hcount & Hat & Hend).
      exists (S j). cbn [take lookup list_lookup length]. rewrite !live_cons, Hd.
      split; [rewrite Hr; lia|]. split; [lia|]. split; [done|].
      split; [exact Hat|]. intros E. rewrite (Hend E). done.
    + destruct (Z.eq_dec pos position) as [->|Hne].
      * assert ((position + 1 >? position)%Z = true) as -> by lia.
        exists 0. cbn [take lookup list_lookup length]. rewrite live_cons, Hd.
        cbn [live filter length]. split; [cbn; lia|]. split; [lia|]. split; [cbn; lia|].
        split; [eauto|]. cbn [length]. lia.
      * assert ((pos + 1 >? position)%Z = false) as -> by lia.
        cbn [length] in Hlive.
        destruct (IH (pos + 1)%Z offset) as (j & Hr & Hj & Hcount & Hat & Hend);
          [lia|lia|].
        exists (S j). cbn [take lookup list_lookup length]. rewrite !live_cons, Hd.
        cbn [length]. split; [rewrite Hr; lia|]. split; [lia|]. split; [lia|].
        split; [intros ?; apply Hat; lia|]. intros E. rewrite Hend; [done|lia].
Qed.

(** X20.  For a position between 0 and the number of children that are not
    marked as deleted, [_get_real_insert_position] returns an index [j]
    into all the children with exactly [position] children not marked as
    deleted before it; the child at [j] is not marked as deleted, and when
    [position] is the number of such children, [j] is the number of all
    children, so the node is appended. *)
Theorem real_insert_position_skips_deleted (target : tree) (position : nat) :
  position <= length (live (kids target)) ->
  exists j : nat,
    _get_real_insert_position target (Z.of_nat position) = Z.of_nat j
    /\ j <= length (kids target)
    /\ length (live (take j (kids target))) = position
    /\ (position < length (live (kids target)) ->
        exists c, kids target !! j = Some c /\ is_deleted c = false)
    /\ (position = length (live (kids target)) -> j = length (kids target)).
Proof.
  intros Hp. unfold _get_real_insert_position.
  destruct (real_insert_loop_spec (Z.of_nat position) (kids target) 0 0)
    as (j & Hr & Hj & Hcount & Hat & Hend); [lia|lia|].
  exists j. split; [rewrite Hr; lia|]. split; [done|]. split; [lia|].
  split; [intros ?; apply Hat; lia|]. intros ?; apply Hend; lia.
Qed.

Lemma real_insert_position_skips_deleted_witness :
  let gone := Node 1 "a" {[ DELETE_NAME := ""%string ]} None None [] in
  let target := empty_elem 0 "r" [gone; empty_elem 2 "b" []; gone; empty_elem 3 "c" []] in
  exists j : nat,
    _get_real_insert_position target 1 = Z.of_nat j
    /\ j <= 4
    /\ length (live (take j (kids target))) = 1
    /\ (1 < length (live (kids target)) ->
        exists c, kids target !! j = Some c /\ is_deleted c = false)
    /\ (1 = length (live (kids target)) -> j = 4).
Proof.
  intros gone target.
  apply (real_insert_position_skips_deleted target 1). vm_compute. lia.
Defined.

(** ** [html_formatter.py]: empty formatting elements *)

(** The tag lists of an [HTMLFormatter] that [cleanWhitespaceFormatting]
    reads. *)
Record HTMLFormatter := mkHTMLFormatter {
  fmt_text_tags : list string;
  fmt_dual_formatting_tags : list string;
  fmt_complex_formatting_tags : list string
}.

(** The test of [cleanWhitespaceFormatting] on a child. *)
Definition is_blank_formatting (self : HTMLFormatter) (child : tree) : bool :=
  (bool_decide (tag child ∈ fmt_dual_formatting_tags self)
   || bool_decide (tag child ∈ fmt_complex_formatting_tags self)
   || bool_decide (tag child ∈ fmt_text_tags self))
  && negb (0 <? length (kids child))
  && (negb (truthy (text child))
      || (length (strip (or_empty (text child))) =? 0)).

(** [for child in tree: ...; tree.remove(child)]: the iterator of lxml
    holds the next sibling, so every child is visited; a removed child
    takes its tail with it. *)
Fixpoint clean_children (clean : tree -> tree) (self : HTMLFormatter)
    (children : list tree) : list tree :=
  match children with
  | [] => []
  | child :: rest =>
      let child' := clean child in
      if is_blank_formatting self child' then clean_children clean self rest
      else child' :: clean_children clean self rest
  end.

(** [HTMLFormatter.cleanWhitespaceFormatting] *)
Fixpoint cleanWhitespaceFormatting (self : HTMLFormatter) (t : tree) : tree :=
  Node (nid t) (tag t) (attrib t) (text t) (tail t)
       (clean_children (cleanWhitespaceFormatting self) self (kids t)).

Lemma clean_children_elem clean self : forall children c',
  c' ∈ clean_children clean self children ->
  is_blank_formatting self c' = false /\ exists c, c ∈ children /\ c' = clean c.
Proof.
  induction children as [|child rest IH]; intros c'; cbn [clean_children].
  - intros []%elem_of_nil.
  - destruct (is_blank_formatting self (clean child)) eqn:Hb.
    + intros (Hc & c & Hin & ->)%IH. split; [done|]. exists c.
      split; [apply list_elem_of_further, Hin|done].
    + intros [->|(Hc & c & Hin & ->)%IH]%elem_of_cons.
      * split; [done|]. exists child. split; [apply list_elem_of_here|done].
      * split; [done|]. exists c. split; [apply list_elem_of_further, Hin|done].
Qed.

Lemma clean_children_same clean self : forall children,
  Forall (fun c => clean c = c /\ is_blank_formatting self c = false) children ->
  clean_children clean self children = children.
Proof.
  induction 1 as [|c rest [Hc Hb] _ IH]; cbn [clean_children]; [done|].
  rewrite Hc, Hb, IH. done.
Qed.

(** X21.  After [cleanWhitespaceFormatting], no element below the root is
    a childless dual-formatting, complex-formatting or text element with
    blank text: such elements are removed bottom-up, also those that are
    childless only after their own children were removed. *)
Theorem cleanWhitespaceFormatting_leaves_no_blank (self : HTMLFormatter) (t n : tree) :
  n ∈ subtrees (cleanWhitespaceFormatting self t) ->
  n = cleanWhitespaceFormatting self t \/ is_blank_formatting self n = false.
Proof.
  revert n. induction t as [i tg a tx tl ks IH] using tree_ind_kids. intros n Hn.
  cbn [cleanWhitespaceFormatting nid tag attrib text tail kids] in *.
  rewrite subtrees_unfold in Hn. cbn [kids] in Hn.
  apply elem_of_cons in Hn as [->|Hn]; [left; done|]. right.
  apply elem_of_flat_map in Hn as (c' & Hc' & Hn).
  apply clean_children_elem in Hc' as (Hb & c & Hc & ->).
  rewrite Forall_forall in IH. destruct (IH c Hc n Hn) as [->|Hn']; done.
Qed.

(** X22.  [cleanWhitespaceFormatting] is idempotent: a second pass over
    the cleaned tree removes nothing. *)
Theorem cleanWhitespaceFormatting_idempotent (self : HTMLFormatter) (t : tree) :
  cleanWhitespaceFormatting self (cleanWhitespaceFormatting self t)
  = cleanWhitespaceFormatting self t.
Proof.
  induction t as [i tg a tx tl ks IH] using tree_ind_kids.
  cbn [cleanWhitespaceFormatting nid tag attrib text tail kids]. f_equal.
  apply clean_children_same, Forall_forall. intros c' Hc'.
  apply clean_children_elem in Hc' as (Hb & c & Hc & ->).
  rewrite Forall_forall in IH. split; [apply IH, Hc|done].
Qed.

(** ** [formatting.py]: tokens of the rich text *)

Section Tokens.
Context {K : Type}.
Implicit Types m : PlaceholderMaker (K := K).

Lemma is_placeholder_true m tok :
  is_placeholder m tok = true ->
  exists c entry, tok = [c] /\ placeholder2tag m !! c = Some entry.
Proof.
  destruct tok as [|c [|]]; try discriminate. cbn [is_placeholder].
  intros [entry He]%bool_decide_eq_true_1. eauto.
Qed.

Lemma subscript_lookup `{Countable K'} {V} (d : gmap K' V) k v :
  d !! k = Some v -> subscript d k = Ok v.
Proof. unfold subscript. intros ->. done. Qed.

(** Every word preceded by a space. *)
Definition spaced (words : list pystr) : list pystr :=
  flat_map (fun w => [[32%N]; w]) words.

(** The words with one space between two of them. *)
Definition separated (words : list pystr) : list pystr :=
  match words with
  | [] => []
  | w :: ws => w :: spaced ws
  end.

Definition words_of m (tokens : list pystr) : list pystr :=
  filter (fun tok => is_placeholder m tok = false) tokens.

Definition placeholders_of m (tokens : list pystr) : list pystr :=
  filter (fun tok => is_placeholder m tok = true) tokens.

Lemma words_of_cons m tok l :
  words_of m (tok :: l)
  = if is_placeholder m tok then words_of m l else tok :: words_of m l.
Proof.
  unfold words_of. rewrite filter_cons. destruct (is_placeholder m tok).
  - rewrite decide_False by discriminate. done.
  - rewrite decide_True by done. done.
Qed.

Lemma placeholders_of_cons m tok l :
  placeholders_of m (tok :: l)
  = if is_placeholder m tok then tok :: placeholders_of m l else placeholders_of m l.
Proof.
  unfold placeholders_of. rewrite filter_cons. destruct (is_placeholder m tok).
  - rewrite decide_True by done. done.
  - rewrite decide_False by discriminate. done.
Qed.

Lemma insert_spacing_spec m :
  is_placeholder m [32%N] = false ->
  forall tokenList pendingSpace,
  exists out trailing,
    _insert_spacing m tokenList pendingSpace = Ok out
    /\ placeholders_of m out = placeholders_of m tokenList
    /\ words_of m out
       = (if pendingSpace then spaced (words_of m tokenList)
          else separated (words_of m tokenList)) ++ trailing
    /\ (trailing = [] \/ trailing = [[32%N]])
    /\ (pendingSpace = false -> words_of m tokenList = [] -> trailing = []).
Proof.
  intros Hsp. induction tokenList as [|token rest IH]; intros p.
  { exists [], []. destruct p; repeat split; auto. }
  cbn [_insert_spacing]. rewrite words_of_cons, placeholders_of_cons.
  destruct (is_placeholder m token) eqn:Hph.
  - destruct (is_placeholder_true _ _ Hph) as (c & entry & -> & Hc).
    rewrite (subscript_lookup _ _ _ Hc). cbn [mbind res_bind].
    destruct (p && bool_decide (entry_ttype entry = T_OPEN)) eqn:Hopen.
    + apply andb_prop in Hopen as [-> _].
      destruct (IH false) as (out & tr & -> & Hphs & Hws & Htr & Hnone).
      cbn [mbind res_bind].
      destruct (words_of m rest) as [|w ws] eqn:Hrest.
      * exists ([32%N] :: [c] :: out), [[32%N]].
        rewrite !placeholders_of_cons, !words_of_cons, Hsp, Hph, Hphs, Hws.
        rewrite (Hnone eq_refl eq_refl). repeat split; auto; discriminate.
      * exists ([32%N] :: [c] :: out), tr.
        rewrite !placeholders_of_cons, !words_of_cons, Hsp, Hph, Hphs, Hws.
        repeat split; auto; discriminate.
    + destruct (IH p) as (out & tr & -> & Hphs & Hws & Htr & Hnone).
      cbn [mbind res_bind]. exists ([c] :: out), tr.
      rewrite !placeholders_of_cons, !words_of_cons, Hph, Hphs, Hws.
      repeat split; auto.
  - destruct (IH true) as (out & tr & -> & Hphs & Hws & Htr & Hnone).
    cbn [mbind res_bind]. destruct p.
    + exists ([32%N] :: token :: out), tr.
      rewrite !placeholders_of_cons, !words_of_cons, Hsp, Hph, Hphs, Hws.
      repeat split; auto; discriminate.
    + exists (token :: out), tr.
      rewrite !placeholders_of_cons, !words_of_cons, Hph, Hphs, Hws.
      repeat split; auto; discriminate.
Qed.

(** X23.  When the space is not a placeholder, [_insert_spacing] never
    fails; it keeps the placeholders in their order, and the words of its
    output are the words of its input with exactly one space between two
    successive words, followed by at most one more space (one is put
    before an opening placeholder that follows the last word). *)
Theorem insert_spacing_separates_words m (tokenList : list pystr) :
  is_placeholder m [32%N] = false ->
  exists out trailing,
    _insert_spacing m tokenList false = Ok out
    /\ placeholders_of m out = placeholders_of m tokenList
    /\ words_of m out = separated (words_of m tokenList) ++ trailing
    /\ (trailing = [] \/ trailing = [[32%N]]).
Proof.
  intros Hsp.
  destruct (insert_spacing_spec m Hsp tokenList false)
    as (out & tr & Hout & Hphs & Hws & Htr & _).
  exists out, tr. done.
Qed.

(** The tokens that [_get_content_and_states] keeps: the words and the
    placeholders of single elements. *)
Definition is_content m (tok : pystr) : bool :=
  match tok with
  | [c] => match placeholder2tag m !! c with
           | Some entry => bool_decide (entry_ttype entry = T_SINGLE)
           | None => true
           end
  | _ => true
  end.

Lemma is_content_word m tok : is_placeholder m tok = false -> is_content m tok = true.
Proof.
  destruct tok as [|c [|]]; try done. cbn [is_placeholder is_content].
  intros Hn%bool_decide_eq_false_1. destruct (placeholder2tag m !! c); [|done].
  destruct Hn. eauto.
Qed.

Lemma content_and_states_result m : forall contentArray result stateByIndex
    currentState open_close_map result' states,
  content_and_states m contentArray result stateByIndex currentState open_close_map
  = Ok (result', states) ->
  result' = result ++ filter (fun tok => is_content m tok = true) contentArray.
Proof.
  induction contentArray as [|char rest IH];
    intros result sbi cs ocm result' states; cbn [content_and_states].
  { intros [= <- <-]. rewrite app_nil_r. done. }
  rewrite filter_cons. destruct (is_placeholder m char) eqn:Hph.
  - destruct (is_placeholder_true _ _ Hph) as (c & entry & -> & Hc).
    rewrite (subscript_lookup _ _ _ Hc). cbn [mbind res_bind is_content]. rewrite Hc.
    destruct (entry_ttype entry) eqn:Ht.
    + rewrite decide_False
        by (rewrite bool_decide_eq_false_2; [discriminate|discriminate]).
      intros H. apply bind_Ok in H as (cl & _ & H). apply (IH _ _ _ _ _ _ H).
    + rewrite decide_False
        by (rewrite bool_decide_eq_false_2; [discriminate|discriminate]).
      intros H. apply bind_Ok in H as (oc & _ & H).
      apply bind_Ok in H as (n & _ & H). apply (IH _ _ _ _ _ _ H).
    + rewrite decide_True by (rewrite bool_decide_eq_true_2; done).
      intros H. rewrite (IH _ _ _ _ _ _ H), <- app_assoc. done.
  - rewrite decide_True by (apply is_content_word, Hph).
    intros H. rewrite (IH _ _ _ _ _ _ H), <- app_assoc. done.
Qed.

(** X24.  The token list that [_get_content_and_states] returns is its
    input without the opening and closing placeholders: the words and the
    placeholders of single elements are kept, in their order. *)
Theorem get_content_and_states_keeps_content m (contentArray : list pystr)
    (result : list pystr) (states : gmap nat (gmap N Z)) :
  _get_content_and_states m contentArray = Ok (result, states) ->
  result = filter (fun tok => is_content m tok = true) contentArray.
Proof. intros H. apply (content_and_states_result m _ _ _ _ _ _ _ H). Qed.

Lemma content_and_states_unopened m : forall before result stateByIndex
    currentState c entry rest,
  Forall (fun tok => is_content m tok = true) before ->
  placeholder2tag m !! c = Some entry ->
  entry_ttype entry = T_CLOSE ->
  content_and_states m (before ++ [c] :: rest) result stateByIndex currentState ∅
  = Raise KeyError.
Proof.
  induction before as [|tok before IH]; intros result sbi cs c entry rest Hb Hc Ht.
  - cbn [app content_and_states is_placeholder].
    rewrite bool_decide_eq_true_2 by eauto.
    rewrite (subscript_lookup _ _ _ Hc). cbn [mbind res_bind]. rewrite Ht.
    assert (subscript (∅ : gmap N N) c = Raise KeyError) as ->; [|done].
    unfold subscript. rewrite lookup_empty. done.
  - apply Forall_cons in Hb as [Htok Hb]. cbn [app content_and_states].
    destruct (is_placeholder m tok) eqn:Hph; [|apply (IH _ _ _ _ entry); done].
    destruct (is_placeholder_true _ _ Hph) as (c' & entry' & -> & Hc').
    rewrite (subscript_lookup _ _ _ Hc'). cbn [mbind res_bind].
    cbn [is_content] in Htok. rewrite Hc' in Htok.
    apply bool_decide_eq_true_1 in Htok. rewrite Htok.
    apply (IH _ _ _ _ entry); done.
Qed.

(** X25.  A closing placeholder that comes before every opening
    placeholder makes [_get_content_and_states] fail with a [KeyError]:
    its opening placeholder is not yet in [open_close_map]. *)
Theorem get_content_and_states_unopened_close m (before rest : list pystr)
    (c : N) (entry : PlaceholderEntry) :
  Forall (fun tok => is_content m tok = true) before ->
  placeholder2tag m !! c = Some entry ->
  entry_ttype entry = T_CLOSE ->
  _get_content_and_states m (before ++ [c] :: rest) = Raise KeyError.
Proof.
  intros Hb Hc Ht. apply (content_and_states_unopened m _ _ _ _ _ entry); done.
Qed.

End Tokens.

(** A maker with the four placeholders of inserted and deleted text:
    57345 closes and 57346 opens an insertion. *)
Definition example_maker : PlaceholderMaker :=
  default (empty_maker false ["p"] ["b"] [] [] [])
    (match new_PlaceholderMaker canonical_form ["p"] ["b"] with
     | Ok m => Some m
     | Raise _ => None
     end).

Lemma cleanWhitespaceFormatting_leaves_no_blank_witness :
  let self := mkHTMLFormatter ["p"] ["b"] ["a"] in
  let t := elem_with "div" [] ""
             [elem_with "p" [] " " [elem_with "b" [] "" []];
              elem_with "p" [] "x" []] in
  let n := elem_with "p" [] "x" [] in
  n = cleanWhitespaceFormatting self t \/ is_blank_formatting self n = false.
Proof.
  intros self t n.
  apply (cleanWhitespaceFormatting_leaves_no_blank self t n).
  vm_compute. apply list_elem_of_further, list_elem_of_here.
Defined.

Lemma insert_spacing_separates_words_witness :
  exists out trailing,
    _insert_spacing example_maker [of_string "a"; [57346%N]; of_string "b"; [57345%N]] false
    = Ok out
    /\ placeholders_of example_maker out
       = placeholders_of example_maker
           [of_string "a"; [57346%N]; of_string "b"; [57345%N]]
    /\ words_of example_maker out
       = separated (words_of example_maker
                      [of_string "a"; [57346%N]; of_string "b"; [57345%N]]) ++ trailing
    /\ (trailing = [] \/ trailing = [[32%N]]).
Proof.
  apply (insert_spacing_separates_words example_maker). vm_compute. reflexivity.
Defined.

Lemma get_content_and_states_keeps_content_witness :
  exists result states,
    _get_content_and_states example_maker
      [of_string "a"; [57346%N]; of_string "b"; [57345%N]] = Ok (result, states)
    /\ result = filter (fun tok => is_content example_maker tok = true)
                  [of_string "a"; [57346%N]; of_string "b"; [57345%N]].
Proof.
  destruct (_get_content_and_states example_maker
              [of_string "a"; [57346%N]; of_string "b"; [57345%N]])
    as [[result states]|] eqn:E.
  - exists result, states. split; [reflexivity|].
    apply (get_content_and_states_keeps_content example_maker _ result states E).
  - exfalso. vm_compute in E. discriminate.
Defined.

Lemma get_content_and_states_unopened_close_witness :
  exists entry,
    placeholder2tag example_maker !! 57345%N = Some entry
    /\ _get_content_and_states example_maker
         ([of_string "a"] ++ [57345%N] :: [of_string "b"]) = Raise KeyError.
Proof.
  destruct (placeholder2tag example_maker !! 57345%N) as [entry|] eqn:E.
  - exists entry. split; [reflexivity|].
    apply (get_content_and_states_unopened_close example_maker
             [of_string "a"] [of_string "b"] 57345%N entry).
    + repeat constructor.
    + exact E.
    + vm_compute in E. injection E as <-. reflexivity.
  - exfalso. vm_compute in E. discriminate.
Defined.

(** ** [placeholder.py]: the two tables of a maker *)

Section Tables.
Context {K : Type} `{EqDecision K} (canonicalize : tree -> K).
Implicit Types m : PlaceholderMaker (K := K).

(** The tables agree: a placeholder recorded for a key in
    [tag2placeholder] has an entry in [placeholder2tag], with the type and
    the closing placeholder of the key, and no placeholder is above the
    counter. *)
Definition registered m : Prop :=
  maker_wf m
  /\ forall key ph, lookup_tag key (tag2placeholder m) = Some ph ->
       exists en, placeholder2tag m !! ph = Some en
                  /\ entry_ttype en = key.1.2 /\ close_ph en = key.2.

Lemma get_placeholder_registers m e tt c ph m' :
  registered m -> get_placeholder canonicalize e tt c m = Ok (ph, m') ->
  registered m'
  /\ exists en, placeholder2tag m' !! ph = Some en
                /\ entry_ttype en = tt /\ close_ph en = c.
Proof.
  intros [Hwf Hreg] Hget.
  destruct (get_placeholder_step canonicalize _ _ _ _ _ _ Hwf Hget) as (Hwf' & _ & _).
  revert Hget. unfold get_placeholder.
  destruct (lookup_tag (canonicalize e, tt, c) (tag2placeholder m)) as [ph0|] eqn:Hl.
  - intros [= <- <-]. split; [split; done|]. apply (Hreg _ _ Hl).
  - unfold chr. destruct (placeholder m + 1 <=? 1114111)%N; [|discriminate].
    cbn [mbind res_bind]. intros [= <- <-]. split; [split; [done|]|].
    + intros key ph. cbn [tag2placeholder placeholder2tag with_tables lookup_tag].
      destruct (decide ((canonicalize e, tt, c) = key)) as [<-|Hne].
      * intros [= <-]. rewrite lookup_insert_eq. eauto.
      * intros Hkey. destruct (Hreg _ _ Hkey) as (en & Hen & Ht & Hc).
        exists en. split; [|done]. rewrite lookup_insert_ne; [done|].
        specialize (Hwf ph (ex_intro _ en Hen)). lia.
    + cbn [placeholder2tag with_tables]. rewrite lookup_insert_eq. eauto.
Qed.

Lemma get_placeholder_pair m e e' pc m1 po m2 :
  registered m ->
  get_placeholder canonicalize e T_CLOSE None m = Ok (pc, m1) ->
  get_placeholder canonicalize e' T_OPEN (Some pc) m1 = Ok (po, m2) ->
  registered m2
  /\ exists eo ec,
       placeholder2tag m2 !! po = Some eo /\ entry_ttype eo = T_OPEN
       /\ close_ph eo = Some pc
       /\ placeholder2tag m2 !! pc = Some ec /\ entry_ttype ec = T_CLOSE.
Proof.
  intros Hm Hg1 Hg2.
  destruct (get_placeholder_registers _ _ _ _ _ _ Hm Hg1) as (Hm1 & ec & Hec & Htc & _).
  destruct (get_placeholder_registers _ _ _ _ _ _ Hm1 Hg2) as (Hm2 & eo & Heo & Hto & Hco).
  split; [done|]. exists eo, ec. repeat split; try done.
  destruct Hm1 as [Hwf1 _].
  destruct (get_placeholder_step canonicalize _ _ _ _ _ _ Hwf1 Hg2) as (_ & [_ Hext] & _).
  rewrite Hext; [done|]. apply Hwf1. eauto.
Qed.

(** X26.  On a maker whose tables agree, [get_both_placeholders] leaves
    them in agreement and returns registered placeholders: for a single
    tag of the HTML maker an empty closing string and a placeholder of
    type single; otherwise an opening placeholder whose entry names the
    closing placeholder that is returned with it, itself of type close. *)
Theorem get_both_placeholders_registers m (e : tree) (po : N) (pc : pystr) m' :
  registered m ->
  get_both_placeholders canonicalize e m = Ok (po, pc, m') ->
  registered m'
  /\ ((pc = [] /\ exists en, placeholder2tag m' !! po = Some en
                             /\ entry_ttype en = T_SINGLE)
      \/ (exists c eo ec,
            pc = [c]
            /\ placeholder2tag m' !! po = Some eo /\ entry_ttype eo = T_OPEN
            /\ close_ph eo = Some c
            /\ placeholder2tag m' !! c = Some ec /\ entry_ttype ec = T_CLOSE)).
Proof.
  intros Hm. unfold get_both_placeholders.
  destruct (html m && bool_decide (tag e ∈ single_formatting_tags m)).
  - intros H. apply bind_Ok in H as ([ph m1] & Hg & H). injection H as <- <- <-.
    destruct (get_placeholder_registers _ _ _ _ _ _ Hm Hg) as (Hm1 & en & Hen & Ht & _).
    split; [done|]. left. eauto.
  - destruct (html m && bool_decide (tag e ∈ dual_formatting_tags m)).
    + intros H. apply bind_Ok in H as ([c m1] & Hg1 & H).
      apply bind_Ok in H as ([o m2] & Hg2 & H). injection H as <- <- <-.
      destruct (get_placeholder_pair _ _ _ _ _ _ _ Hm Hg1 Hg2)
        as (Hm2 & eo & ec & H1 & H2 & H3 & H4 & H5).
      split; [done|]. right. exists c, eo, ec. done.
    + intros H. apply bind_Ok in H as ([c m1] & Hg1 & H).
      apply bind_Ok in H as ([o m2] & Hg2 & H). injection H as <- <- <-.
      destruct (get_placeholder_pair _ _ _ _ _ _ _ Hm Hg1 Hg2)
        as (Hm2 & eo & ec & H1 & H2 & H3 & H4 & H5).
      split; [done|]. right. exists c, eo, ec. done.
Qed.

(** X27.  Encoding never takes a placeholder back: after [do_tree], every
    placeholder that the maker had still has its entry, the counter has
    not decreased, and no placeholder is above the counter. *)
Theorem do_tree_keeps_placeholders m (t : tree) m' (t' : tree) :
  maker_wf m ->
  do_tree canonicalize m t = Ok (m', t') ->
  maker_wf m'
  /\ (placeholder m <= placeholder m')%N
  /\ forall ph en, placeholder2tag m !! ph = Some en ->
                   placeholder2tag m' !! ph = Some en.
Proof.
  intros Hwf Hdo.
  destruct (do_tree_later canonicalize m t m (m', t')) as [Hwf' [Hle Hext]];
    [split; [done|apply maker_extends_refl]|done|].
  cbn [fst] in *. split; [done|]. split; [done|].
  intros ph en Hen. rewrite Hext; [done|]. apply Hwf. eauto.
Qed.

End Tables.

Lemma empty_maker_registered is_html tt ft sft dft cft :
  registered (K := tree) (empty_maker is_html tt ft sft dft cft).
Proof.
  split.
  - intros ph [en Hen]. cbn in Hen. rewrite lookup_empty in Hen. discriminate.
  - intros key ph. cbn. discriminate.
Qed.

Lemma get_both_placeholders_registers_witness :
  exists po pc m',
    get_both_placeholders canonical_form (elem_with "b" [] "x" [])
      (empty_maker true ["p"] ["b"] [] ["b"] []) = Ok (po, pc, m')
    /\ registered m'
    /\ ((pc = [] /\ exists en, placeholder2tag m' !! po = Some en
                               /\ entry_ttype en = T_SINGLE)
        \/ (exists c eo ec,
              pc = [c]
              /\ placeholder2tag m' !! po = Some eo /\ entry_ttype eo = T_OPEN
              /\ close_ph eo = Some c
              /\ placeholder2tag m' !! c = Some ec /\ entry_ttype ec = T_CLOSE)).
Proof.
  destruct (get_both_placeholders canonical_form (elem_with "b" [] "x" [])
              (empty_maker true ["p"] ["b"] [] ["b"] [])) as [[[po pc] m']|] eqn:E.
  - exists po, pc, m'. split; [reflexivity|].
    apply (get_both_placeholders_registers canonical_form
             (empty_maker true ["p"] ["b"] [] ["b"] []) (elem_with "b" [] "x" [])
             po pc m');
      [apply empty_maker_registered|exact E].
  - exfalso. vm_compute in E. discriminate.
Defined.

Lemma empty_maker_wf is_html tt ft sft dft cft :
  maker_wf (K := tree) (empty_maker is_html tt ft sft dft cft).
Proof. apply empty_maker_registered. Qed.

Lemma example_maker_wf : maker_wf example_maker.
Proof.
  unfold example_maker, new_PlaceholderMaker.
  destruct (init_maker canonical_form (empty_maker false ["p"] ["b"] [] [] []))
    as [m|] eqn:Em; cbn [default from_option id]; [|apply empty_maker_wf].
  apply (init_maker_tags canonical_form (fun _ => True)) in Em as [Hm _]; try done.
  apply empty_maker_wf.
Qed.

Lemma do_tree_keeps_placeholders_witness :
  exists m' t',
    do_tree canonical_form example_maker
      (elem_with "p" [] "x" [elem_with "b" [] "y" []]) = Ok (m', t')
    /\ maker_wf m'
    /\ (placeholder example_maker <= placeholder m')%N
    /\ forall ph en, placeholder2tag example_maker !! ph = Some en ->
                     placeholder2tag m' !! ph = Some en.
Proof.
  destruct (do_tree canonical_form example_maker
              (elem_with "p" [] "x" [elem_with "b" [] "y" []])) as [[m' t']|] eqn:E.
  - exists m', t'. split; [reflexivity|].
    apply (do_tree_keeps_placeholders canonical_form example_maker
             (elem_with "p" [] "x" [elem_with "b" [] "y" []]) m' t');
      [apply example_maker_wf|exact E].
  - exfalso. vm_compute in E. discriminate.
Defined.

Section ModifiedPlaceholder.
Context {K : Type} `{EqDecision K} (canonicalize : tree -> K).
Implicit Types m : PlaceholderMaker (K := K).


End ModifiedPlaceholder.



